(** * ID3 decision trees: a shallow embedding of [id3.py] and its properties

    The development follows the layout of the Python module:
    - Python outcomes (a returned value or a raised exception) as a small
      error monad;
    - [dict] objects as insertion-ordered association lists, [set] objects
      through an abstract iteration order;
    - the classes [ID3DecisionTreeNode] and [ID3DecisionTree] with their
      methods;
    - the builder [id3] with its nested function [id3_helper];
    - the text of a tree, [__str__] with its nested function [tree_str];
    - a store-passing variant of the builder and of the inverse query, in
      which dictionaries and lists live in a store of mutable objects.
    The floats are an interface with the laws that the scores rely on.
    The properties follow the definitions: traversal, partitioning,
    selection, the recursion and its budget, validation, the inverse query,
    the scores, and the store; then further
    properties of the same functions, of the text of a tree and of the
    inverse query over the store. *)

From Stdlib Require Import QArith Reals Lra Lia.
From stdpp Require Import base decidable option list strings.

Close Scope R_scope.
Close Scope Q_scope.
Open Scope nat_scope.

(** ** Outcomes of a Python call *)

(** [KeyError] is raised by [d[k]] and [d.pop(k)] on a missing key,
    [IndexError] by [l[0]] on an empty sequence, [TypeError] by subscripting
    [None].  [OutOfFuel] is not a Python exception: it marks a run of the
    recursion that needed more nested calls than the budget it was given. *)
Inductive result (A : Type) : Type :=
  | Ok (a : A)
  | KeyError
  | IndexError
  | TypeError
  | OutOfFuel.
Arguments Ok {A} a.
Arguments KeyError {A}.
Arguments IndexError {A}.
Arguments TypeError {A}.
Arguments OutOfFuel {A}.

Definition bind {A B : Type} (m : result A) (k : A -> result B) : result B :=
  match m with
  | Ok a => k a
  | KeyError => KeyError
  | IndexError => IndexError
  | TypeError => TypeError
  | OutOfFuel => OutOfFuel
  end.

Declare Scope py_scope.
Delimit Scope py_scope with py.
Notation "'let*' x := m 'in' k" := (bind m (fun x => k))
  (at level 10, x pattern, m at level 200, k at level 200) : py_scope.
Open Scope py_scope.

(** A [for] loop whose body may raise: the first exception ends the loop. *)
Fixpoint for_each {A S : Type} (body : S -> A -> result S) (l : list A) (s : S)
  : result S :=
  match l with
  | [] => Ok s
  | x :: l' => let* s' := body s x in for_each body l' s'
  end.

(** A comprehension [[f(x) for x in l]] whose element expression may raise. *)
Fixpoint comprehension {A B : Type} (f : A -> result B) (l : list A)
  : result (list B) :=
  match l with
  | [] => Ok []
  | x :: l' => let* y := f x in let* ys := comprehension f l' in Ok (y :: ys)
  end.

(** ** Python sets *)

(** The order in which a [set] hands out its elements is not fixed by the
    language.  [set_iter l] is the iteration order of the set built from the
    elements of [l] inserted in that order; all that is known about it is
    that it lists every element of [l] once. *)
Class PySet (A : Type) : Type := {
  set_iter : list A -> list A;
  set_iter_NoDup : forall l, NoDup (set_iter l);
  set_iter_elem : forall l x, x ∈ set_iter l <-> x ∈ l
}.

(** One admissible order: that of the list, each element at its last
    occurrence. *)
#[export] Program Instance listed_set {A : Type} `{EqDecision A} : PySet A :=
  {| set_iter := remove_dups |}.
Next Obligation. intros. apply NoDup_remove_dups. Qed.
Next Obligation. intros. apply elem_of_remove_dups. Qed.

(** ** Python floats, as far as [id3_helper] uses them *)

(** [ratio] is the type of [output_count/len(outputs)], [score] the type of
    the running [attr_entropy]; in Python both are [float].  The operations
    are total here: [id3_helper] divides by the length of a list only inside
    a loop over the outputs of that list, and takes the logarithm of the
    quotient of two positive counts, so neither [ZeroDivisionError] nor
    [ValueError] can be raised. *)
Class Float : Type := {
  ratio : Type;
  score : Type;
  Fzero : score;                       (* the literal 0 *)
  Fdiv : nat -> nat -> ratio;          (* int / int *)
  Flog2 : ratio -> score;              (* math.log2 *)
  Fmul : nat -> score -> score;        (* int * float *)
  Fsub : score -> score -> score;      (* float - float *)
  Fltb : score -> score -> bool        (* float < float *)
}.

(** The order of floats that are not NaN. *)
Class FloatOrder (FL : Float) : Prop := {
  Fltb_trans : forall x y z : score,
    Fltb x y = true -> Fltb y z = true -> Fltb x z = true;
  Fltb_le_trans : forall x y z : score,
    Fltb x y = true -> Fltb z y = false -> Fltb x z = true
}.

(** A count that a float holds exactly: every int up to [2**53] is a float.
    The length of a list is far below. *)
Definition exact_count (n : nat) : Prop := (Z.of_nat n <= 2 ^ 53)%Z.

(** The laws of the floats that the scores rely on.  A score is the number
    that a Python value stands for: the int [0] and the floats [0.0] and
    [-0.0] are one number, and NaN is not a score.  The quotient of two
    ints is the nearest float to the exact quotient, so [n/n] is [1.0], and
    [c/n] is smaller than [1.0] when [c < n] and [n] is at most [2**53];
    [math.log2] is [0.0] at [1.0] and negative below it; a product and a
    difference are the nearest floats to the exact ones, so they keep the
    sign and the order. *)
Class FloatLaws (FL : Float) : Prop := {
  (* not 0 < 0 *)
  Fltb_zero : Fltb Fzero Fzero = false;
  (* two scores neither of which is smaller are the same number *)
  Fltb_antisym : forall x y : score,
    Fltb x y = false -> Fltb y x = false -> x = y;
  (* n * log2(n/n) is 0 *)
  Fterm_one : forall n, 0 < n -> exact_count n ->
    Fmul n (Flog2 (Fdiv n n)) = Fzero;
  (* c * log2(c/n) is not positive *)
  Fterm_nonpos : forall c n, 0 < c -> c <= n -> exact_count n ->
    Fltb Fzero (Fmul c (Flog2 (Fdiv c n))) = false;
  (* c * log2(c/n) is negative when c < n *)
  Fterm_neg : forall c n, 0 < c -> c < n -> exact_count n ->
    Fltb (Fmul c (Flog2 (Fdiv c n))) Fzero = true;
  (* x - 0 is x *)
  Fsub_zero : forall x : score, Fsub x Fzero = x;
  (* x - y is not negative when x is not negative and y is not positive *)
  Fsub_nonneg : forall x y : score,
    Fltb x Fzero = false -> Fltb Fzero y = false ->
    Fltb (Fsub x y) Fzero = false;
  (* x - y is positive when x is not negative and y is negative *)
  Fsub_pos : forall x y : score,
    Fltb x Fzero = false -> Fltb y Fzero = true ->
    Fltb Fzero (Fsub x y) = true;
  (* x - y is positive when x is positive and y is not positive *)
  Fsub_pos_keep : forall x y : score,
    Fltb Fzero x = true -> Fltb Fzero y = false ->
    Fltb Fzero (Fsub x y) = true
}.

(** The operations in which the specification words the score: the sum of
    floats, and the product [-count * x] of a negated int and a float. *)
Class FloatSum (FL : Float) : Type := {
  Fadd : score -> score -> score;       (* float + float *)
  Fnegmul : nat -> score -> score       (* -int * float *)
}.

(** Their laws: [0 + y] is [y], and [x - c * l] is [x + (-c) * l], both
    without any rounding of their own. *)
Class FloatSumLaws (FL : Float) (FS : FloatSum FL) : Prop := {
  Fadd_zero_l : forall y : score, Fadd Fzero y = y;
  Fsub_as_add : forall (x : score) (c : nat) (l : score),
    Fsub x (Fmul c l) = Fadd x (Fnegmul c l)
}.

Section ID3.

Context {Attr Value Output : Type}.
Context `{EqDecision Attr, EqDecision Value, EqDecision Output}.
Context {value_sets : PySet Value} {output_sets : PySet Output}.
Context {FL : Float}.

(** ** Dictionaries *)

(** An input assignment: a [dict] from attribute names to attribute values,
    its items in insertion order. *)
Definition dict : Type := list (Attr * Value).

(** An exemplar: the tuple [(inputs, output)].  The [output] is a value
    other than [None]: the code returns [None] for a missing branch and for
    an empty tree, and an output [None] could not be told from these. *)
Definition exemplar : Type := dict * Output.

(** [d.keys()] *)
Definition keys (d : dict) : list Attr := d.*1.

(** A Python dict holds each key once. *)
Definition dict_wf (d : dict) : Prop := NoDup (keys d).

(** The lookup behind [d[k]] and [k in d]. *)
Fixpoint lookup_item (k : Attr) (d : dict) : option Value :=
  match d with
  | [] => None
  | (k', v) :: d' => if decide (k = k') then Some v else lookup_item k d'
  end.

(** [d[k]] *)
Definition getitem (d : dict) (k : Attr) : result Value :=
  match lookup_item k d with
  | Some v => Ok v
  | None => KeyError
  end.

(** [d.pop(k)]: the value of [k] and the dict without [k]; the other items
    keep their order. *)
Fixpoint pop (k : Attr) (d : dict) : result (Value * dict) :=
  match d with
  | [] => KeyError
  | (k', v) :: d' =>
      if decide (k = k') then Ok (v, d')
      else let* (w, d'') := pop k d' in Ok (w, (k', v) :: d'')
  end.

(** [d[k] = v]: an existing key keeps its position, a new key goes last. *)
Fixpoint setitem (k : Attr) (v : Value) (d : dict) : dict :=
  match d with
  | [] => [(k, v)]
  | (k', v') :: d' =>
      if decide (k = k') then (k, v) :: d' else (k', v') :: setitem k v d'
  end.

(** [d1 == d2]: the same number of items, and every item of [d1] is in [d2]
    under the same key; the order of the items does not count. *)
Definition dict_eqb (d1 d2 : dict) : bool :=
  bool_decide (length d1 = length d2)
  && forallb (fun '(k, v) => bool_decide (lookup_item k d2 = Some v)) d1.

(** ** The tree *)

(** What [root_node] and the second component of a [value_subnode_pairs]
    entry can hold: [None], an output value, or an [ID3DecisionTreeNode]
    with its [name] and [value_subnode_pairs]. *)
#[warnings="-register-all"] Inductive tree : Type :=
  | TNone
  | TLeaf (o : Output)
  | TNode (name : Attr) (value_subnode_pairs : list (Value * tree)).

(** [ID3DecisionTreeNode.get_subnode_for_input]; a missing value gives
    [None], here [TNone]. *)
Fixpoint get_subnode_for_input (value_subnode_pairs : list (Value * tree))
    (input : Value) : tree :=
  match value_subnode_pairs with
  | [] => TNone
  | (v, subnode) :: rest =>
      if decide (input = v) then subnode else get_subnode_for_input rest input
  end.

(** [ID3DecisionTree.__call__]: the [while] loop walks down from the root;
    the result is [None] or an output value.  The inner loop is
    [get_subnode_for_input] written in place (see [call_node]). *)
Fixpoint call (node : tree) (inputs : dict) : result (option Output) :=
  match node with
  | TNone => Ok None
  | TLeaf o => Ok (Some o)
  | TNode name value_subnode_pairs =>
      let* input := getitem inputs name in
      (fix subnode_for (pairs : list (Value * tree)) : result (option Output) :=
         match pairs with
         | [] => Ok None
         | (v, subnode) :: rest =>
             if decide (input = v) then call subnode inputs
             else subnode_for rest
         end) value_subnode_pairs
  end.

(** [ID3DecisionTree.validate] *)
Fixpoint validate (root_node : tree) (exemplars : list exemplar) : result bool :=
  match exemplars with
  | [] => Ok true
  | (inputs, output) :: rest =>
      let* r := call root_node inputs in
      if decide (r <> Some output) then Ok false else validate root_node rest
  end.

(** [get_inputs], the function nested in [get_inputs_for_output].  The
    accumulator [inputs] is one list object shared by all calls, so each call
    returns the list as it has left it; [input] is the dict the loop writes
    [node.name] into, and a nested call works on a copy of it. *)
Fixpoint get_inputs (node : tree) (output : Output) (input : dict)
    (inputs : list dict) : list dict :=
  match node with
  | TNode name value_subnode_pairs =>
      (fix loop (pairs : list (Value * tree)) (input : dict)
           (inputs : list dict) : list dict :=
         match pairs with
         | [] => inputs
         | (value, subnode) :: rest =>
             let input := setitem name value input in
             let inputs :=
               match subnode with
               | TNode _ _ => get_inputs subnode output input inputs
               | TLeaf o =>
                   if decide (o = output) then inputs ++ [input] else inputs
               | TNone => inputs
               end in
             loop rest input inputs
         end) value_subnode_pairs input inputs
  | _ => inputs
  end.

(** [ID3DecisionTree.get_inputs_for_output] *)
Definition get_inputs_for_output (root_node : tree) (output : Output)
  : list dict :=
  match root_node with
  | TNode _ _ => get_inputs root_node output [] []
  | _ => []
  end.

(** ** The builder *)

(** [l.count(x)] *)
Definition count (l : list Output) (x : Output) : nat :=
  length (filter (fun y => y = x) l).

(** [l[0]] *)
Definition first {A : Type} (l : list A) : result A :=
  match l with
  | [] => IndexError
  | x :: _ => Ok x
  end.

(** The two nested loops that compute the flag [inputs_all_same]: the flag
    is cleared at the first pair of exemplars whose [inputs] differ, and
    once it is cleared both loops are left ([break]), so nothing more is
    compared. *)
Definition inputs_all_same (exemplars : list exemplar) : bool :=
  fold_left
    (fun (inputs_all_same : bool) '(inputs0, _) =>
       if inputs_all_same then
         fold_left
           (fun (inputs_all_same : bool) '(inputs1, _) =>
              if inputs_all_same then dict_eqb inputs0 inputs1 else false)
           exemplars true
       else false)
    exemplars true.

(** The majority vote: [most_common] starts as [None] with count 0 and is
    replaced by every output of the set whose count is strictly larger. *)
Definition most_common_output (outputs : list Output) : tree :=
  fst (fold_left
         (fun '(most_common, most_common_count) output =>
            let count := count outputs output in
            if decide (most_common_count < count) then (TLeaf output, count)
            else (most_common, most_common_count))
         (set_iter outputs) (TNone, 0)).

(** The dict [partitions]: attribute value to list of exemplars, in the
    order in which the keys were inserted. *)
Definition partitions_t : Type := list (Value * list exemplar).

(** [partitions[attr_value].append(e)] *)
Fixpoint append_to (attr_value : Value) (e : exemplar) (partitions : partitions_t)
  : result partitions_t :=
  match partitions with
  | [] => KeyError
  | (v, l) :: rest =>
      if decide (attr_value = v) then Ok ((v, l ++ [e]) :: rest)
      else let* rest' := append_to attr_value e rest in Ok ((v, l) :: rest')
  end.

(** The partitioning of the exemplars on [attr]: one empty list per value of
    the set [attr_values], then every exemplar, with [attr] popped from a
    copy of its [inputs], appended to the list of its value. *)
Definition partition_on (attr : Attr) (exemplars : list exemplar)
  : result partitions_t :=
  let* values := comprehension (fun '(inputs, _) => getitem inputs attr)
                   exemplars in
  let attr_values := set_iter values in
  let partitions := (fun attr_value => (attr_value, [])) <$> attr_values in
  for_each
    (fun partitions '(inputs, output) =>
       let* (attr_value, inputs) := pop attr inputs in
       append_to attr_value (inputs, output) partitions)
    exemplars partitions.

(** The inner loop of the computation of [attr_entropy], over the set of
    the outputs of one partition. *)
Definition outputs_entropy (attr_entropy : score) (outputs : list Output)
  : score :=
  fold_left
    (fun attr_entropy output =>
       let output_count := count outputs output in
       Fsub attr_entropy
         (Fmul output_count (Flog2 (Fdiv output_count (length outputs)))))
    (set_iter outputs) attr_entropy.

(** The loop that computes [attr_entropy], from the literal 0. *)
Definition attr_entropy_of (partitions : partitions_t) : score :=
  fold_left
    (fun attr_entropy '(_, partition) =>
       let outputs := partition.*2 in
       outputs_entropy attr_entropy outputs)
    partitions Fzero.

(** The dict [best_attr]. *)
Record best_attr_t : Type := BestAttr {
  attr : Attr;
  entropy : score;
  partitions : partitions_t
}.

(** One turn of the loop over the attribute names: [best_attr] is [None]
    before the first turn. *)
Definition consider (exemplars : list exemplar) (best_attr : option best_attr_t)
    (attr : Attr) : result (option best_attr_t) :=
  let* partitions := partition_on attr exemplars in
  let attr_entropy := attr_entropy_of partitions in
  match best_attr with
  | None => Ok (Some (BestAttr attr attr_entropy partitions))
  | Some best =>
      if Fltb attr_entropy (entropy best)
      then Ok (Some (BestAttr attr attr_entropy partitions))
      else Ok best_attr
  end.

(** The block "find the best attribute": the loop over the keys of the
    [inputs] of the first exemplar. *)
Definition find_best_attr (exemplars : list exemplar) : result (option best_attr_t) :=
  let* exemplar0 := first exemplars in
  for_each (consider exemplars) (keys (exemplar0.1)) None.

(** [id3_helper], with a budget [fuel] of nested calls.  The limit that the
    interpreter puts on the depth of recursion is not modelled. *)
Fixpoint id3_helper (fuel : nat) (exemplars : list exemplar) : result tree :=
  match fuel with
  | 0 => OutOfFuel
  | S fuel =>
      let output_set := set_iter (exemplars.*2) in
      if decide (length output_set = 0) then Ok TNone
      else if decide (length output_set = 1) then
        let* exemplar0 := first exemplars in Ok (TLeaf (exemplar0.2))
      else if inputs_all_same exemplars then
        Ok (most_common_output (exemplars.*2))
      else
        let* best_attr := find_best_attr exemplars in
        match best_attr with
        | None => TypeError
        | Some best =>
            let* value_subnode_pairs :=
              for_each
                (fun value_subnode_pairs '(attr_value, partition) =>
                   let* subnode := id3_helper fuel partition in
                   Ok (value_subnode_pairs ++ [(attr_value, subnode)]))
                (partitions best) [] in
            Ok (TNode (attr best) value_subnode_pairs)
        end
  end.

(** The largest number of keys in the [inputs] of an exemplar. *)
Definition max_keys (exemplars : list exemplar) : nat :=
  max_list ((fun e : exemplar => length (e.1)) <$> exemplars).

(** [id3]: the tree is identified with its [root_node].  The budget is more
    than the recursion ever uses (see [id3_helper_enough_fuel]). *)
Definition id3 (exemplars : list exemplar) : result tree :=
  id3_helper (S (max_keys exemplars)) exemplars.

(** ** Vocabulary of the properties *)

(** The exemplars whose [inputs] give [attr] the value [attr_value], in
    their order, each with the key [attr] removed from its [inputs]. *)
Definition group (attr : Attr) (attr_value : Value) (exemplars : list exemplar)
  : list exemplar :=
  omap (fun '(inputs, output) =>
          match pop attr inputs with
          | Ok (v, inputs') =>
              if decide (v = attr_value) then Some (inputs', output) else None
          | _ => None
          end) exemplars.

(** What the loop leaves in [best_attr]: the name of one of the keys, with
    its partitioning and the entropy of that partitioning. *)
Definition candidate_of (exemplars : list exemplar) (names : list Attr)
    (best : best_attr_t) : Prop :=
  attr best ∈ names /\
  partition_on (attr best) exemplars = Ok (partitions best) /\
  entropy best = attr_entropy_of (partitions best).

(** The four ways in which a call returns a tree. *)
Inductive returned (fuel : nat) (exemplars : list exemplar) (t : tree) : Prop :=
  | returned_none :
      exemplars = [] -> t = TNone -> returned fuel exemplars t
  | returned_only_output exemplar0 rest :
      exemplars = exemplar0 :: rest ->
      (forall e, e ∈ exemplars -> e.2 = exemplar0.2) ->
      t = TLeaf (exemplar0.2) ->
      returned fuel exemplars t
  | returned_most_common :
      2 <= length (set_iter (exemplars.*2)) ->
      inputs_all_same exemplars = true ->
      t = most_common_output (exemplars.*2) ->
      returned fuel exemplars t
  | returned_node best pairs :
      2 <= length (set_iter (exemplars.*2)) ->
      inputs_all_same exemplars = false ->
      find_best_attr exemplars = Ok (Some best) ->
      Forall2 (fun part pair =>
                 pair.1 = part.1 /\ id3_helper fuel (part.2) = Ok (pair.2))
        (partitions best) pairs ->
      t = TNode (attr best) pairs ->
      returned fuel exemplars t.

(** The loop of [get_inputs] over the pairs of a node named [name], as a
    function of its own (see [get_inputs_node]). *)
Fixpoint get_inputs_pairs (name : Attr) (output : Output)
    (pairs : list (Value * tree)) (input : dict) (inputs : list dict)
  : list dict :=
  match pairs with
  | [] => inputs
  | (value, subnode) :: rest =>
      let input := setitem name value input in
      let inputs :=
        match subnode with
        | TNode _ _ => get_inputs subnode output input inputs
        | TLeaf o => if decide (o = output) then inputs ++ [input] else inputs
        | TNone => inputs
        end in
      get_inputs_pairs name output rest input inputs
  end.

(** The names of the nodes of a tree. *)
Fixpoint node_names (node : tree) : list Attr :=
  match node with
  | TNode name value_subnode_pairs =>
      name :: (fix names_of (pairs : list (Value * tree)) : list Attr :=
                 match pairs with
                 | [] => []
                 | (_, subnode) :: rest => node_names subnode ++ names_of rest
                 end) value_subnode_pairs
  | _ => []
  end.

(** The shape of the trees that [id3] builds: the pairs of a node have
    distinct values, and the name of a node is not the name of a node below
    it. *)
Inductive tree_wf : tree -> Prop :=
  | tree_wf_none : tree_wf TNone
  | tree_wf_leaf o : tree_wf (TLeaf o)
  | tree_wf_node name pairs :
      NoDup (pairs.*1) ->
      (forall v subnode, (v, subnode) ∈ pairs -> tree_wf subnode) ->
      (forall v subnode, (v, subnode) ∈ pairs -> name ∉ node_names subnode) ->
      tree_wf (TNode name pairs).

(** [inputs'] has every item of [inputs], and maybe more. *)
Definition extends (inputs inputs' : dict) : Prop :=
  forall k v, lookup_item k inputs = Some v -> lookup_item k inputs' = Some v.

(** All exemplars have the names [names] as the keys of their [inputs]. *)
Definition uniform (names : list Attr) (exemplars : list exemplar) : Prop :=
  forall e, e ∈ exemplars -> dict_wf (e.1) /\ keys (e.1) ≡ₚ names.

(** No two exemplars have equal [inputs] and different outputs. *)
Definition consistent (exemplars : list exemplar) : Prop :=
  forall e1 e2, e1 ∈ exemplars -> e2 ∈ exemplars ->
                dict_eqb (e1.1) (e2.1) = true -> e1.2 = e2.2.

(** A result that is a value, a [KeyError] or a [TypeError]. *)
Definition key_or_type_error {A : Type} (r : result A) : Prop :=
  match r with
  | Ok _ | KeyError | TypeError => True
  | IndexError | OutOfFuel => False
  end.

(** The number of nodes on the longest path from the root to a leaf. *)
Fixpoint depth (node : tree) : nat :=
  match node with
  | TNode _ value_subnode_pairs =>
      S (max_list ((fun p : Value * tree => depth (p.2)) <$> value_subnode_pairs))
  | _ => 0
  end.

(** The values that the variable [node] takes in the loop of [__call__],
    from the root on: a node is followed by the subnode for [inputs[name]]
    when [inputs] has the key [name]. *)
Inductive visits (inputs : dict) (root_node : tree) : tree -> Prop :=
  | visits_root : visits inputs root_node root_node
  | visits_next name value_subnode_pairs input :
      visits inputs root_node (TNode name value_subnode_pairs) ->
      lookup_item name inputs = Some input ->
      visits inputs root_node (get_subnode_for_input value_subnode_pairs input).

(** The traversal of a tree built from [exemplars], each visited node with
    the exemplars it was built from: the root from all of them, the subnode
    for a value from the group of that value. *)
Inductive visits_built (inputs : dict) (exemplars : list exemplar)
    (root_node : tree) : list exemplar -> tree -> Prop :=
  | visits_built_root : visits_built inputs exemplars root_node exemplars root_node
  | visits_built_next partition name value_subnode_pairs input :
      visits_built inputs exemplars root_node partition
        (TNode name value_subnode_pairs) ->
      lookup_item name inputs = Some input ->
      visits_built inputs exemplars root_node (group name input partition)
        (get_subnode_for_input value_subnode_pairs input).

(** The score of an attribute: the entropy of the partitioning on it. *)
Definition attr_score (attr : Attr) (exemplars : list exemplar) : result score :=
  let* partitions := partition_on attr exemplars in
  Ok (attr_entropy_of partitions).

(** [best] is the first of the names [names] with the smallest score: the
    names before it have a larger score, the names after it do not have a
    smaller one. *)
Definition first_smallest (exemplars : list exemplar) (names : list Attr)
    (best : best_attr_t) : Prop :=
  exists before after,
    names = before ++ attr best :: after /\
    attr_score (attr best) exemplars = Ok (entropy best) /\
    (forall b, b ∈ before ->
       exists s, attr_score b exemplars = Ok s /\ Fltb (entropy best) s = true) /\
    (forall b, b ∈ after ->
       exists s, attr_score b exemplars = Ok s /\ Fltb s (entropy best) = false).

(** The outputs at the leaves of a tree, from left to right. *)
Fixpoint outputs_of (node : tree) : list Output :=
  match node with
  | TNone => []
  | TLeaf o => [o]
  | TNode _ value_subnode_pairs =>
      mjoin ((fun p : Value * tree => outputs_of (p.2)) <$> value_subnode_pairs)
  end.

(** A tree without [None]: every node has a subnode, and every subnode is a
    node of that kind or an output. *)
Inductive no_None : tree -> Prop :=
  | no_None_leaf o : no_None (TLeaf o)
  | no_None_node name pairs :
      pairs <> [] ->
      (forall v subnode, (v, subnode) ∈ pairs -> no_None subnode) ->
      no_None (TNode name pairs).

(** The exemplars of a partition all have the same output. *)
Definition pure_outputs (partition : list exemplar) : Prop :=
  forall e e', e ∈ partition -> e' ∈ partition -> e.2 = e'.2.

End ID3.

(** ** Instances of the floats *)

(** Exact scores.  A Python float is a rounded real number; this instance
    keeps the real number, a score [x] being stored as the rational [2^x]:
    [log2 q] is stored as [q], a product [n * x] as the [n]th power, a
    difference as a quotient, and the order is that of the rationals. *)
Definition exact_float : Float := {|
  ratio := Q;
  score := Q;
  Fzero := 1%Q;
  Fdiv := fun a b => Qred (inject_Z (Z.of_nat a) / inject_Z (Z.of_nat b))%Q;
  Flog2 := fun q => q;
  Fmul := fun n x => Qred (Qpower x (Z.of_nat n));
  Fsub := fun x y => Qred (x / y)%Q;
  Fltb := fun x y => (Qnum x * Zpos (Qden y) <? Qnum y * Zpos (Qden x))%Z
|}.

(** [math.log2] on the real numbers. *)
Definition Rlog2 (x : R) : R := (ln x / ln 2)%R.

(** The real numbers: an arithmetic without rounding.  It is not the
    arithmetic of Python, whose results are rounded; it is an arithmetic
    that has the laws [FloatOrder] and [FloatLaws], which shows that the
    laws hold together. *)
Definition real_float : Float := {|
  ratio := R;
  score := R;
  Fzero := 0%R;
  Fdiv := fun a b => (INR a / INR b)%R;
  Flog2 := Rlog2;
  Fmul := fun n x => (INR n * x)%R;
  Fsub := Rminus;
  Fltb := fun x y => if Rlt_dec x y then true else false
|}.

Definition real_float_sum : FloatSum real_float :=
  @Build_FloatSum real_float Rplus (fun c x => (- INR c * x)%R).

(** ** The score in the words of the specification *)

Section SpecScore.

Context {Attr Value Output : Type}.
Context `{EqDecision Attr, EqDecision Value, EqDecision Output}.
Context {value_sets : PySet Value} {output_sets : PySet Output}.
Context {FL : Float} {FS : FloatSum FL}.

(** The sum of floats, from 0, in the order of the list. *)
Definition Fsum (terms : list score) : score := fold_left Fadd terms Fzero.

(** For every output value occurring in a group,
    [-count * log2(count / group_size)]. *)
Definition group_terms (outputs : list Output) : list score :=
  (fun output =>
     Fnegmul (count outputs output)
       (Flog2 (Fdiv (count outputs output) (length outputs))))
    <$> set_iter outputs.

(** The value-group of [attr_value]: the exemplars having that value. *)
Definition value_group (attr : Attr) (attr_value : Value)
    (exemplars : list (@exemplar Attr Value Output))
  : list (@exemplar Attr Value Output) :=
  filter (fun e => lookup_item attr (e.1) = Some attr_value) exemplars.

(** The values of [attr] observed in the exemplars. *)
Definition observed_values (attr : Attr)
    (exemplars : list (@exemplar Attr Value Output)) : list Value :=
  omap (fun e => lookup_item attr (e.1)) exemplars.

(** The terms of all outputs in all value-groups of the candidate
    attribute. *)
Definition spec_terms (attr : Attr)
    (exemplars : list (@exemplar Attr Value Output)) : list score :=
  mjoin ((fun attr_value =>
            group_terms ((value_group attr attr_value exemplars).*2))
           <$> set_iter (observed_values attr exemplars)).

(** Their sum. *)
Definition spec_score (attr : Attr)
    (exemplars : list (@exemplar Attr Value Output)) : score :=
  Fsum (spec_terms attr exemplars).

End SpecScore.

(** ** Printing *)

(** [str(x)], for the names, the values and the outputs. *)
Class PyStr (A : Type) : Type := py_str : A -> string.

(** The string of the newline character. *)
Definition newline : string := String (Ascii.ascii_of_nat 10) EmptyString.

(** [s[:-1]] *)
Definition but_last (s : string) : string :=
  String.substring 0 (String.length s - 1) s.

Section Printing.

Context {Attr Value Output : Type}.
Context {attr_str : PyStr Attr} {value_str : PyStr Value}
        {output_str : PyStr Output}.

(** [tree_str], the function nested in [ID3DecisionTree.__str__]; the
    prefix of the top call is the empty string. *)
Fixpoint tree_str (node : @tree Attr Value Output) (prefix : string) : string :=
  match node with
  | TNode name value_subnode_pairs =>
      let s := prefix +:+ py_str name +:+ ":" +:+ newline in
      fold_left
        (fun s '(value, subnode) =>
           let s := s +:+ (prefix +:+ py_str value) in
           let s := match subnode with
                    | TNode _ _ => s +:+ newline
                    | _ => s +:+ " "
                    end in
           s +:+ tree_str subnode (prefix +:+ "  "))
        value_subnode_pairs s
  | TLeaf o => "-> " +:+ py_str o +:+ newline
  | TNone => "-> None" +:+ newline
  end.

(** [ID3DecisionTree.__str__]; [object_str] is what [object.__str__(self)]
    returns, a text with the address of the tree. *)
Definition ID3DecisionTree_str (object_str : string)
    (root_node : @tree Attr Value Output) : string :=
  object_str +:+ ":" +:+ newline +:+ but_last (tree_str root_node "").

(** The lines of the text of a tree: the name of a node, then for each pair
    the value, followed on the same line by the output when the subnode is
    a leaf, and on the next lines by the text of the subnode, two spaces
    further in, when it is a node. *)
Fixpoint tree_lines (node : @tree Attr Value Output) (prefix : string)
  : list string :=
  match node with
  | TNode name value_subnode_pairs =>
      (prefix +:+ py_str name +:+ ":") ::
      mjoin ((fun p : Value * tree =>
                match p.2 with
                | TNode _ _ =>
                    (prefix +:+ py_str (p.1)) :: tree_lines (p.2) (prefix +:+ "  ")
                | TLeaf o => [prefix +:+ py_str (p.1) +:+ " -> " +:+ py_str o]
                | TNone => [prefix +:+ py_str (p.1) +:+ " -> None"]
                end) <$> value_subnode_pairs)
  | TLeaf o => ["-> " +:+ py_str o]
  | TNone => ["-> None"]
  end.

(** Every line followed by a newline. *)
Definition unlines (lines : list string) : string :=
  fold_right (fun line s => line +:+ newline +:+ s) "" lines.

End Printing.

(** * The builder and the inverse query over a store of mutable objects *)

(** [id3_helper] once more, with the objects that a caller can share with
    it kept in a store: an object has a location, a name can only hold a
    location, and [d.pop(k)] or [l.append(x)] change the object that every
    holder of the location sees.  The objects of the store are the dicts of
    inputs and the sequences of exemplars; an exemplar is a tuple, which
    cannot be changed, and the sets, the dicts [partitions] and [best_attr]
    and the nodes of the tree are made by [id3_helper] itself and handed to
    nobody before it returns, so they stay values.  [id3_st_refines] shows
    that this builder returns what the builder on values returns. *)

(** A location in the store. *)
Abbreviation loc := nat (only parsing).

Section Store.

Context {Attr Value Output : Type}.
Context `{EqDecision Attr, EqDecision Value, EqDecision Output}.
Context {value_sets : PySet Value} {output_sets : PySet Output}.
Context {FL : Float}.


(** A dict of inputs, or a sequence of exemplars; an exemplar is the tuple
    of the location of its inputs and its output. *)
Inductive object : Type :=
  | ODict (items : @dict Attr Value)
  | OList (items : list (loc * Output)).

(** The store: the object at location [l] is the [l]th of the list. *)
#[local] Abbreviation store := (list object).

(** A computation: from a store to an outcome and the store it leaves. *)
Definition St (A : Type) : Type := store -> result A * store.

Definition ret {A : Type} (a : A) : St A := fun h => (Ok a, h).

(** An outcome that does not depend on the store. *)
Definition lift {A : Type} (r : result A) : St A := fun h => (r, h).

Definition bind_st {A B : Type} (m : St A) (k : A -> St B) : St B :=
  fun h =>
    match m h with
    | (Ok a, h') => k a h'
    | (KeyError, h') => (KeyError, h')
    | (IndexError, h') => (IndexError, h')
    | (TypeError, h') => (TypeError, h')
    | (OutOfFuel, h') => (OutOfFuel, h')
    end.

Notation "'let@' x := m 'in' k" := (bind_st m (fun x => k))
  (at level 10, x pattern, m at level 200, k at level 200).

Fixpoint for_each_st {A S : Type} (body : S -> A -> St S) (l : list A) (s : S)
  : St S :=
  match l with
  | [] => ret s
  | x :: l' => let@ s' := body s x in for_each_st body l' s'
  end.

Fixpoint comprehension_st {A B : Type} (f : A -> St B) (l : list A)
  : St (list B) :=
  match l with
  | [] => ret []
  | x :: l' =>
      let@ y := f x in let@ ys := comprehension_st f l' in ret (y :: ys)
  end.

(** Reading the object at a location as a dict, or as a list. *)
Definition read_dict (l : loc) : St (@dict Attr Value) :=
  fun h =>
    match h !! l with
    | Some (ODict d) => (Ok d, h)
    | _ => (TypeError, h)
    end.

Definition read_list (l : loc) : St (list (loc * Output)) :=
  fun h =>
    match h !! l with
    | Some (OList es) => (Ok es, h)
    | _ => (TypeError, h)
    end.

(** A new object, at a location that was not in use. *)
Definition alloc (o : object) : St loc := fun h => (Ok (length h), h ++ [o]).

(** The object at a location replaced. *)
Definition write (l : loc) (o : object) : St unit :=
  fun h => (Ok tt, <[l := o]> h).

(** [dict(inputs)] *)
Definition dict_copy (inputs : loc) : St loc :=
  let@ d := read_dict inputs in alloc (ODict d).

(** [inputs[attr]] *)
Definition dict_getitem (inputs : loc) (attr : Attr) : St Value :=
  let@ d := read_dict inputs in lift (getitem d attr).

(** [inputs.pop(attr)] *)
Definition dict_pop (inputs : loc) (attr : Attr) : St Value :=
  let@ d := read_dict inputs in
  let@ (v, d') := lift (pop attr d) in
  let@ _ := write inputs (ODict d') in
  ret v.

(** [l.append(x)] *)
Definition list_append (l : loc) (x : loc * Output) : St unit :=
  let@ es := read_list l in write l (OList (es ++ [x])).

(** The two loops that compute the flag [inputs_all_same]; once the flag is
    cleared nothing more is compared. *)
Definition inputs_all_same_st (exemplars : list (loc * Output)) : St bool :=
  for_each_st
    (fun (same : bool) '(inputs0, _) =>
       if same then
         for_each_st
           (fun (same : bool) '(inputs1, _) =>
              if same then
                let@ d0 := read_dict inputs0 in
                let@ d1 := read_dict inputs1 in
                ret (dict_eqb d0 d1)
              else ret false)
           exemplars true
       else ret false)
    exemplars true.

(** The dict [partitions]: attribute value to the location of a list. *)
Definition partitions_st : Type := list (Value * loc).

(** [partitions[attr_value]] *)
Fixpoint partitions_getitem (partitions : partitions_st) (attr_value : Value)
  : result loc :=
  match partitions with
  | [] => KeyError
  | (v, l) :: rest =>
      if decide (attr_value = v) then Ok l
      else partitions_getitem rest attr_value
  end.

(** The partitioning of the exemplars on [attr]. *)
Definition partition_on_st (attr : Attr) (exemplars : list (loc * Output))
  : St partitions_st :=
  let@ values := comprehension_st
                   (fun '(inputs, _) => dict_getitem inputs attr) exemplars in
  let attr_values := set_iter values in
  let@ partitions := comprehension_st
                       (fun attr_value =>
                          let@ l := alloc (OList []) in ret (attr_value, l))
                       attr_values in
  let@ _ := for_each_st
              (fun _ '(inputs, output) =>
                 let@ inputs := dict_copy inputs in
                 let@ attr_value := dict_pop inputs attr in
                 let@ l := lift (partitions_getitem partitions attr_value) in
                 list_append l (inputs, output))
              exemplars tt in
  ret partitions.

(** The loop that computes [attr_entropy]. *)
Definition attr_entropy_st (partitions : partitions_st) : St score :=
  for_each_st
    (fun attr_entropy '(_, l) =>
       let@ partition := read_list l in
       let outputs := partition.*2 in
       ret (outputs_entropy attr_entropy outputs))
    partitions Fzero.

(** The dict [best_attr]. *)
Record best_attr_st : Type := BestAttrSt {
  attr_st : Attr;
  entropy_st : score;
  partitions_of_st : partitions_st
}.

(** One turn of the loop over the attribute names. *)
Definition consider_st (exemplars : list (loc * Output))
    (best_attr : option best_attr_st) (attr : Attr)
  : St (option best_attr_st) :=
  let@ partitions := partition_on_st attr exemplars in
  let@ attr_entropy := attr_entropy_st partitions in
  match best_attr with
  | None => ret (Some (BestAttrSt attr attr_entropy partitions))
  | Some best =>
      if Fltb attr_entropy (entropy_st best)
      then ret (Some (BestAttrSt attr attr_entropy partitions))
      else ret best_attr
  end.

(** The block "find the best attribute". *)
Definition find_best_attr_st (exemplars : list (loc * Output))
  : St (option best_attr_st) :=
  let@ exemplar0 := lift (first exemplars) in
  let@ inputs0 := read_dict (exemplar0.1) in
  for_each_st (consider_st exemplars) (keys inputs0) None.

(** [id3_helper] on the sequence at the location [exemplars]. *)
Fixpoint id3_helper_st (fuel : nat) (exemplars : loc)
  : St (@tree Attr Value Output) :=
  match fuel with
  | 0 => lift OutOfFuel
  | S fuel =>
      let@ exemplars := read_list exemplars in
      let output_set := set_iter (exemplars.*2) in
      if decide (length output_set = 0) then ret TNone
      else if decide (length output_set = 1) then
        let@ exemplar0 := lift (first exemplars) in ret (TLeaf (exemplar0.2))
      else
        let@ inputs_all_same := inputs_all_same_st exemplars in
        if inputs_all_same then ret (most_common_output (exemplars.*2))
        else
          let@ best_attr := find_best_attr_st exemplars in
          match best_attr with
          | None => lift TypeError
          | Some best =>
              let@ value_subnode_pairs :=
                for_each_st
                  (fun value_subnode_pairs '(attr_value, partition) =>
                     let@ subnode := id3_helper_st fuel partition in
                     ret (value_subnode_pairs ++ [(attr_value, subnode)]))
                  (partitions_of_st best) [] in
              ret (TNode (attr_st best) value_subnode_pairs)
          end
  end.

(** The exemplars that a sequence in the store stands for, when every
    location in it holds a dict. *)
Fixpoint exemplars_at (h : store) (es : list (loc * Output))
  : option (list (@exemplar Attr Value Output)) :=
  match es with
  | [] => Some []
  | (l, output) :: rest =>
      match h !! l, exemplars_at h rest with
      | Some (ODict d), Some exemplars => Some ((d, output) :: exemplars)
      | _, _ => None
      end
  end.

(** [id3] on the sequence at the location [exemplars], with the budget
    that [id3] takes. *)
Definition id3_st (exemplars : loc) : St (@tree Attr Value Output) :=
  fun h =>
    let budget :=
      match h !! exemplars with
      | Some (OList es) =>
          match exemplars_at h es with
          | Some exemplars => max_keys exemplars
          | None => 0
          end
      | _ => 0
      end in
    id3_helper_st (S budget) exemplars h.

(** The store [h'] has the objects of [h], unchanged, and new ones. *)
Definition extends_store (h h' : store) : Prop := exists fresh, h' = h ++ fresh.

(** The partitions in the store and the partitions as values: the same
    attribute values in the same order, each list at a location of its own
    and standing for the exemplars of the partition. *)
Definition partitions_at (h : store) (partitions : partitions_st)
    (partitions' : @partitions_t Attr Value Output) : Prop :=
  NoDup (partitions.*2) /\
  Forall2 (fun (p : Value * loc) (p' : Value * list (@exemplar Attr Value Output)) =>
             p.1 = p'.1 /\
             exists es, h !! (p.2) = Some (OList es) /\
                        exemplars_at h es = Some (p'.2))
    partitions partitions'.

(** The dict [best_attr] in the store and as a value. *)
Definition best_attr_at (h : store) (best_attr : option best_attr_st)
    (best_attr' : option (@best_attr_t Attr Value Output FL)) : Prop :=
  match best_attr, best_attr' with
  | None, None => True
  | Some best, Some best' =>
      attr_st best = attr best' /\
      entropy_st best = entropy best' /\
      partitions_at h (partitions_of_st best) (partitions best')
  | _, _ => False
  end.

(** Two outcomes of the same kind, with values related by [R]. *)
Definition same_outcome {A B : Type} (R : A -> B -> Prop)
    (r : result A) (r' : result B) : Prop :=
  match r, r' with
  | Ok a, Ok b => R a b
  | KeyError, KeyError => True
  | IndexError, IndexError => True
  | TypeError, TypeError => True
  | OutOfFuel, OutOfFuel => True
  | _, _ => False
  end.

(** The computation [m], run on the store [h], has the outcome [r], up to
    the relation [R] between the values on the store that [m] leaves. *)
Definition refines {A B : Type} (m : St A) (h : store) (r : result B)
    (R : store -> A -> B -> Prop) : Prop :=
  same_outcome (R ((m h).2)) ((m h).1) r.

(** Run on a store of at least [n] objects, [m] leaves the first [n]
    objects as they are and removes none, and a value it returns is in [Q]. *)
Definition keeps {A : Type} (n : nat) (m : St A) (Q : A -> Prop) : Prop :=
  forall h, n <= length h ->
    take n ((m h).2) = take n h /\
    length h <= length ((m h).2) /\
    forall a, (m h).1 = Ok a -> Q a.

(** ** The inverse query over the store *)

(** [get_inputs] writes into the dict [input] at every turn of its loop and
    hands copies of it on; here [input] is a location, and so are the
    elements of the list [inputs].  The list is one object that every call
    appends to and returns; it is passed from call to call. *)

(** [input[k] = v] *)
Definition dict_setitem (input : loc) (k : Attr) (v : Value)
  : St unit :=
  let@ d := read_dict input in write input (ODict (setitem k v d)).

(** [get_inputs] *)
Fixpoint get_inputs_st (node : @tree Attr Value Output) (output : Output)
    (input : loc) (inputs : list loc)
  : St (list loc) :=
  match node with
  | TNode name value_subnode_pairs =>
      (fix loop (pairs : list (Value * tree)) (inputs : list loc)
         : St (list loc) :=
         match pairs with
         | [] => ret inputs
         | (value, subnode) :: rest =>
             let@ _ := dict_setitem input name value in
             let@ inputs :=
               match subnode with
               | TNode _ _ =>
                   let@ copy := dict_copy input in
                   get_inputs_st subnode output copy inputs
               | TLeaf o =>
                   if decide (o = output) then
                     let@ copy := dict_copy input in ret (inputs ++ [copy])
                   else ret inputs
               | TNone => ret inputs
               end in
             loop rest inputs
         end) value_subnode_pairs inputs
  | _ => ret inputs
  end.

(** [get_inputs_for_output]: the defaults of [input] and [inputs] are made
    when [get_inputs] is defined, that is once in every call of
    [get_inputs_for_output]. *)
Definition get_inputs_for_output_st (root_node : @tree Attr Value Output)
    (output : Output)
  : St (list loc) :=
  match root_node with
  | TNode _ _ =>
      let@ input := alloc (ODict []) in
      get_inputs_st root_node output input []
  | _ => ret []
  end.

(** The loop of [get_inputs_st] over the pairs of a node named [name]. *)
Fixpoint get_inputs_pairs_st (name : Attr) (output : Output) (input : loc)
    (pairs : list (Value * @tree Attr Value Output)) (inputs : list loc)
  : St (list loc) :=
  match pairs with
  | [] => ret inputs
  | (value, subnode) :: rest =>
      let@ _ := dict_setitem input name value in
      let@ inputs :=
        match subnode with
        | TNode _ _ =>
            let@ copy := dict_copy input in
            get_inputs_st subnode output copy inputs
        | TLeaf o =>
            if decide (o = output) then
              let@ copy := dict_copy input in ret (inputs ++ [copy])
            else ret inputs
        | TNone => ret inputs
        end in
      get_inputs_pairs_st name output input rest inputs
  end.

(** The dicts at the locations of a list. *)
Definition dicts_at (h : store) (locs : list loc)
    (dicts : list (@dict Attr Value)) : Prop :=
  Forall2 (fun l d => h !! l = Some (ODict d)) locs dicts.

(** A run on the store [h] of a computation [m] that appends to the list
    [locs] and writes into no object of [h] but the one at [scratch]: it
    returns [locs] followed by locations that were not in use, no two of
    them the same; at the locations of the list it returns are the dicts
    [dicts]; and the objects of [h], the one at [scratch] apart, are as they
    were. *)
Definition appends_copies
    (m : St (list loc))
    (h : store) (scratch : loc) (locs : list loc)
    (dicts : list (@dict Attr Value)) : Prop :=
  exists new h',
    m h = (Ok (locs ++ new), h') /\
    dicts_at h' (locs ++ new) dicts /\
    length h <= length h' /\
    (forall l, l < length h -> l <> scratch -> h' !! l = h !! l) /\
    NoDup new /\
    (forall l, l ∈ new -> length h <= l).

End Store.

Abbreviation store := (list object).

Module Example.

#[local] Existing Instance exact_float.

(** The exemplars of the docstring of [id3]. *)
Definition or_exemplars : list (list (string * nat) * nat) :=
  [ ([("x1", 0); ("x2", 0)], 0);
    ([("x1", 0); ("x2", 1)], 1);
    ([("x1", 1); ("x2", 0)], 1);
    ([("x1", 1); ("x2", 1)], 1) ].

Definition or_tree : tree (Attr:=string) (Value:=nat) (Output:=nat) :=
  TNode "x1" [ (0, TNode "x2" [(0, TLeaf 0); (1, TLeaf 1)]); (1, TLeaf 1) ].

(** Three exemplars with the same inputs and two outputs. *)
Definition vote_exemplars : list (list (string * nat) * nat) :=
  [ ([("a", 1)], 1); ([("a", 1)], 0); ([("a", 1)], 0) ].

(** The exemplars of the docstring as objects of a store: four dicts, and at
    location 4 the sequence of the exemplars. *)
Definition or_store : list (object (Attr:=string) (Value:=nat) (Output:=nat)) :=
  [ ODict [("x1", 0); ("x2", 0)]; ODict [("x1", 0); ("x2", 1)];
    ODict [("x1", 1); ("x2", 0)]; ODict [("x1", 1); ("x2", 1)];
    OList [(0, 0); (1, 1); (2, 1); (3, 1)] ].

(** Two exemplars with different [inputs] and one output. *)
Definition one_output_exemplars : list (list (string * nat) * nat) :=
  [ ([("a", 1)], 7); ([("b", 2)], 7) ].

(** The first exemplar has no inputs. *)
Definition keyless_exemplars : list (list (string * nat) * nat) :=
  [ ([], 0); ([("a", 1)], 1) ].

(** The second exemplar lacks a key of the first. *)
Definition different_keys_exemplars : list (list (string * nat) * nat) :=
  [ ([("a", 1); ("b", 1)], 5); ([("b", 2)], 6) ].

(** The attribute [a] tells the outputs apart. *)
Definition split_exemplars : list (list (string * nat) * nat) :=
  [ ([("a", 0)], 0); ([("a", 1)], 1); ([("a", 1)], 1) ].

(** Their partitions on [a]. *)
Definition split_partitions : list (nat * list (list (string * nat) * nat)) :=
  [ (0, [([], 0)]); (1, [([], 1); ([], 1)]) ].

End Example.

(** * Properties *)

Section Properties.

Context {Attr Value Output : Type}.
Context `{EqDecision Attr, EqDecision Value, EqDecision Output}.
Context {value_sets : PySet Value} {output_sets : PySet Output}.
Context {FL : Float}.

Abbreviation dict := (@dict Attr Value).
Abbreviation exemplar := (@exemplar Attr Value Output).
Abbreviation tree := (@tree Attr Value Output).
Abbreviation best_attr_t := (@best_attr_t Attr Value Output FL).
Abbreviation partitions_t := (@partitions_t Attr Value Output).

(** ** Outcomes *)

Lemma bind_Ok {A B : Type} (m : result A) (k : A -> result B) (b : B) :
  bind m k = Ok b <-> exists a, m = Ok a /\ k a = Ok b.
Proof.
  destruct m; simpl; split; try (intros [a' [? ?]]); try discriminate; eauto.
  by simplify_eq.
Qed.

Lemma comprehension_Ok {A B : Type} (f : A -> result B) (l : list A) (ys : list B) :
  comprehension f l = Ok ys <-> Forall2 (fun x y => f x = Ok y) l ys.
Proof.
  revert ys. induction l as [|x l IH]; intros ys; simpl.
  - split; [intros [= <-]; constructor | by inversion 1].
  - rewrite bind_Ok. split.
    + intros (y & Hy & Hrest). apply bind_Ok in Hrest as (ys' & Hys' & [= <-]).
      constructor; [done | by apply IH].
    + inversion 1 as [|? y ? ys' Hy Hys']; subst. exists y. split; [done|].
      apply IH in Hys'. by rewrite Hys'.
Qed.

Lemma forallb_elem {A : Type} (f : A -> bool) (l : list A) :
  forallb f l = true <-> forall x, x ∈ l -> f x = true.
Proof.
  rewrite forallb_forall. by setoid_rewrite list_elem_of_In.
Qed.

Lemma comprehension_cases {A B : Type} (f : A -> result B) (l : list A) :
  (forall x, (exists y, f x = Ok y) \/ f x = KeyError) ->
  (exists ys, comprehension f l = Ok ys) \/ comprehension f l = KeyError.
Proof.
  intros Hf. induction l as [|x l IH]; simpl; [eauto|].
  destruct (Hf x) as [[y ->]| ->]; simpl; [|auto].
  destruct IH as [[ys ->]| ->]; simpl; eauto.
Qed.

Lemma fmap_fst_pair {A B : Type} (f : A -> B) (l : list A) :
  ((fun x => (x, f x)) <$> l).*1 = l.
Proof. induction l as [|x l IH]; csimpl; [done|]. by rewrite IH. Qed.

(** ** Sets *)

Lemma set_iter_nil {A : Type} `{PySet A} : set_iter (A:=A) [] = [].
Proof.
  apply elem_of_nil_inv. intros x Hx. apply (proj1 (set_iter_elem _ _)) in Hx.
  by apply elem_of_nil in Hx.
Qed.

Lemma set_iter_length_0 {A : Type} `{PySet A} (l : list A) :
  length (set_iter l) = 0 <-> l = [].
Proof.
  split; [|intros ->; by rewrite set_iter_nil].
  intros Hnil%nil_length_inv. destruct l as [|x l]; [done|].
  assert (Hx : x ∈ set_iter (x :: l)) by (apply set_iter_elem; left).
  rewrite Hnil in Hx. by apply elem_of_nil in Hx.
Qed.

Lemma set_iter_length_1 {A : Type} `{PySet A} (l : list A) :
  length (set_iter l) = 1 -> exists x, forall y, y ∈ l <-> y = x.
Proof.
  destruct (set_iter l) as [|x [|? ?]] eqn:Hs; try done. intros _.
  exists x. intros y. rewrite <- set_iter_elem, Hs. apply list_elem_of_singleton.
Qed.

(** ** Dictionaries *)

Lemma lookup_item_None (k : Attr) (d : dict) :
  lookup_item k d = None <-> k ∉ keys d.
Proof.
  unfold keys. induction d as [|[k' v] d IH]; simpl.
  - split; [intros _; apply not_elem_of_nil | done].
  - rewrite not_elem_of_cons. destruct (decide (k = k')); [|tauto].
    split; [done | tauto].
Qed.

Lemma lookup_item_Some_elem (k : Attr) (v : Value) (d : dict) :
  lookup_item k d = Some v -> (k, v) ∈ d.
Proof.
  induction d as [|[k' v'] d IH]; simpl; [done|].
  destruct (decide (k = k')) as [->|]; [intros [= ->]; left | right; auto].
Qed.

Lemma lookup_item_is_Some (k : Attr) (d : dict) :
  is_Some (lookup_item k d) <-> k ∈ keys d.
Proof.
  rewrite <- not_eq_None_Some, lookup_item_None.
  split; [apply dec_stable | auto].
Qed.

Lemma lookup_item_wf (k : Attr) (v : Value) (d : dict) :
  dict_wf d -> (k, v) ∈ d -> lookup_item k d = Some v.
Proof.
  unfold dict_wf, keys. induction d as [|[k' v'] d IH]; simpl.
  - intros _ Hin. by apply elem_of_nil in Hin.
  - rewrite NoDup_cons. intros [Hk' Hd] Hin.
    apply elem_of_cons in Hin as [[= -> ->]|Hin].
    + by rewrite decide_True.
    + rewrite decide_False; [auto|]. intros ->. apply Hk'.
      apply list_elem_of_fmap. by exists (k', v).
Qed.

Lemma getitem_Ok (d : dict) (k : Attr) (v : Value) :
  getitem d k = Ok v <-> lookup_item k d = Some v.
Proof. unfold getitem. destruct (lookup_item k d); split; congruence. Qed.

Lemma getitem_KeyError (d : dict) (k : Attr) :
  getitem d k = KeyError <-> lookup_item k d = None.
Proof. unfold getitem. destruct (lookup_item k d); split; congruence. Qed.

Lemma getitem_cases (d : dict) (k : Attr) :
  (exists v, getitem d k = Ok v) \/ getitem d k = KeyError.
Proof. unfold getitem. destruct (lookup_item k d); eauto. Qed.

Lemma pop_Ok (k : Attr) (d d' : dict) (v : Value) :
  pop k d = Ok (v, d') ->
  lookup_item k d = Some v /\ keys d ≡ₚ k :: keys d' /\
  (forall k', k' <> k -> lookup_item k' d' = lookup_item k' d).
Proof.
  revert d'. induction d as [|[k0 v0] d IH]; intros d'; simpl; [done|].
  destruct (decide (k = k0)) as [->|Hne].
  - intros [= -> ->]. split_and!; [done..|].
    intros k' Hk'. by rewrite decide_False.
  - rewrite bind_Ok. intros ([w d''] & Hpop & [= -> <-]).
    destruct (IH _ Hpop) as (Hl & Hp & Ho). split_and!; [done| |].
    + simpl. rewrite Hp. apply Permutation_swap.
    + intros k' Hk'. simpl. destruct (decide (k' = k0)); auto.
Qed.

Lemma pop_lookup (k : Attr) (d : dict) (v : Value) :
  lookup_item k d = Some v -> exists d', pop k d = Ok (v, d').
Proof.
  induction d as [|[k0 v0] d IH]; simpl; [done|].
  destruct (decide (k = k0)) as [->|Hne]; [intros [= ->]; eauto|].
  intros Hl. destruct (IH Hl) as [d' ->]. simpl. eauto.
Qed.

Lemma pop_KeyError (k : Attr) (d : dict) :
  lookup_item k d = None -> pop k d = KeyError.
Proof.
  induction d as [|[k0 v0] d IH]; simpl; [done|].
  destruct (decide (k = k0)); [done|]. intros Hl. by rewrite IH.
Qed.

Lemma pop_length (k : Attr) (d d' : dict) (v : Value) :
  pop k d = Ok (v, d') -> length d = S (length d').
Proof.
  intros (_ & Hp & _)%pop_Ok. apply Permutation_length in Hp.
  unfold keys in Hp. simpl in Hp. by rewrite !length_fmap in Hp.
Qed.

Lemma pop_wf (k : Attr) (d d' : dict) (v : Value) :
  dict_wf d -> pop k d = Ok (v, d') -> dict_wf d' /\ k ∉ keys d'.
Proof.
  unfold dict_wf. intros Hwf (_ & Hp & _)%pop_Ok.
  rewrite Hp in Hwf. apply NoDup_cons in Hwf. tauto.
Qed.

Lemma dict_eqb_true (d1 d2 : dict) :
  dict_wf d1 -> dict_wf d2 ->
  dict_eqb d1 d2 = true <-> forall k, lookup_item k d1 = lookup_item k d2.
Proof.
  intros Hwf1 Hwf2. unfold dict_eqb.
  rewrite andb_true_iff, bool_decide_eq_true, forallb_elem.
  split.
  - intros [Hlen Hall].
    assert (Hsub : keys d1 ⊆ keys d2).
    { intros k [[k' v] [-> Hin]]%list_elem_of_fmap.
      apply lookup_item_is_Some. exists v.
      specialize (Hall _ Hin). by apply bool_decide_eq_true in Hall. }
    assert (Hperm : keys d1 ≡ₚ keys d2).
    { apply submseteq_length_Permutation.
      - by apply NoDup_submseteq.
      - unfold keys. rewrite !length_fmap. lia. }
    intros k. destruct (lookup_item k d1) as [v|] eqn:Hl.
    + apply lookup_item_Some_elem in Hl. specialize (Hall _ Hl).
      by apply bool_decide_eq_true in Hall.
    + symmetry. apply lookup_item_None. rewrite <- Hperm.
      by apply lookup_item_None.
  - intros Heq. split.
    + assert (Hperm : keys d1 ≡ₚ keys d2).
      { apply NoDup_Permutation; [done..|]. intros k.
        by rewrite <- !lookup_item_is_Some, Heq. }
      apply Permutation_length in Hperm. unfold keys in Hperm.
      by rewrite !length_fmap in Hperm.
    + intros [k v] Hin. apply bool_decide_eq_true. rewrite <- Heq.
      by apply lookup_item_wf.
Qed.

(** ** Traversal *)

(** One turn of the loop:
    [node = node.get_subnode_for_input(inputs[node.name])]. *)
Lemma call_node (name : Attr) (value_subnode_pairs : list (Value * tree))
    (inputs : dict) :
  call (TNode name value_subnode_pairs) inputs =
  let* input := getitem inputs name in
  call (get_subnode_for_input value_subnode_pairs input) inputs.
Proof.
  simpl. destruct (getitem inputs name) as [input| | | |]; simpl; try done.
  induction value_subnode_pairs as [|[v sub] rest IH]; simpl; [done|].
  by destruct (decide (input = v)).
Qed.


(** Induction on trees, with the hypothesis for every subnode of a node. *)
Lemma tree_induction (P : tree -> Prop) :
  P TNone ->
  (forall o, P (TLeaf o)) ->
  (forall name pairs, Forall (fun p => P (p.2)) pairs -> P (TNode name pairs)) ->
  forall t, P t.
Proof.
  intros HN HL HT. fix IH 1. intros [|o|name pairs]; [done..|].
  apply HT. induction pairs as [|[v sub] pairs IHp]; constructor; [apply IH | done].
Qed.

Lemma get_subnode_missing (pairs : list (Value * tree)) (input : Value) :
  input ∉ pairs.*1 -> get_subnode_for_input pairs input = TNone.
Proof.
  induction pairs as [|[v sub] pairs IH]; simpl; [done|].
  rewrite not_elem_of_cons. intros [Hne Hnin]. rewrite decide_False; auto.
Qed.

Lemma get_subnode_elem (pairs : list (Value * tree)) (input : Value) :
  input ∈ pairs.*1 -> (input, get_subnode_for_input pairs input) ∈ pairs.
Proof.
  induction pairs as [|[v sub] pairs IH]; simpl.
  - by intros ?%elem_of_nil.
  - intros Hin. destruct (decide (input = v)) as [->|Hne]; [left|].
    right. apply IH. by apply elem_of_cons in Hin as [?|?].
Qed.

Lemma get_subnode_cases (pairs : list (Value * tree)) (input : Value) :
  get_subnode_for_input pairs input = TNone \/
  (input, get_subnode_for_input pairs input) ∈ pairs.
Proof.
  destruct (decide (input ∈ pairs.*1)).
  - right. by apply get_subnode_elem.
  - left. by apply get_subnode_missing.
Qed.

Lemma get_subnode_NoDup (pairs : list (Value * tree)) (input : Value) (sub : tree) :
  NoDup (pairs.*1) -> (input, sub) ∈ pairs ->
  get_subnode_for_input pairs input = sub.
Proof.
  induction pairs as [|[v s] pairs IH]; simpl.
  - by intros _ ?%elem_of_nil.
  - rewrite NoDup_cons. intros [Hv Hnd] Hin.
    apply elem_of_cons in Hin as [[= -> ->]|Hin].
    + by rewrite decide_True.
    + rewrite decide_False; [auto|]. intros ->. apply Hv.
      apply list_elem_of_fmap. by exists (v, sub).
Qed.

(** [__call__] raises nothing but [KeyError]. *)
Lemma call_cases (root_node : tree) (inputs : dict) :
  (exists r, call root_node inputs = Ok r) \/ call root_node inputs = KeyError.
Proof.
  induction root_node as [|o|name pairs IH] using tree_induction; simpl; eauto.
  fold (get_subnode_for_input pairs). change (?f = ?x) with (f = x).
  pose proof (call_node name pairs inputs) as Heq. simpl in Heq. rewrite Heq.
  destruct (getitem_cases inputs name) as [[v ->]| ->]; simpl; [|auto].
  destruct (get_subnode_cases pairs v) as [->|Hin]; [simpl; eauto|].
  rewrite Forall_forall in IH. apply (IH _ Hin).
Qed.

Lemma visits_trans (inputs : dict) (a b c : tree) :
  visits inputs a b -> visits inputs b c -> visits inputs a c.
Proof.
  intros Hab Hbc. induction Hbc; [done|]. by eapply visits_next.
Qed.

(** The result of the traversal is that of the rest of the traversal from
    any node it visits. *)
Lemma call_visits (inputs : dict) (root_node node : tree) :
  visits inputs root_node node -> call root_node inputs = call node inputs.
Proof.
  induction 1 as [|name pairs input _ IH Hin]; [done|].
  rewrite IH, call_node. apply getitem_Ok in Hin. by rewrite Hin.
Qed.

Lemma call_KeyError_visits (inputs : dict) (root_node : tree) :
  call root_node inputs = KeyError ->
  exists name pairs,
    visits inputs root_node (TNode name pairs) /\ lookup_item name inputs = None.
Proof.
  induction root_node as [|o|name pairs IH] using tree_induction; [done..|].
  rewrite call_node.
  destruct (getitem_cases inputs name) as [[v Hv]|Hk]; rewrite ?Hv, ?Hk; simpl.
  - destruct (get_subnode_cases pairs v) as [->|Hin]; [done|].
    rewrite Forall_forall in IH. intros (n & ps & Hvis & Hnone)%(IH _ Hin).
    exists n, ps. split; [|done].
    eapply visits_trans; [|exact Hvis].
    eapply visits_next; [constructor|]. by apply getitem_Ok.
  - intros _. exists name, pairs. split; [constructor|].
    by apply getitem_KeyError.
Qed.

(** C8. A call of the tree raises [KeyError] exactly when the inputs lack the
    name of a node that the traversal visits; when the inputs have the name
    of every visited node, the call returns a value and raises nothing. *)
Theorem call_raises_iff_visited_name_missing (root_node : tree) (inputs : dict) :
  (call root_node inputs = KeyError <->
   exists name pairs,
     visits inputs root_node (TNode name pairs) /\
     lookup_item name inputs = None) /\
  ((forall name pairs,
      visits inputs root_node (TNode name pairs) ->
      is_Some (lookup_item name inputs)) ->
   exists r, call root_node inputs = Ok r).
Proof.
  assert (Hiff : call root_node inputs = KeyError <->
    exists name pairs, visits inputs root_node (TNode name pairs) /\
                       lookup_item name inputs = None).
  { split; [apply call_KeyError_visits|].
    intros (name & pairs & Hvis & Hnone).
    rewrite (call_visits _ _ _ Hvis), call_node.
    apply getitem_KeyError in Hnone. by rewrite Hnone. }
  split; [exact Hiff|]. intros Hall.
  destruct (call_cases root_node inputs) as [?|Herr]; [done|].
  apply Hiff in Herr as (name & pairs & Hvis & Hnone).
  destruct (Hall _ _ Hvis) as [v Hv]. congruence.
Qed.

(** ** Partitioning *)

Lemma group_cons (attr : Attr) (w : Value) (inputs : dict) (output : Output)
    (exemplars : list exemplar) (v : Value) (inputs' : dict) :
  pop attr inputs = Ok (v, inputs') ->
  group attr w ((inputs, output) :: exemplars) =
  if decide (v = w) then (inputs', output) :: group attr w exemplars
  else group attr w exemplars.
Proof. intros Hpop. unfold group. simpl. rewrite Hpop. by destruct (decide (v = w)). Qed.

Lemma elem_of_group (attr : Attr) (w : Value) (exemplars : list exemplar)
    (e' : exemplar) :
  e' ∈ group attr w exemplars <->
  exists inputs, (inputs, e'.2) ∈ exemplars /\ pop attr inputs = Ok (w, e'.1).
Proof.
  unfold group. rewrite list_elem_of_omap. split.
  - intros ([inputs output] & Hin & Hsome).
    destruct (pop attr inputs) as [[v inputs']| | | |] eqn:Hpop; try done.
    destruct (decide (v = w)) as [->|]; [|done].
    injection Hsome as <-. eauto.
  - intros (inputs & Hin & Hpop). exists (inputs, e'.2). split; [done|].
    rewrite Hpop, decide_True; [|done]. by destruct e'.
Qed.

Lemma append_to_map (vs : list Value) (acc : Value -> list exemplar)
    (v : Value) (e : exemplar) :
  v ∈ vs -> NoDup vs ->
  append_to v e ((fun w => (w, acc w)) <$> vs) =
  Ok ((fun w => (w, if decide (v = w) then acc w ++ [e] else acc w)) <$> vs).
Proof.
  induction vs as [|w vs IH]; csimpl.
  - by intros ?%elem_of_nil.
  - intros Hin [Hw Hnd]%NoDup_cons. destruct (decide (v = w)) as [->|Hne].
    + do 2 f_equal. apply Forall_fmap_ext_1, Forall_forall.
      intros w' Hw'. rewrite decide_False; [done|]. by intros ->.
    + apply elem_of_cons in Hin as [?|Hin]; [done|]. by rewrite IH.
Qed.

(** The second loop of the partitioning, from any state of [partitions]. *)
Lemma partition_loop (attr : Attr) (vs : list Value) (exemplars : list exemplar)
    (values : list Value) (acc : Value -> list exemplar) :
  NoDup vs ->
  Forall2 (fun e v => lookup_item attr (e.1) = Some v) exemplars values ->
  values ⊆ vs ->
  for_each
    (fun partitions '(inputs, output) =>
       let* (attr_value, inputs) := pop attr inputs in
       append_to attr_value (inputs, output) partitions)
    exemplars ((fun w => (w, acc w)) <$> vs) =
  Ok ((fun w => (w, acc w ++ group attr w exemplars)) <$> vs).
Proof.
  intros Hnd Hall. revert acc.
  induction Hall as [|[inputs output] v exemplars values Hv Hall IH];
    intros acc Hsub.
  - simpl. f_equal. apply list_fmap_ext. intros _ w _. by rewrite app_nil_r.
  - simpl in Hv. destruct (pop_lookup _ _ _ Hv) as [inputs' Hpop].
    cbn [for_each]. rewrite Hpop. cbn [bind].
    rewrite append_to_map; [|apply Hsub; left|done]. cbn [bind].
    rewrite IH; [|intros x Hx; apply Hsub; by right].
    f_equal. apply list_fmap_ext. intros _ w _.
    rewrite (group_cons _ _ _ _ _ _ _ Hpop).
    destruct (decide (v = w)); [|done]. by rewrite <- app_assoc.
Qed.

Lemma partition_on_Ok (attr : Attr) (exemplars : list exemplar)
    (partitions : partitions_t) :
  partition_on attr exemplars = Ok partitions <->
  exists values,
    Forall2 (fun e v => lookup_item attr (e.1) = Some v) exemplars values /\
    partitions = (fun v => (v, group attr v exemplars)) <$> set_iter values.
Proof.
  unfold partition_on. rewrite bind_Ok. setoid_rewrite comprehension_Ok.
  assert (Hconv : forall values,
    Forall2 (fun x y => (let '(inputs, _) := x in getitem inputs attr) = Ok y)
      exemplars values <->
    Forall2 (fun e v => lookup_item attr (e.1) = Some v) exemplars values).
  { intros values.
    split; intros HF; eapply Forall2_impl; try exact HF;
      intros [inputs output] v; apply getitem_Ok. }
  split.
  - intros (values & Hvals%Hconv & Hloop). exists values. split; [done|].
    rewrite (partition_loop attr (set_iter values) exemplars values
               (fun _ => [])) in Hloop.
    + by injection Hloop as <-.
    + apply set_iter_NoDup.
    + done.
    + intros x. apply set_iter_elem.
  - intros (values & Hvals & ->). exists values. split; [by apply Hconv|].
    rewrite (partition_loop attr (set_iter values) exemplars values
               (fun _ => [])); [done|apply set_iter_NoDup|done|].
    intros x. apply set_iter_elem.
Qed.

Lemma partition_on_cases (attr : Attr) (exemplars : list exemplar) :
  (exists partitions, partition_on attr exemplars = Ok partitions) \/
  partition_on attr exemplars = KeyError.
Proof.
  destruct (partition_on attr exemplars) as [partitions| | | |] eqn:Hp; eauto;
    exfalso; revert Hp; unfold partition_on;
    match goal with
    | |- context [comprehension ?f exemplars] =>
        destruct (comprehension_cases f exemplars) as [[values Hvals]|Herr]
    end;
    try (intros [inputs output]; apply getitem_cases);
    rewrite ?Herr; try done; rewrite Hvals; cbn [bind];
    (erewrite partition_loop with (acc := fun _ => []) (values := values);
     [done|apply set_iter_NoDup| |intros x; apply set_iter_elem]);
    apply comprehension_Ok in Hvals;
    (eapply Forall2_impl; [exact Hvals|]); intros [inputs output] v;
    apply getitem_Ok.
Qed.

(** Every partition is a group of a value that occurs, so it is not empty. *)
Lemma partition_on_groups (attr : Attr) (exemplars : list exemplar)
    (partitions : partitions_t) (v : Value) (partition : list exemplar) :
  partition_on attr exemplars = Ok partitions ->
  (v, partition) ∈ partitions ->
  partition = group attr v exemplars /\
  exists e, e ∈ exemplars /\ lookup_item attr (e.1) = Some v.
Proof.
  intros (values & Hvals & ->)%partition_on_Ok Hin.
  apply list_elem_of_fmap in Hin as (w & [= -> ->] & Hw).
  split; [done|]. apply (proj1 (set_iter_elem _ _)) in Hw.
  apply list_elem_of_lookup in Hw as [i Hi].
  destruct (Forall2_lookup_r _ _ _ _ _ Hvals Hi) as (e & He & Hl).
  exists e. split; [|done]. by eapply list_elem_of_lookup_2.
Qed.

Lemma partition_on_values (attr : Attr) (exemplars : list exemplar)
    (partitions : partitions_t) :
  partition_on attr exemplars = Ok partitions ->
  NoDup (partitions.*1) /\
  forall v, v ∈ partitions.*1 <->
            exists e, e ∈ exemplars /\ lookup_item attr (e.1) = Some v.
Proof.
  intros (values & Hvals & ->)%partition_on_Ok.
  rewrite fmap_fst_pair.
  split; [apply set_iter_NoDup|].
  intros v. rewrite set_iter_elem. split.
  - intros [i Hi]%list_elem_of_lookup.
    destruct (Forall2_lookup_r _ _ _ _ _ Hvals Hi) as (e & He & Hl).
    exists e. split; [|done]. by eapply list_elem_of_lookup_2.
  - intros (e & [i Hi]%list_elem_of_lookup & Hl).
    destruct (Forall2_lookup_l _ _ _ _ _ Hvals Hi) as (w & Hw & Hl').
    simpl in *. assert (w = v) as -> by congruence.
    by eapply list_elem_of_lookup_2.
Qed.

(** ** Selection of the attribute *)

Lemma consider_Ok (exemplars : list exemplar) (best_attr r : option best_attr_t)
    (a : Attr) :
  consider exemplars best_attr a = Ok r ->
  exists partitions,
    partition_on a exemplars = Ok partitions /\
    (r = Some (BestAttr a (attr_entropy_of partitions) partitions) \/
     r = best_attr /\ is_Some best_attr).
Proof.
  unfold consider. intros (partitions & Hp & Hr)%bind_Ok. exists partitions.
  split; [done|]. destruct best_attr as [best|]; [|left; congruence].
  destruct (Fltb _ _); injection Hr as <-; [by left|right; eauto].
Qed.

Lemma consider_cases (exemplars : list exemplar) (best_attr : option best_attr_t)
    (a : Attr) :
  (exists best, consider exemplars best_attr a = Ok (Some best)) \/
  consider exemplars best_attr a = KeyError.
Proof.
  unfold consider.
  destruct (partition_on_cases a exemplars) as [[partitions ->]| ->]; [|by right].
  left. simpl. destruct best_attr as [best|]; [|eauto].
  destruct (Fltb _ _); eauto.
Qed.

Lemma best_loop_Ok (exemplars : list exemplar) (names seen : list Attr)
    (best_attr r : option best_attr_t) :
  for_each (consider exemplars) names best_attr = Ok r ->
  (forall b, best_attr = Some b -> candidate_of exemplars seen b) ->
  (r = None /\ names = [] /\ best_attr = None) \/
  (exists b, r = Some b /\ candidate_of exemplars (seen ++ names) b).
Proof.
  revert seen best_attr. induction names as [|a names IH]; intros seen best_attr.
  - simpl. intros [= <-] Hinit. destruct best_attr as [b|]; [right|left; done].
    exists b. rewrite app_nil_r. eauto.
  - cbn [for_each]. intros (r1 & Hc & Hrest)%bind_Ok Hinit. right.
    apply consider_Ok in Hc as (parts & Hparts & Hr1).
    assert (Hcand : forall b, r1 = Some b -> candidate_of exemplars (seen ++ [a]) b).
    { intros b Hb. destruct Hr1 as [->|[-> _]].
      - injection Hb as <-. split_and!; simpl; [|done..].
        apply elem_of_app. right. left.
      - destruct (Hinit _ Hb) as (? & ? & ?). split_and!; [|done..].
        apply elem_of_app. by left. }
    destruct (IH _ _ Hrest Hcand) as [(-> & -> & ->)|(b & -> & Hb)].
    + destruct Hr1 as [?|[? [? ?]]]; simplify_eq.
    + exists b. split; [done|]. by rewrite <- app_assoc in Hb.
Qed.

Lemma find_best_attr_Ok (exemplars : list exemplar) (r : option best_attr_t) :
  find_best_attr exemplars = Ok r ->
  exists exemplar0 rest,
    exemplars = exemplar0 :: rest /\
    ((r = None /\ keys (exemplar0.1) = []) \/
     (exists b, r = Some b /\ candidate_of exemplars (keys (exemplar0.1)) b)).
Proof.
  unfold find_best_attr. intros (e0 & He0 & Hloop)%bind_Ok.
  destruct exemplars as [|e rest]; [done|]. injection He0 as ->.
  exists e0, rest. split; [done|].
  destruct (best_loop_Ok _ _ [] _ _ Hloop) as [(-> & -> & _)|(b & -> & Hb)];
    [done|by left|right; eauto].
Qed.

Lemma find_best_attr_cases (exemplars : list exemplar) :
  exemplars <> [] ->
  (exists r, find_best_attr exemplars = Ok r) \/
  find_best_attr exemplars = KeyError.
Proof.
  unfold find_best_attr. destruct exemplars as [|e0 rest]; simpl; [done|].
  intros _.
  generalize (None : option best_attr_t) as best_attr.
  induction (keys (e0.1)) as [|a names IH]; intros best_attr; simpl; [eauto|].
  destruct (consider_cases (e0 :: rest) best_attr a) as [[b ->]| ->]; simpl; auto.
Qed.

(** ** The recursion *)

(** The loop that builds [value_subnode_pairs], for any function called on
    the partitions. *)
Lemma build_loop_Ok (f : list exemplar -> result tree) (parts : partitions_t)
    (acc pairs : list (Value * tree)) :
  for_each
    (fun value_subnode_pairs '(attr_value, partition) =>
       let* subnode := f partition in
       Ok (value_subnode_pairs ++ [(attr_value, subnode)]))
    parts acc = Ok pairs <->
  exists new,
    pairs = acc ++ new /\
    Forall2 (fun part pair => pair.1 = part.1 /\ f (part.2) = Ok (pair.2))
      parts new.
Proof.
  revert acc. induction parts as [|[v part] parts IH]; intros acc; cbn [for_each].
  - split.
    + intros [= <-]. exists []. by rewrite app_nil_r.
    + intros (new & -> & ->%Forall2_nil_inv_l). by rewrite app_nil_r.
  - rewrite bind_Ok. split.
    + intros (acc' & (sub & Hsub & [= <-])%bind_Ok & (new & -> & Hnew)%IH).
      exists ((v, sub) :: new). rewrite <- app_assoc. split; [done|].
      by constructor.
    + intros (new & -> & Hnew).
      apply Forall2_cons_inv_l in Hnew as ([v' sub] & new' & [Hv Hsub] & Hnew' & ->).
      simpl in *. subst v'. exists (acc ++ [(v, sub)]). rewrite Hsub. split; [done|].
      apply IH. exists new'. by rewrite <- app_assoc.
Qed.

Lemma id3_helper_eq (fuel : nat) (exemplars : list exemplar) :
  id3_helper (S fuel) exemplars =
  let output_set := set_iter (exemplars.*2) in
  if decide (length output_set = 0) then Ok TNone
  else if decide (length output_set = 1) then
    let* exemplar0 := first exemplars in Ok (TLeaf (exemplar0.2))
  else if inputs_all_same exemplars then Ok (most_common_output (exemplars.*2))
  else
    let* best_attr := find_best_attr exemplars in
    match best_attr with
    | None => TypeError
    | Some best =>
        let* value_subnode_pairs :=
          for_each
            (fun value_subnode_pairs '(attr_value, partition) =>
               let* subnode := id3_helper fuel partition in
               Ok (value_subnode_pairs ++ [(attr_value, subnode)]))
            (partitions best) [] in
        Ok (TNode (attr best) value_subnode_pairs)
    end.
Proof. reflexivity. Qed.

Lemma id3_helper_Ok (fuel : nat) (exemplars : list exemplar) (t : tree) :
  id3_helper (S fuel) exemplars = Ok t <-> returned fuel exemplars t.
Proof.
  rewrite id3_helper_eq. cbn zeta.
  destruct (decide (length (set_iter (exemplars.*2)) = 0)) as [H0|H0].
  { apply set_iter_length_0, fmap_nil_inv in H0 as ->. split.
    - intros [= <-]. by constructor 1.
    - inversion 1 as [? ->| |Hlen|? ? Hlen]; try done;
        simpl in Hlen; rewrite set_iter_nil in Hlen; simpl in Hlen; lia. }
  destruct (decide (length (set_iter (exemplars.*2)) = 1)) as [H1|H1].
  { destruct (set_iter_length_1 _ H1) as [o Ho].
    destruct exemplars as [|e0 rest];
      [exfalso; apply H0; csimpl; by rewrite set_iter_nil|].
    simpl. split.
    - intros [= <-]. econstructor 2; [done| |done].
      intros e He. assert (e.2 = o) as ->.
      { apply Ho, list_elem_of_fmap. eauto. }
      symmetry. apply Ho. left.
    - inversion 1 as [Hnil Ht|e0' rest' He Hall Ht|Hlen Hs Ht
                     |best pairs Hlen Hs Hbest Hpairs Ht]; try done; try lia.
      injection He as <- <-. by rewrite Ht. }
  assert (H2 : 2 <= length (set_iter (exemplars.*2))) by lia.
  assert (Hne : exemplars <> []).
  { intros ->. apply H0. csimpl. by rewrite set_iter_nil. }
  assert (Hout : ~ exists o, forall y, y ∈ exemplars.*2 <-> y = o).
  { intros [o Ho]. destruct (set_iter (exemplars.*2)) as [|x [|y l]] eqn:Hs;
      simpl in *; try lia.
    pose proof (set_iter_NoDup (exemplars.*2)) as Hnd. rewrite Hs in Hnd.
    assert (x = o) as ->.
    { apply Ho, set_iter_elem. rewrite Hs. left. }
    assert (y = o) as ->.
    { apply Ho, set_iter_elem. rewrite Hs. right. left. }
    apply NoDup_cons in Hnd as [Hnd _]. apply Hnd. left. }
  assert (Honly : forall exemplar0 rest,
    exemplars = exemplar0 :: rest ->
    (forall e, e ∈ exemplars -> e.2 = exemplar0.2) -> False).
  { intros e0 rest He Hall. apply Hout. exists (e0.2). intros y. split.
    - intros (e & -> & Hin)%list_elem_of_fmap. by apply Hall.
    - intros ->. apply list_elem_of_fmap. exists e0. split; [done|].
      rewrite He. left. }
  destruct (inputs_all_same exemplars) eqn:Hsame.
  { split.
    - intros [= <-]. by constructor 3.
    - inversion 1 as [Hnil Ht|e0 rest He Hall Ht|Hlen Hs Ht
                     |best pairs Hlen Hs Hbest Hpairs Ht];
        try done; try congruence.
      exfalso. eauto. }
  split.
  - intros (best_attr & Hbest & Hrest)%bind_Ok.
    destruct best_attr as [best|]; [|done].
    apply bind_Ok in Hrest as (pairs & Hloop & [= <-]).
    apply build_loop_Ok in Hloop as (new & -> & Hnew).
    by econstructor 4.
  - inversion 1 as [Hnil Ht|e0 rest He Hall Ht|Hlen Hs Ht
                   |best pairs Hlen Hs Hbest Hpairs Ht];
      try done; try congruence; try (exfalso; by eauto).
    rewrite Hbest. cbn [bind].
      assert (Hloop : for_each
        (fun value_subnode_pairs '(attr_value, partition) =>
           let* subnode := id3_helper fuel partition in
           Ok (value_subnode_pairs ++ [(attr_value, subnode)]))
        (partitions best) [] = Ok pairs).
      { apply build_loop_Ok. by exists pairs. }
      rewrite Hloop. by rewrite Ht.
Qed.

(** ** The majority vote *)

Lemma count_pos (l : list Output) (x : Output) : 0 < count l x <-> x ∈ l.
Proof.
  unfold count. induction l as [|y l IH]; simpl.
  - split; [lia|by intros ?%elem_of_nil].
  - rewrite filter_cons, elem_of_cons. destruct (decide (y = x)) as [->|Hne]; simpl.
    + split; [auto|lia].
    + rewrite IH. split; [by right|]. by intros [?|?].
Qed.

Lemma most_common_loop (outputs l : list Output) (t : tree) (c : nat) :
  let r := fold_left
             (fun '(most_common, most_common_count) output =>
                let count := count outputs output in
                if decide (most_common_count < count) then (TLeaf output, count)
                else (most_common, most_common_count))
             l (t, c) in
  c <= r.2 /\
  (forall o, o ∈ l -> count outputs o <= r.2) /\
  (r = (t, c) \/ exists o, o ∈ l /\ r = (TLeaf o, count outputs o)).
Proof.
  cbn zeta. revert t c. induction l as [|x l IH]; intros t c; cbn [fold_left].
  - split_and!; [done| |by left]. by intros o ?%elem_of_nil.
  - destruct (decide (c < count outputs x)) as [Hlt|Hge].
    + destruct (IH (TLeaf x) (count outputs x)) as (Hle & Hall & Hres).
      split_and!; [lia| |].
      * intros o [->|Ho]%elem_of_cons; auto.
      * right. destruct Hres as [->|(o & Ho & ->)].
        -- exists x. split; [left|done].
        -- exists o. split; [by right|done].
    + destruct (IH t c) as (Hle & Hall & Hres). split_and!; [done| |].
      * intros o [->|Ho]%elem_of_cons; [lia|auto].
      * destruct Hres as [->|(o & Ho & ->)]; [by left|right].
        exists o. split; [by right|done].
Qed.

(** On a list that is not empty, the vote returns an output of the list
    that no output outnumbers. *)
Lemma most_common_output_spec (outputs : list Output) :
  outputs <> [] ->
  exists o, most_common_output outputs = (TLeaf o : tree) /\ o ∈ outputs /\
            forall o', count outputs o' <= count outputs o.
Proof.
  intros Hne. unfold most_common_output.
  destruct (most_common_loop outputs (set_iter outputs) (TNone : tree) 0)
    as (_ & Hall & Hres). cbn zeta in *.
  destruct outputs as [|x outputs']; [done|]. set (outputs := x :: outputs') in *.
  assert (Hx : 0 < count outputs x) by (apply count_pos; left).
  assert (Hxs : x ∈ set_iter outputs) by (apply set_iter_elem; left).
  destruct Hres as [Hres|(o & Ho & Hres)].
  - specialize (Hall _ Hxs). rewrite Hres in Hall. simpl in Hall. lia.
  - rewrite Hres in *. simpl in *. exists o. split; [done|].
    apply (proj1 (set_iter_elem _ _)) in Ho. split; [done|].
    intros o'. destruct (decide (o' ∈ outputs)) as [Hin|Hnin].
    + apply Hall. by apply set_iter_elem.
    + assert (~ 0 < count outputs o') by by rewrite count_pos. lia.
Qed.

(** The flag is set when the loops end exactly when no pair differs. *)
Lemma inputs_all_same_forallb (exemplars : list exemplar) :
  inputs_all_same exemplars =
  forallb (fun '(inputs0, _) =>
    forallb (fun '(inputs1, _) => dict_eqb inputs0 inputs1) exemplars)
    exemplars.
Proof.
  unfold inputs_all_same.
  assert (Hinner : forall (inputs0 : dict) (l : list exemplar) (same : bool),
    fold_left
      (fun (inputs_all_same : bool) '(inputs1, _) =>
         if inputs_all_same then dict_eqb inputs0 inputs1 else false)
      l same =
    same && forallb (fun '(inputs1, _) => dict_eqb inputs0 inputs1) l).
  { intros inputs0 l. induction l as [|[inputs1 o1] l IH]; intros same; simpl.
    - by rewrite andb_true_r.
    - rewrite IH. destruct same; simpl; [done|].
      by destruct (dict_eqb inputs0 inputs1). }
  assert (Houter : forall (l : list exemplar) (same : bool),
    fold_left
      (fun (inputs_all_same : bool) '(inputs0, _) =>
         if inputs_all_same then
           fold_left
             (fun (inputs_all_same : bool) '(inputs1, _) =>
                if inputs_all_same then dict_eqb inputs0 inputs1 else false)
             exemplars true
         else false)
      l same =
    same && forallb (fun '(inputs0, _) =>
              forallb (fun '(inputs1, _) => dict_eqb inputs0 inputs1) exemplars)
              l).
  { induction l as [|[inputs0 o0] l IH]; intros same; simpl.
    - by rewrite andb_true_r.
    - rewrite IH, Hinner. by destruct same. }
  by rewrite (Houter exemplars true).
Qed.

Lemma inputs_all_same_true (exemplars : list exemplar) :
  inputs_all_same exemplars = true <->
  forall e1 e2, e1 ∈ exemplars -> e2 ∈ exemplars -> dict_eqb (e1.1) (e2.1) = true.
Proof.
  rewrite inputs_all_same_forallb, forallb_elem. split.
  - intros Hall [d1 o1] [d2 o2] H1 H2. specialize (Hall _ H1). simpl in Hall.
    rewrite forallb_elem in Hall. apply (Hall _ H2).
  - intros Hall [d1 o1] H1. apply forallb_elem. intros [d2 o2] H2.
    apply (Hall _ _ H1 H2).
Qed.

Lemma set_iter_length_2 {A : Type} `{PySet A} (l : list A) (x y : A) :
  x ∈ l -> y ∈ l -> x <> y -> 2 <= length (set_iter l).
Proof.
  intros Hx%set_iter_elem Hy%set_iter_elem Hne.
  destruct (set_iter l) as [|a [|b l']]; simpl; [|exfalso|lia].
  - by apply elem_of_nil in Hx.
  - apply list_elem_of_singleton in Hx, Hy. congruence.
Qed.

(** C4. A call on exemplars whose [inputs] are all equal and whose outputs
    are not all the same returns, as a terminal, an output of the exemplars
    with the largest number of occurrences. *)
Theorem id3_helper_majority_vote (fuel : nat) (exemplars : list exemplar) :
  exemplars <> [] ->
  (forall e1 e2, e1 ∈ exemplars -> e2 ∈ exemplars ->
                 dict_eqb (e1.1) (e2.1) = true) ->
  (exists e1 e2, e1 ∈ exemplars /\ e2 ∈ exemplars /\ e1.2 <> e2.2) ->
  exists o,
    id3_helper (S fuel) exemplars = Ok (TLeaf o) /\
    o ∈ exemplars.*2 /\
    forall o', count (exemplars.*2) o' <= count (exemplars.*2) o.
Proof.
  intros Hne Hsame (e1 & e2 & He1 & He2 & Hdiff).
  destruct (most_common_output_spec (exemplars.*2)) as (o & Hmc & Ho & Hmax).
  { by intros ->%fmap_nil_inv. }
  exists o. split; [|done]. apply id3_helper_Ok. constructor 3; [|by apply inputs_all_same_true|done].
  eapply set_iter_length_2; [| |exact Hdiff]; apply list_elem_of_fmap; eauto.
Qed.

(** ** The budget of nested calls *)

Lemma max_list_lt (l : list nat) (m : nat) :
  0 < m -> (forall x, x ∈ l -> x < m) -> max_list l < m.
Proof.
  intros Hm. induction l as [|x l IH]; simpl; [done|].
  intros Hall. assert (x < m) by (apply Hall; left).
  assert (max_list l < m) by (apply IH; intros y Hy; apply Hall; by right). lia.
Qed.

Lemma max_keys_elem (exemplars : list exemplar) (e : exemplar) :
  e ∈ exemplars -> length (e.1) <= max_keys exemplars.
Proof.
  intros He. unfold max_keys. apply max_list_elem_of_le.
  apply list_elem_of_fmap. eauto.
Qed.

(** Every partition holds fewer keys than the exemplars it comes from. *)
Lemma partition_max_keys (a : Attr) (exemplars : list exemplar)
    (parts : partitions_t) (v : Value) (part : list exemplar) :
  partition_on a exemplars = Ok parts -> (v, part) ∈ parts ->
  max_keys part < max_keys exemplars.
Proof.
  intros Hparts Hin.
  destruct (partition_on_groups _ _ _ _ _ Hparts Hin) as (-> & e & He & Hl).
  unfold max_keys at 1. apply max_list_lt.
  - apply max_keys_elem in He. destruct (e.1); [done|simpl in *; lia].
  - intros n (e' & -> & (d & Hd & Hpop)%elem_of_group)%list_elem_of_fmap.
    apply pop_length in Hpop. apply max_keys_elem in Hd. simpl in *. lia.
Qed.

Lemma for_each_key_or_type {A S : Type} (body : S -> A -> result S)
    (l : list A) (s : S) :
  (forall s x, x ∈ l -> key_or_type_error (body s x)) ->
  key_or_type_error (for_each body l s).
Proof.
  revert s. induction l as [|x l IH]; intros s Hbody; simpl; [done|].
  pose proof (Hbody s x ltac:(left)) as Hx.
  destruct (body s x) as [s'| | | |]; simpl in *; try done.
  apply IH. intros s'' y Hy. apply Hbody. by right.
Qed.

(** With a budget above the number of keys the recursion does not run out
    of budget, whatever the exemplars. *)
Lemma id3_helper_enough_fuel (fuel : nat) (exemplars : list exemplar) :
  max_keys exemplars < fuel -> key_or_type_error (id3_helper fuel exemplars).
Proof.
  revert exemplars. induction fuel as [|fuel IH]; intros exemplars Hfuel; [lia|].
  rewrite id3_helper_eq. cbn zeta.
  destruct (decide (length (set_iter (exemplars.*2)) = 0)) as [H0|H0]; [done|].
  assert (Hne : exemplars <> []).
  { intros ->. apply H0. csimpl. by rewrite set_iter_nil. }
  destruct (decide (length (set_iter (exemplars.*2)) = 1)).
  { by destruct exemplars. }
  destruct (inputs_all_same exemplars); [done|].
  destruct (find_best_attr_cases exemplars Hne) as [[r Hr]|Hr];
    rewrite Hr; simpl; [|done].
  destruct r as [best|]; [|done].
  apply find_best_attr_Ok in Hr as (e0 & rest & -> & [[? _]|(b & [= <-] & Hb)]);
    [done|].
  destruct Hb as (_ & Hparts & _).
  match goal with
  | |- key_or_type_error (bind ?m _) =>
      assert (Hloop : key_or_type_error m); [|by destruct m]
  end.
  apply for_each_key_or_type. intros acc [v part] Hin.
  pose proof (partition_max_keys _ _ _ _ _ Hparts Hin) as Hlt.
  assert (Hsub : key_or_type_error (id3_helper fuel part)) by (apply IH; lia).
  by destruct (id3_helper fuel part).
Qed.

(** [id3] returns a tree or raises a [KeyError] or a [TypeError]: its budget
    is never used up. *)
Lemma id3_total (exemplars : list exemplar) : key_or_type_error (id3 exemplars).
Proof. unfold id3. apply id3_helper_enough_fuel. lia. Qed.

Lemma for_each_ext {A S : Type} (body1 body2 : S -> A -> result S)
    (l : list A) (s : S) :
  (forall s x, x ∈ l -> body1 s x <> OutOfFuel -> body2 s x = body1 s x) ->
  for_each body1 l s <> OutOfFuel ->
  for_each body2 l s = for_each body1 l s.
Proof.
  revert s. induction l as [|x l IH]; intros s Hbody; simpl; [done|].
  intros Hfin. rewrite Hbody; [|left|by destruct (body1 s x)].
  destruct (body1 s x) as [s'| | | |]; simpl in *; try done.
  apply IH; [|done]. intros s'' y Hy. apply Hbody. by right.
Qed.

(** A run that does not end for lack of budget has the same result with a
    larger budget. *)
Lemma id3_helper_more_fuel (fuel fuel' : nat) (exemplars : list exemplar) :
  fuel <= fuel' -> id3_helper fuel exemplars <> OutOfFuel ->
  id3_helper fuel' exemplars = id3_helper fuel exemplars.
Proof.
  revert fuel' exemplars.
  induction fuel as [|fuel IH]; intros fuel' exemplars Hle; [done|].
  destruct fuel' as [|fuel']; [lia|]. rewrite !id3_helper_eq. cbn zeta.
  repeat case_decide; try done.
  destruct (inputs_all_same exemplars); [done|].
  destruct (find_best_attr exemplars) as [[best|]| | | |]; simpl; try done.
  intros Hfin.
  match goal with
  | |- bind ?m2 _ = bind ?m1 _ => assert (Hloop : m2 = m1); [|by rewrite Hloop]
  end.
  apply for_each_ext.
  - intros acc [v part] _ Hsub. rewrite IH; [done|lia|].
    by destruct (id3_helper fuel part).
  - match goal with
    | Hfin : bind ?m _ <> _ |- _ => by destruct m
    end.
Qed.

(** ** Exemplars over one set of names *)

Lemma Forall2_choice {A B : Type} (R : A -> B -> Prop) (l : list A) :
  (forall x, x ∈ l -> exists y, R x y) -> exists k, Forall2 R l k.
Proof.
  induction l as [|x l IH]; intros Hall; [by exists []|].
  destruct (Hall x) as [y Hy]; [left|].
  destruct IH as [k Hk]; [intros z Hz; apply Hall; by right|].
  exists (y :: k). by constructor.
Qed.

Lemma uniform_partition_on (names : list Attr) (exemplars : list exemplar)
    (a : Attr) :
  uniform names exemplars -> a ∈ names ->
  exists parts, partition_on a exemplars = Ok parts.
Proof.
  intros Huni Ha.
  destruct (Forall2_choice (fun (e : exemplar) v => lookup_item a (e.1) = Some v)
              exemplars) as [values Hvalues].
  { intros e He. apply lookup_item_is_Some.
    destruct (Huni _ He) as [_ Hperm]. by rewrite Hperm. }
  eexists. apply partition_on_Ok. eauto.
Qed.

Lemma uniform_group (names names' : list Attr) (exemplars : list exemplar)
    (a : Attr) (v : Value) :
  uniform names exemplars -> names ≡ₚ a :: names' ->
  uniform names' (group a v exemplars).
Proof.
  intros Huni Hnames e' (d & Hd & Hpop)%elem_of_group.
  destruct (Huni _ Hd) as [Hwf Hperm]. simpl in *.
  split; [by eapply pop_wf|].
  apply pop_Ok in Hpop as (_ & Hkeys & _).
  apply (Permutation_cons_inv (a:=a)). by rewrite <- Hkeys, Hperm.
Qed.

Lemma best_loop_total (exemplars : list exemplar) (l : list Attr)
    (best_attr : option best_attr_t) :
  (forall a, a ∈ l -> exists parts, partition_on a exemplars = Ok parts) ->
  exists r, for_each (consider exemplars) l best_attr = Ok r.
Proof.
  revert best_attr. induction l as [|a l IH]; intros best_attr Hall; simpl; [eauto|].
  destruct (Hall a) as [parts Hparts]; [left|].
  assert (Hl : forall b, b ∈ l -> exists parts, partition_on b exemplars = Ok parts).
  { intros b Hb. apply Hall. by right. }
  unfold consider at 1. rewrite Hparts. simpl.
  destruct best_attr as [best|]; [destruct (Fltb _ _)|]; simpl; by apply IH.
Qed.

(** Exemplars without keys have equal [inputs]. *)
Lemma uniform_nil_all_same (exemplars : list exemplar) :
  uniform [] exemplars -> inputs_all_same exemplars = true.
Proof.
  intros Huni. apply inputs_all_same_true. intros e1 e2 H1 H2.
  destruct (Huni _ H1) as [_ Hk1]. destruct (Huni _ H2) as [_ Hk2].
  apply Permutation_nil_r, fmap_nil_inv in Hk1, Hk2. by rewrite Hk1, Hk2.
Qed.

Lemma depth_node (name : Attr) (pairs : list (Value * tree)) (n : nat) :
  (forall p, p ∈ pairs -> depth (p.2) <= n) -> depth (TNode name pairs) <= S n.
Proof.
  intros Hall. cbn [depth]. apply le_n_S.
  induction pairs as [|p pairs IH]; csimpl; [lia|].
  assert (depth (p.2) <= n) by (apply Hall; left).
  assert (max_list ((fun p : Value * tree => depth (p.2)) <$> pairs) <= n).
  { apply IH. intros q Hq. apply Hall. by right. }
  lia.
Qed.

(** On exemplars over the names [names] a budget above the number of names
    is enough, nothing is raised, and the tree is no deeper than the number
    of names. *)
Lemma id3_helper_uniform (fuel : nat) (names : list Attr)
    (exemplars : list exemplar) :
  length names < fuel -> uniform names exemplars ->
  exists t, id3_helper fuel exemplars = Ok t /\ depth t <= length names.
Proof.
  revert names exemplars.
  induction fuel as [|fuel IH]; intros names exemplars Hfuel Huni; [lia|].
  rewrite id3_helper_eq. cbn zeta.
  destruct (decide (length (set_iter (exemplars.*2)) = 0)) as [H0|H0].
  { exists TNone. split; [done|simpl; lia]. }
  destruct exemplars as [|e0 rest] eqn:He.
  { exfalso. apply H0. csimpl. by rewrite set_iter_nil. }
  rewrite <- He in *.
  assert (He0 : e0 ∈ exemplars) by (rewrite He; left).
  destruct (decide (length (set_iter (exemplars.*2)) = 1)).
  { rewrite He. simpl. eexists. split; [done|simpl; lia]. }
  destruct (inputs_all_same exemplars) eqn:Hsame.
  { destruct (most_common_output_spec (exemplars.*2)) as (o & -> & _).
    - rewrite He. by csimpl.
    - eexists. split; [done|simpl; lia]. }
  destruct (Huni _ He0) as [Hwf0 Hkeys0].
  destruct (best_loop_total exemplars (keys (e0.1)) None) as [r Hr].
  { intros a Ha. apply (uniform_partition_on names); [done|]. by rewrite <- Hkeys0. }
  assert (Hfind : find_best_attr exemplars = Ok r).
  { unfold find_best_attr. by rewrite He at 1. }
  rewrite Hfind. cbn [bind].
  apply find_best_attr_Ok in Hfind
    as (e0' & rest' & He' & [[-> Hnil]|(best & -> & Ha & Hparts & _)]).
  { exfalso. rewrite He in He'. injection He' as <- <-.
    rewrite Hnil in Hkeys0. apply Permutation_nil_l in Hkeys0 as <-.
    by rewrite uniform_nil_all_same in Hsame. }
  rewrite He in He'. injection He' as <- <-. rewrite Hkeys0 in Ha.
  apply elem_of_Permutation in Ha as [names' Hnames].
  assert (Hlen : length names = S (length names')) by by rewrite Hnames.
  destruct (Forall2_choice
              (fun (part : Value * list exemplar) (pair : Value * tree) =>
                 (pair.1 = part.1 /\ id3_helper fuel (part.2) = Ok (pair.2)) /\
                 depth (pair.2) <= length names')
              (partitions best)) as [pairs Hpairs].
  { intros [v part] Hin.
    destruct (partition_on_groups _ _ _ _ _ Hparts Hin) as (-> & _).
    destruct (IH names' (group (attr best) v exemplars)) as (t & Ht & Hd);
      [lia|by eapply uniform_group|].
    by exists (v, t). }
  assert (Hbuilt : Forall2 (fun part pair =>
            pair.1 = part.1 /\ id3_helper fuel (part.2) = Ok (pair.2))
            (partitions best) pairs).
  { eapply Forall2_impl; [exact Hpairs|]. by intros ? ? [? _]. }
  assert (Hdepth : Forall2 (fun _ pair => depth (pair.2) <= length names')
            (partitions best) pairs).
  { eapply Forall2_impl; [exact Hpairs|]. by intros ? ? [_ ?]. }
  exists (TNode (attr best) pairs). split.
  - assert (Hloop : for_each
      (fun value_subnode_pairs '(attr_value, partition) =>
         let* subnode := id3_helper fuel partition in
         Ok (value_subnode_pairs ++ [(attr_value, subnode)]))
      (partitions best) [] = Ok pairs).
    { apply build_loop_Ok. by exists pairs. }
    by rewrite Hloop.
  - rewrite Hlen. apply depth_node. intros p Hp.
    apply list_elem_of_lookup in Hp as [i Hi].
    destruct (Forall2_lookup_r _ _ _ _ _ Hdepth Hi) as (part & _ & Hd). done.
Qed.

Lemma uniform_max_keys (names : list Attr) (exemplars : list exemplar) :
  uniform names exemplars -> max_keys exemplars <= length names.
Proof.
  intros Huni. unfold max_keys.
  induction exemplars as [|e exemplars IH]; csimpl; [lia|].
  destruct (Huni e) as [_ Hperm]; [left|].
  apply Permutation_length in Hperm. unfold keys in Hperm.
  rewrite length_fmap in Hperm.
  assert (max_list ((fun e : exemplar => length (e.1)) <$> exemplars)
          <= length names).
  { apply IH. intros e' He'. apply Huni. by right. }
  lia.
Qed.

(** A tree is returned for exemplars with the same names as keys. *)
Lemma id3_uniform_Ok (names : list Attr) (exemplars : list exemplar) :
  uniform names exemplars ->
  exists t, id3 exemplars = Ok t /\ depth t <= length names.
Proof.
  intros Huni.
  destruct (id3_helper_uniform (S (length names)) names exemplars)
    as (t & Ht & Hdepth); [lia|done|].
  exists t. split; [|done].
  unfold id3. rewrite <- Ht. symmetry. apply id3_helper_more_fuel.
  - apply le_n_S. by apply uniform_max_keys.
  - pose proof (id3_helper_enough_fuel (S (max_keys exemplars)) exemplars) as Hk.
    intros Hout. rewrite Hout in Hk. apply Hk. lia.
Qed.

(** C5. On exemplars whose [inputs] all have the same names as keys, the
    construction returns a tree: a budget of nested calls of one more than
    the number of names is enough, and the tree is no deeper than the
    number of names.  A call that selects an attribute recurses on
    partitions that are not empty and whose [inputs] have the names without
    the selected one as keys. *)
Theorem id3_terminates (names : list Attr) (exemplars : list exemplar) :
  uniform names exemplars ->
  (exists t,
     id3 exemplars = Ok t /\
     depth t <= length names /\
     forall fuel, length names < fuel -> id3_helper fuel exemplars = Ok t) /\
  (forall best,
     find_best_attr exemplars = Ok (Some best) ->
     exists names',
       names ≡ₚ attr best :: names' /\
       forall v part, (v, part) ∈ partitions best ->
                      part <> [] /\ uniform names' part).
Proof.
  intros Huni. split.
  - destruct (id3_helper_uniform (S (length names)) names exemplars)
      as (t & Ht & Hdepth); [lia|done|].
    exists t. split_and!; [|done|].
    + unfold id3. rewrite <- Ht. symmetry. apply id3_helper_more_fuel.
      * apply le_n_S. by apply uniform_max_keys.
      * pose proof (id3_helper_enough_fuel (S (max_keys exemplars)) exemplars) as Hk.
        intros Hout. rewrite Hout in Hk. apply Hk. lia.
    + intros fuel Hfuel. rewrite <- Ht. apply id3_helper_more_fuel; [lia|].
      by rewrite Ht.
  - intros best (e0 & rest & -> & [[? _]|(b & [= <-] & Ha & Hparts & _)])%find_best_attr_Ok;
      [done|].
    destruct (Huni e0) as [_ Hkeys0]; [left|]. rewrite Hkeys0 in Ha.
    apply elem_of_Permutation in Ha as [names' Hnames].
    exists names'. split; [done|]. intros v part Hin.
    destruct (partition_on_groups _ _ _ _ _ Hparts Hin) as (-> & e & He & Hl).
    split; [|by eapply uniform_group].
    destruct (pop_lookup _ _ _ Hl) as [d' Hpop].
    intros Hnil.
    assert (Hin' : (d', e.2) ∈ group (attr best) v (e0 :: rest)).
    { apply elem_of_group. exists (e.1). split; [by destruct e|done]. }
    rewrite Hnil in Hin'. by apply elem_of_nil in Hin'.
Qed.

(** ** Validation of the tree against its exemplars *)

Lemma built_pairs_values (fuel : nat) (parts : partitions_t)
    (pairs : list (Value * tree)) :
  Forall2 (fun part pair =>
             pair.1 = part.1 /\ id3_helper fuel (part.2) = Ok (pair.2))
    parts pairs ->
  pairs.*1 = parts.*1.
Proof.
  induction 1 as [|[v part] [v' sub] parts pairs [Hv _] _ IH]; csimpl; [done|].
  simpl in Hv. by rewrite Hv, IH.
Qed.

Lemma built_pairs_elem (fuel : nat) (parts : partitions_t)
    (pairs : list (Value * tree)) (v : Value) (part : list exemplar) :
  Forall2 (fun part pair =>
             pair.1 = part.1 /\ id3_helper fuel (part.2) = Ok (pair.2))
    parts pairs ->
  (v, part) ∈ parts ->
  exists sub, (v, sub) ∈ pairs /\ id3_helper fuel part = Ok sub.
Proof.
  intros Hall [i Hi]%list_elem_of_lookup.
  destruct (Forall2_lookup_l _ _ _ _ _ Hall Hi) as ([v' sub] & Hsub & Hv & Hb).
  simpl in *. subst v'. exists sub. split; [|done].
  by eapply list_elem_of_lookup_2.
Qed.

Lemma built_pairs_elem_r (fuel : nat) (parts : partitions_t)
    (pairs : list (Value * tree)) (v : Value) (sub : tree) :
  Forall2 (fun part pair =>
             pair.1 = part.1 /\ id3_helper fuel (part.2) = Ok (pair.2))
    parts pairs ->
  (v, sub) ∈ pairs ->
  exists part, (v, part) ∈ parts /\ id3_helper fuel part = Ok sub.
Proof.
  intros Hall [i Hi]%list_elem_of_lookup.
  destruct (Forall2_lookup_r _ _ _ _ _ Hall Hi) as ([v' part] & Hpart & Hv & Hb).
  simpl in *. subst v'. exists part. split; [|done].
  by eapply list_elem_of_lookup_2.
Qed.

(** What a call on a node does when the inputs give the name of the node a
    value that has a partition. *)
Lemma call_built_node (fuel : nat) (a : Attr) (exemplars : list exemplar)
    (parts : partitions_t) (pairs : list (Value * tree)) (inputs : dict)
    (v : Value) :
  partition_on a exemplars = Ok parts ->
  Forall2 (fun part pair =>
             pair.1 = part.1 /\ id3_helper fuel (part.2) = Ok (pair.2))
    parts pairs ->
  lookup_item a inputs = Some v ->
  v ∈ parts.*1 ->
  exists sub,
    id3_helper fuel (group a v exemplars) = Ok sub /\
    get_subnode_for_input pairs v = sub /\
    call (TNode a pairs) inputs = call sub inputs.
Proof.
  intros Hparts Hpairs Hv Hin.
  apply list_elem_of_fmap in Hin as ([v' part] & -> & Hin). cbn [fst] in *.
  destruct (partition_on_groups _ _ _ _ _ Hparts Hin) as (-> & _).
  destruct (built_pairs_elem _ _ _ _ _ Hpairs Hin) as (sub & Hsub & Hbuilt).
  exists sub. split; [done|].
  assert (Hget : get_subnode_for_input pairs v' = sub).
  { apply get_subnode_NoDup; [|done].
    rewrite (built_pairs_values _ _ _ Hpairs).
    by apply (partition_on_values _ _ _ Hparts). }
  split; [done|]. rewrite call_node. apply getitem_Ok in Hv. rewrite Hv.
  simpl. by rewrite Hget.
Qed.

Lemma consistent_group (names : list Attr) (exemplars : list exemplar)
    (a : Attr) (v : Value) :
  uniform names exemplars -> consistent exemplars ->
  consistent (group a v exemplars).
Proof.
  intros Huni Hcons e1 e2 (d1 & H1 & Hpop1)%elem_of_group
    (d2 & H2 & Hpop2)%elem_of_group Heq.
  apply (Hcons _ _ H1 H2). simpl.
  destruct (Huni _ H1) as [Hwf1 _]. destruct (Huni _ H2) as [Hwf2 _].
  simpl in *. apply dict_eqb_true; [done..|].
  assert (Heq' : forall k, lookup_item k (e1.1) = lookup_item k (e2.1)).
  { destruct (pop_wf _ _ _ _ Hwf1 Hpop1) as [Hwf1' _].
    destruct (pop_wf _ _ _ _ Hwf2 Hpop2) as [Hwf2' _].
    by apply dict_eqb_true. }
  apply pop_Ok in Hpop1 as (Hl1 & _ & Ho1). apply pop_Ok in Hpop2 as (Hl2 & _ & Ho2).
  intros k. destruct (decide (k = a)) as [->|Hne]; [congruence|].
  by rewrite <- Ho1, <- Ho2, Heq'.
Qed.

Lemma consistent_one_output (exemplars : list exemplar) :
  consistent exemplars -> inputs_all_same exemplars = true ->
  length (set_iter (exemplars.*2)) <= 1.
Proof.
  intros Hcons Hsame.
  destruct (set_iter (exemplars.*2)) as [|x [|y l]] eqn:Hs; simpl; [lia..|].
  exfalso. pose proof (set_iter_NoDup (exemplars.*2)) as Hnd. rewrite Hs in Hnd.
  assert (Hx : x ∈ exemplars.*2) by (apply set_iter_elem; rewrite Hs; left).
  assert (Hy : y ∈ exemplars.*2)
    by (apply set_iter_elem; rewrite Hs; right; left).
  apply list_elem_of_fmap in Hx as (e1 & -> & H1).
  apply list_elem_of_fmap in Hy as (e2 & -> & H2).
  apply NoDup_cons in Hnd as [Hnd _]. apply Hnd.
  rewrite (Hcons e1 e2 H1 H2); [left|].
  rewrite inputs_all_same_true in Hsame. auto.
Qed.

(** The tree returns the output of every exemplar it was built from, on all
    inputs that agree with the exemplar on the names. *)
Lemma id3_helper_correct (fuel : nat) (names : list Attr)
    (exemplars : list exemplar) (t : tree) :
  uniform names exemplars -> consistent exemplars ->
  id3_helper fuel exemplars = Ok t ->
  forall e inputs,
    e ∈ exemplars ->
    (forall k, k ∈ names -> lookup_item k inputs = lookup_item k (e.1)) ->
    call t inputs = Ok (Some (e.2)).
Proof.
  revert names exemplars t.
  induction fuel as [|fuel IH]; intros names exemplars t Huni Hcons Ht; [done|].
  apply id3_helper_Ok in Ht
    as [-> _|e0 rest He0 Hall ->|Hlen Hsame _|best pairs _ _ Hbest Hpairs ->];
    intros e inputs He Hagree.
  - by apply elem_of_nil in He.
  - simpl. by rewrite (Hall _ He).
  - pose proof (consistent_one_output _ Hcons Hsame). lia.
  - apply find_best_attr_Ok in Hbest
      as (e0 & rest & He0 & [[? _]|(b & [= <-] & Ha & Hparts & _)]); [done|].
    destruct (Huni e0) as [_ Hkeys0]; [rewrite He0; left|].
    rewrite Hkeys0 in Ha.
    destruct (Huni _ He) as [Hwf Hkeys].
    assert (Hnd : NoDup names) by by rewrite <- Hkeys.
    destruct (proj2 (lookup_item_is_Some (attr best) (e.1))) as [v Hv].
    { by rewrite Hkeys. }
    assert (Hv' : lookup_item (attr best) inputs = Some v) by by rewrite Hagree.
    destruct (call_built_node _ _ _ _ _ _ _ Hparts Hpairs Hv')
      as (sub & Hsub & _ & ->).
    { apply (partition_on_values _ _ _ Hparts). eauto. }
    destruct (pop_lookup _ _ _ Hv) as [d' Hpop].
    pose proof Ha as [names' Hnames]%elem_of_Permutation.
    apply (IH names' _ _ (uniform_group _ _ _ _ v Huni Hnames)
             (consistent_group _ _ _ v Huni Hcons) Hsub (d', e.2)).
    + apply elem_of_group. exists (e.1). split; [by destruct e|done].
    + intros k Hk. simpl. apply pop_Ok in Hpop as (_ & _ & Ho).
      rewrite Hnames in Hnd. apply NoDup_cons in Hnd as [Hnotin _].
      rewrite Ho; [|by intros ->]. apply Hagree. rewrite Hnames. by right.
Qed.

(** C1. On exemplars whose [inputs] all have the same names as keys, and in
    which equal [inputs] always come with the same output, [id3] returns a
    tree and [validate] on that tree with the same exemplars returns [True]. *)
Theorem id3_validates (names : list Attr) (exemplars : list exemplar) :
  uniform names exemplars -> consistent exemplars ->
  exists t, id3 exemplars = Ok t /\ validate t exemplars = Ok true.
Proof.
  intros Huni Hcons.
  destruct (id3_uniform_Ok names exemplars Huni) as (t & Ht & _).
  exists t. split; [done|].
  assert (Hall : forall l, l ⊆ exemplars -> validate t l = Ok true);
    [|by apply Hall].
  induction l as [|[inputs output] l IH]; intros Hsub; simpl; [done|].
  rewrite (id3_helper_correct _ names exemplars t Huni Hcons Ht
             (inputs, output) inputs); [|apply Hsub; left|done].
  simpl. rewrite decide_False; [|by intros ?].
  apply IH. intros x Hx. apply Hsub. by right.
Qed.

(** ** The inverse query *)

Lemma get_inputs_node (name : Attr) (pairs : list (Value * tree))
    (output : Output) (input : dict) (inputs : list dict) :
  get_inputs (TNode name pairs) output input inputs =
  get_inputs_pairs name output pairs input inputs.
Proof.
  simpl. revert input inputs.
  induction pairs as [|[v sub] pairs IH]; intros input inputs; simpl; [done|].
  by rewrite IH.
Qed.

Lemma lookup_setitem (k : Attr) (v : Value) (d : dict) :
  lookup_item k (setitem k v d) = Some v.
Proof.
  induction d as [|[k' v'] d IH]; simpl.
  - by rewrite decide_True.
  - destruct (decide (k = k')) as [->|Hne]; simpl.
    + by rewrite decide_True.
    + by rewrite decide_False.
Qed.

Lemma lookup_setitem_ne (k k' : Attr) (v : Value) (d : dict) :
  k' <> k -> lookup_item k' (setitem k v d) = lookup_item k' d.
Proof.
  intros Hne. induction d as [|[k0 v0] d IH]; simpl.
  - by rewrite decide_False.
  - destruct (decide (k = k0)) as [->|Hne0]; simpl.
    + by rewrite !decide_False.
    + by rewrite IH.
Qed.

Lemma node_names_elem (name : Attr) (pairs : list (Value * tree)) (k : Attr) :
  k ∈ node_names (TNode name pairs) <->
  k = name \/ exists v sub, (v, sub) ∈ pairs /\ k ∈ node_names sub.
Proof.
  cbn [node_names]. rewrite elem_of_cons.
  apply or_iff_compat_l.
  induction pairs as [|[v sub] pairs IH].
  - split; [by intros ?%elem_of_nil|]. by intros (? & ? & ?%elem_of_nil & _).
  - rewrite elem_of_app, IH. split.
    + intros [Hk|(v' & sub' & Hin & Hk)].
      * exists v, sub. split; [left|done].
      * exists v', sub'. split; [by right|done].
    + intros (v' & sub' & [[= -> ->]|Hin]%elem_of_cons & Hk); [by left|].
      right. eauto.
Qed.

(** What the loop over the pairs [ps] adds to the list: every added dict
    makes the whole node return [output], also when extended, and differs
    from [input] on names of the node only. *)
Lemma get_inputs_pairs_spec (name : Attr) (pairs : list (Value * tree))
    (output : Output) :
  NoDup (pairs.*1) ->
  (forall v sub, (v, sub) ∈ pairs -> name ∉ node_names sub) ->
  (forall v sub, (v, sub) ∈ pairs ->
     forall input inputs, exists new,
       get_inputs sub output input inputs = inputs ++ new /\
       forall a, a ∈ new ->
         (forall a', extends a a' -> call sub a' = Ok (Some output)) /\
         (forall k, k ∉ node_names sub -> lookup_item k a = lookup_item k input)) ->
  forall ps input inputs,
    ps ⊆ pairs ->
    exists new,
      get_inputs_pairs name output ps input inputs = inputs ++ new /\
      forall a, a ∈ new ->
        (forall a', extends a a' ->
                    call (TNode name pairs) a' = Ok (Some output)) /\
        (forall k, k ∉ node_names (TNode name pairs) ->
                   lookup_item k a = lookup_item k input).
Proof.
  intros Hnd Hname Hsubs.
  assert (Hstep : forall v sub a a',
    (v, sub) ∈ pairs -> lookup_item name a = Some v -> extends a a' ->
    call (TNode name pairs) a' = call sub a').
  { intros v sub a a' Hin Hv Hext. rewrite call_node.
    apply Hext, getitem_Ok in Hv. rewrite Hv. simpl.
    by rewrite (get_subnode_NoDup _ _ _ Hnd Hin). }
  induction ps as [|[v sub] ps IH]; intros input inputs Hps; cbn [get_inputs_pairs].
  - exists []. split; [by rewrite app_nil_r|]. by intros a ?%elem_of_nil.
  - cbn zeta. assert (Hin : (v, sub) ∈ pairs) by (apply Hps; left).
    assert (Hps' : ps ⊆ pairs) by (intros x Hx; apply Hps; by right).
    set (input' := setitem name v input).
    assert (Hframe : forall k, k ∉ node_names (TNode name pairs) ->
                               lookup_item k input' = lookup_item k input).
    { intros k Hk. apply lookup_setitem_ne. intros ->. apply Hk.
      apply node_names_elem. by left. }
    assert (Hhere : exists new1,
      match sub with
      | TNode _ _ => get_inputs sub output input' inputs
      | TLeaf o => if decide (o = output) then inputs ++ [input'] else inputs
      | TNone => inputs
      end = inputs ++ new1 /\
      forall a, a ∈ new1 ->
        (forall a', extends a a' ->
                    call (TNode name pairs) a' = Ok (Some output)) /\
        (forall k, k ∉ node_names (TNode name pairs) ->
                   lookup_item k a = lookup_item k input)).
    { destruct sub as [|o|n ps'] eqn:Hsub.
      - exists []. split; [by rewrite app_nil_r|]. by intros a ?%elem_of_nil.
      - destruct (decide (o = output)) as [->|Hne].
        + exists [input']. split; [done|].
          intros a ->%list_elem_of_singleton. split; [|done].
          intros a' Hext. rewrite (Hstep v (TLeaf output) input' a'); try done.
          apply lookup_setitem.
        + exists []. split; [by rewrite app_nil_r|]. by intros a ?%elem_of_nil.
      - destruct (Hsubs _ _ Hin input' inputs) as (new1 & Hnew1 & Hall).
        exists new1. split; [done|]. intros a Ha.
        destruct (Hall _ Ha) as [Hcall Hfr]. split.
        + intros a' Hext. rewrite (Hstep v (TNode n ps') a a'); auto.
          rewrite Hfr; [apply lookup_setitem|]. by eapply Hname.
        + intros k Hk. rewrite Hfr; [by apply Hframe|].
          intros Hk'. apply Hk, node_names_elem. right. eauto. }
    destruct Hhere as (new1 & -> & Hnew1).
    destruct (IH input' (inputs ++ new1) Hps') as (new2 & -> & Hnew2).
    exists (new1 ++ new2). split; [by rewrite app_assoc|].
    intros a [Ha|Ha]%elem_of_app; [by apply Hnew1|].
    destruct (Hnew2 _ Ha) as [Hcall Hfr]. split; [done|].
    intros k Hk. rewrite Hfr; auto.
Qed.

Lemma get_inputs_spec (node : tree) (output : Output) :
  tree_wf node ->
  forall input inputs, exists new,
    get_inputs node output input inputs = inputs ++ new /\
    forall a, a ∈ new ->
      (forall a', extends a a' -> call node a' = Ok (Some output)) /\
      (forall k, k ∉ node_names node -> lookup_item k a = lookup_item k input).
Proof.
  induction 1 as [|o|name pairs Hnd _ IH Hname]; intros input inputs.
  - exists []. split; [by rewrite app_nil_r|]. by intros a ?%elem_of_nil.
  - exists []. split; [by rewrite app_nil_r|]. by intros a ?%elem_of_nil.
  - rewrite get_inputs_node.
    by apply (get_inputs_pairs_spec name pairs output Hnd Hname IH).
Qed.

(** The trees that [id3_helper] builds are well formed, and the names of
    their nodes are keys of exemplars. *)
Lemma id3_helper_wf (fuel : nat) (exemplars : list exemplar) (t : tree) :
  (forall e, e ∈ exemplars -> dict_wf (e.1)) ->
  id3_helper fuel exemplars = Ok t ->
  tree_wf t /\
  forall k, k ∈ node_names t -> exists e, e ∈ exemplars /\ k ∈ keys (e.1).
Proof.
  revert exemplars t.
  induction fuel as [|fuel IH]; intros exemplars t Hwf Ht; [done|].
  apply id3_helper_Ok in Ht
    as [-> ->|e0 rest He0 Hall ->|Hlen Hsame ->|best pairs _ _ Hbest Hpairs ->].
  - split; [constructor|]. by intros k ?%elem_of_nil.
  - split; [constructor|]. by intros k ?%elem_of_nil.
  - destruct (most_common_output_spec (exemplars.*2)) as (o & -> & _).
    { intros Hnil. rewrite Hnil, set_iter_nil in Hlen. simpl in Hlen. lia. }
    split; [constructor|]. by intros k ?%elem_of_nil.
  - apply find_best_attr_Ok in Hbest
      as (e0 & rest & He0 & [[? _]|(b & [= <-] & Ha & Hparts & _)]); [done|].
    assert (Hsub : forall v sub, (v, sub) ∈ pairs ->
      tree_wf sub /\
      forall k, k ∈ node_names sub ->
        k <> attr best /\ exists e, e ∈ exemplars /\ k ∈ keys (e.1)).
    { intros v sub Hin.
      destruct (built_pairs_elem_r _ _ _ _ _ Hpairs Hin) as (part & Hpart & Hbuilt).
      destruct (partition_on_groups _ _ _ _ _ Hparts Hpart) as (-> & _).
      assert (Hgroup : forall e', e' ∈ group (attr best) v exemplars ->
        dict_wf (e'.1) /\ (attr best ∉ keys (e'.1)) /\
        exists e, e ∈ exemplars /\ keys (e.1) ≡ₚ attr best :: keys (e'.1)).
      { intros e' (d & Hd & Hpop)%elem_of_group.
        destruct (pop_wf _ _ _ _ (Hwf _ Hd) Hpop) as [Hwf' Hnotin].
        split_and!; [done..|]. exists (d, e'.2). split; [done|].
        by apply pop_Ok in Hpop as (_ & Hperm & _). }
      destruct (IH _ _ (fun e' He' => proj1 (Hgroup e' He')) Hbuilt)
        as [Hwfsub Hnames].
      split; [done|]. intros k (e' & He' & Hk)%Hnames.
      destruct (Hgroup _ He') as (_ & Hnotin & e & He & Hperm).
      split; [by intros ->|]. exists e. split; [done|].
      rewrite Hperm. by right. }
    split.
    + constructor.
      * rewrite (built_pairs_values _ _ _ Hpairs).
        by apply (partition_on_values _ _ _ Hparts).
      * intros v sub Hin. by apply (Hsub v sub).
      * intros v sub Hin Hk. destruct (Hsub v sub Hin) as [_ Hnames].
        by destruct (Hnames _ Hk).
    + intros k [->|(v & sub & Hin & Hk)]%node_names_elem.
      * exists e0. split; [rewrite He0; left|done].
      * destruct (Hsub v sub Hin) as [_ Hnames]. by destruct (Hnames _ Hk).
Qed.

(** C6. For a tree built by [id3] and an output value, every dict in the
    list returned by [get_inputs_for_output], extended in any way by items
    for other keys, makes the tree return that output value. *)
Theorem get_inputs_for_output_call (exemplars : list exemplar) (t : tree)
    (output : Output) (a a' : dict) :
  (forall e, e ∈ exemplars -> dict_wf (e.1)) ->
  id3 exemplars = Ok t ->
  a ∈ get_inputs_for_output t output ->
  extends a a' ->
  call t a' = Ok (Some output).
Proof.
  intros Hwf Ht Ha Hext.
  destruct (id3_helper_wf _ _ _ Hwf Ht) as [Htree _].
  unfold get_inputs_for_output in Ha.
  destruct t as [|o|name pairs]; [by apply elem_of_nil in Ha..|].
  destruct (get_inputs_spec _ output Htree [] []) as (new & Hnew & Hall).
  rewrite Hnew in Ha. simpl in Ha. by apply (Hall _ Ha).
Qed.

(** ** Values that were not seen in training *)

Lemma id3_helper_nil (fuel : nat) : id3_helper (S fuel) [] = Ok (TNone : tree).
Proof. apply id3_helper_Ok. by constructor 1. Qed.

(** Every node that the traversal visits is the tree built from the
    exemplars it is paired with. *)
Lemma visits_built_inv (inputs : dict) (exemplars partition : list exemplar)
    (root_node node : tree) :
  (exists fuel, id3_helper fuel exemplars = Ok root_node) ->
  visits_built inputs exemplars root_node partition node ->
  (exists fuel, id3_helper fuel partition = Ok node) /\
  visits inputs root_node node.
Proof.
  intros Hroot. induction 1 as [|partition name pairs input _ [[fuel Hb] Hvis] Hin].
  - split; [done|constructor].
  - split; [|by econstructor].
    destruct fuel as [|fuel]; [done|].
    apply id3_helper_Ok in Hb
      as [_ ?|? ? _ _ ?|_ _ Hmc|best pairs' _ _ Hbest Hpairs [= -> ->]]; try done.
    { destruct (most_common_output_spec (partition.*2)) as (o & Ho & _).
      - intros Hnil%fmap_nil_inv. rewrite Hnil in Hmc. simpl in Hmc.
        unfold most_common_output in Hmc. csimpl in Hmc.
        by rewrite set_iter_nil in Hmc.
      - congruence. }
    apply find_best_attr_Ok in Hbest
      as (e0 & rest & He0 & [[? _]|(b & [= <-] & Ha & Hparts & _)]); [done|].
    destruct (decide (input ∈ (partitions best).*1)) as [Hseen|Hunseen].
    + destruct (call_built_node _ _ _ _ _ _ _ Hparts Hpairs Hin Hseen)
        as (sub & Hsub & -> & _). eauto.
    + rewrite get_subnode_missing;
        [|by rewrite (built_pairs_values _ _ _ Hpairs)].
      exists 1. assert (group (attr best) input partition = []) as ->;
        [|apply id3_helper_nil].
      apply elem_of_nil_inv. intros e' (d & Hd & Hpop)%elem_of_group.
      apply Hunseen, (partition_on_values _ _ _ Hparts).
      exists (d, e'.2). split; [done|]. by apply pop_Ok in Hpop as (? & _).
Qed.

(** C7. In a tree built from exemplars, when the traversal visits a node and
    the inputs give the name of that node a value that none of the
    exemplars the node was built from gives it, the call returns [None],
    which is no output value, and raises nothing. *)
Theorem call_unseen_value (exemplars partition : list exemplar)
    (root_node : tree) (inputs : dict) (name : Attr)
    (pairs : list (Value * tree)) (input : Value) :
  id3 exemplars = Ok root_node ->
  visits_built inputs exemplars root_node partition (TNode name pairs) ->
  lookup_item name inputs = Some input ->
  (forall e, e ∈ partition -> lookup_item name (e.1) <> Some input) ->
  call root_node inputs = Ok None /\
  forall o, call root_node inputs <> Ok (Some o).
Proof.
  intros Hroot Hvis Hin Hunseen.
  assert (Hcall : call root_node inputs = Ok None); [|by rewrite Hcall].
  destruct (visits_built_inv _ _ _ _ _ (ex_intro _ _ Hroot) Hvis)
    as [[fuel Hb] Hv].
  rewrite (call_visits _ _ _ Hv), call_node.
  apply getitem_Ok in Hin as Hget. rewrite Hget. cbn [bind].
  rewrite get_subnode_missing; [done|].
  destruct fuel as [|fuel]; [done|].
  apply id3_helper_Ok in Hb
    as [_ ?|? ? _ _ ?|_ _ Hmc|best pairs' _ _ Hbest Hpairs [= -> ->]]; try done.
  { destruct (most_common_output_spec (partition.*2)) as (o & Ho & _);
      [|congruence].
    intros Hnil%fmap_nil_inv. rewrite Hnil in Hmc. simpl in Hmc.
    unfold most_common_output in Hmc. csimpl in Hmc.
    by rewrite set_iter_nil in Hmc. }
  apply find_best_attr_Ok in Hbest
    as (e0 & rest & He0 & [[? _]|(b & [= <-] & Ha & Hparts & _)]); [done|].
  rewrite (built_pairs_values _ _ _ Hpairs).
  intros (e & He & Hl)%(partition_on_values _ _ _ Hparts).
  by apply (Hunseen e).
Qed.

(** ** The selected attribute has the first smallest score *)

Lemma consider_score (exemplars : list exemplar) (best_attr : option best_attr_t)
    (a : Attr) (r : option best_attr_t) :
  consider exemplars best_attr a = Ok r ->
  exists s,
    attr_score a exemplars = Ok s /\
    match best_attr with
    | None => exists parts, r = Some (BestAttr a s parts)
    | Some best =>
        if Fltb s (entropy best) then exists parts, r = Some (BestAttr a s parts)
        else r = best_attr
    end.
Proof.
  unfold consider, attr_score. intros (parts & -> & Hr)%bind_Ok. cbn [bind].
  eexists. split; [done|]. destruct best_attr as [best|].
  - destruct (Fltb _ _); injection Hr as <-; eauto.
  - injection Hr as <-; eauto.
Qed.

Lemma best_loop_first_smallest `{!FloatOrder FL} (exemplars : list exemplar)
    (names seen : list Attr) (best : best_attr_t) (r : option best_attr_t) :
  for_each (consider exemplars) names (Some best) = Ok r ->
  first_smallest exemplars seen best ->
  exists best', r = Some best' /\ first_smallest exemplars (seen ++ names) best'.
Proof.
  revert seen best. induction names as [|a names IH]; intros seen best.
  - simpl. intros [= <-] Hbest. exists best. by rewrite app_nil_r.
  - cbn [for_each]. intros (r1 & Hc & Hrest)%bind_Ok Hbest.
    apply consider_score in Hc as (s & Hs & Hr1).
    destruct Hbest as (before & after & -> & Hscore & Hbefore & Hafter).
    replace ((before ++ attr best :: after) ++ a :: names)
      with (((before ++ attr best :: after) ++ [a]) ++ names)
      by by rewrite <- !app_assoc.
    destruct (Fltb s (entropy best)) eqn:Hlt.
    + destruct Hr1 as [parts ->]. apply (IH _ _ Hrest).
      exists (before ++ attr best :: after), []. split_and!; simpl; [done..| |].
      * intros b [Hb|[->|Hb]%elem_of_cons]%elem_of_app.
        -- destruct (Hbefore _ Hb) as (sb & Hsb & Hltb). exists sb.
           split; [done|]. by eapply Fltb_trans.
        -- by exists (entropy best).
        -- destruct (Hafter _ Hb) as (sb & Hsb & Hge). exists sb.
           split; [done|]. by eapply Fltb_le_trans.
      * by intros b ?%elem_of_nil.
    + subst r1. apply (IH _ _ Hrest).
      exists before, (after ++ [a]). split_and!; [by rewrite <- app_assoc|done..|].
      intros b [Hb|Hb%list_elem_of_singleton]%elem_of_app; [auto|].
      subst b. by exists s.
Qed.

(** C2. A call that reaches the selection of the attribute selects, among
    the keys of the [inputs] of the first exemplar, in their order, the one
    with the smallest score, and the first of these when several have the
    smallest score; the node that the call returns has this name. *)
Theorem find_best_attr_first_smallest `{!FloatOrder FL}
    (exemplars : list exemplar) :
  (forall best,
     find_best_attr exemplars = Ok (Some best) ->
     exists exemplar0,
       first exemplars = Ok exemplar0 /\
       first_smallest exemplars (keys (exemplar0.1)) best) /\
  (forall fuel name pairs,
     id3_helper (S fuel) exemplars = Ok (TNode name pairs) ->
     exists best,
       find_best_attr exemplars = Ok (Some best) /\ attr best = name).
Proof.
  split.
  - intros best Hbest. unfold find_best_attr in Hbest.
    apply bind_Ok in Hbest as (e0 & He0 & Hloop). exists e0. split; [done|].
    destruct (keys (e0.1)) as [|a names]; [done|].
    cbn [for_each] in Hloop. apply bind_Ok in Hloop as (r1 & Hc & Hrest).
    apply consider_score in Hc as (s & Hs & parts & ->).
    destruct (best_loop_first_smallest exemplars names [a] _ _ Hrest)
      as (best' & [= <-] & Hfs); [|done].
    exists [], []. split_and!; simpl; [done..| |]; by intros b ?%elem_of_nil.
  - intros fuel name pairs Hnode. apply id3_helper_Ok in Hnode
      as [_ ?|? ? _ _ ?|Hlen _ Hmc|best pairs' _ _ Hbest _ [= -> ->]]; try done.
    + destruct (most_common_output_spec (exemplars.*2)) as (o & Ho & _);
        [|congruence].
      intros Hnil. rewrite Hnil, set_iter_nil in Hlen. simpl in Hlen. lia.
    + by exists best.
Qed.

(** C10. Validation against no exemplars succeeds for every tree, the tree
    built from no exemplars included. *)
Theorem validate_no_exemplars :
  (forall root_node : tree, validate root_node [] = Ok true) /\
  id3 [] = Ok (TNone : tree) /\
  (forall root_node : tree, id3 [] = Ok root_node ->
                            validate root_node [] = Ok true).
Proof.
  split_and!; [done| |done].
  unfold id3. simpl. rewrite decide_True; [done|].
  by rewrite set_iter_nil.
Qed.

End Properties.

(** * The score *)

Section Score.

Context {Attr Value Output : Type}.
Context `{EqDecision Attr, EqDecision Value, EqDecision Output}.
Context {value_sets : PySet Value} {output_sets : PySet Output}.
Context {FL : Float} `{!FloatLaws FL}.

Abbreviation sexemplar := (@exemplar Attr Value Output).
Abbreviation spartitions := (@partitions_t Attr Value Output).

Lemma count_le_length (l : list Output) (x : Output) : count l x <= length l.
Proof. unfold count. apply length_filter. Qed.

Lemma count_all (l : list Output) (x : Output) :
  (forall y, y ∈ l -> y = x) -> count l x = length l.
Proof.
  unfold count. induction l as [|y l IH]; intros Hall; [done|].
  rewrite filter_cons, decide_True; [|apply Hall; left]. simpl. f_equal.
  apply IH. intros z Hz. apply Hall. by right.
Qed.

Lemma count_lt_length (l : list Output) (x z : Output) :
  z ∈ l -> z <> x -> count l x < length l.
Proof.
  unfold count. induction l as [|y l IH]; intros Hz Hne;
    [by apply elem_of_nil in Hz|].
  rewrite filter_cons.
  pose proof (length_filter (fun y => y = x) l) as Hle.
  destruct (decide (y = x)) as [->|Hy]; simpl; [|lia].
  apply elem_of_cons in Hz as [->|Hz]; [done|].
  specialize (IH Hz Hne). lia.
Qed.

Lemma set_iter_pure (outputs : list Output) (o : Output) :
  outputs <> [] -> (forall y, y ∈ outputs -> y = o) -> set_iter outputs = [o].
Proof.
  intros Hne Hall.
  pose proof (set_iter_NoDup outputs) as Hnd.
  assert (Hin : forall y, y ∈ set_iter outputs -> y = o).
  { intros y Hy. by apply Hall, set_iter_elem. }
  destruct outputs as [|x outputs']; [done|].
  assert (Hx : x ∈ set_iter (x :: outputs')) by (apply set_iter_elem; left).
  destruct (set_iter (x :: outputs')) as [|a [|b l]].
  - by apply elem_of_nil in Hx.
  - f_equal. apply Hin. left.
  - exfalso. apply NoDup_cons in Hnd as [Hnd _]. apply Hnd.
    rewrite (Hin a), (Hin b); [left|right; left|left].
Qed.

(** The loop over the outputs of a partition, on a part of the set. *)
Lemma outputs_loop_nonneg (outputs l : list Output) (acc : score) :
  exact_count (length outputs) ->
  (forall o, o ∈ l -> o ∈ outputs) ->
  Fltb acc Fzero = false ->
  Fltb (fold_left
          (fun attr_entropy output =>
             Fsub attr_entropy
               (Fmul (count outputs output)
                  (Flog2 (Fdiv (count outputs output) (length outputs)))))
          l acc) Fzero = false.
Proof.
  intros Hsize. revert acc.
  induction l as [|o l IH]; intros acc Hl Hacc; [done|].
  cbn [fold_left]. apply IH; [intros o' Ho'; apply Hl; by right|].
  apply Fsub_nonneg; [done|].
  apply Fterm_nonpos; [|apply count_le_length|done].
  apply count_pos, Hl. left.
Qed.

Lemma outputs_loop_pos_keep (outputs l : list Output) (acc : score) :
  exact_count (length outputs) ->
  (forall o, o ∈ l -> o ∈ outputs) ->
  Fltb Fzero acc = true ->
  Fltb Fzero
    (fold_left
       (fun attr_entropy output =>
          Fsub attr_entropy
            (Fmul (count outputs output)
               (Flog2 (Fdiv (count outputs output) (length outputs)))))
       l acc) = true.
Proof.
  intros Hsize. revert acc.
  induction l as [|o l IH]; intros acc Hl Hacc; [done|].
  cbn [fold_left]. apply IH; [intros o' Ho'; apply Hl; by right|].
  apply Fsub_pos_keep; [done|].
  apply Fterm_nonpos; [|apply count_le_length|done].
  apply count_pos, Hl. left.
Qed.

Lemma outputs_entropy_nonneg (acc : score) (outputs : list Output) :
  exact_count (length outputs) ->
  Fltb acc Fzero = false -> Fltb (outputs_entropy acc outputs) Fzero = false.
Proof.
  intros Hsize Hacc. unfold outputs_entropy. cbn zeta.
  apply outputs_loop_nonneg; [done| |done]. intros o. apply set_iter_elem.
Qed.

Lemma outputs_entropy_pos_keep (acc : score) (outputs : list Output) :
  exact_count (length outputs) ->
  Fltb Fzero acc = true -> Fltb Fzero (outputs_entropy acc outputs) = true.
Proof.
  intros Hsize Hacc. unfold outputs_entropy. cbn zeta.
  apply outputs_loop_pos_keep; [done| |done]. intros o. apply set_iter_elem.
Qed.

(** Outputs of one value leave the running score as it is. *)
Lemma outputs_entropy_pure (acc : score) (outputs : list Output) :
  exact_count (length outputs) ->
  (forall y z, y ∈ outputs -> z ∈ outputs -> y = z) ->
  outputs_entropy acc outputs = acc.
Proof.
  intros Hsize Hpure. unfold outputs_entropy. cbn zeta.
  destruct outputs as [|o outputs'] eqn:Hout; [by rewrite set_iter_nil|].
  rewrite <- Hout in *.
  assert (Hall : forall y, y ∈ outputs -> y = o).
  { intros y Hy. apply Hpure; [done|]. rewrite Hout. left. }
  rewrite (set_iter_pure outputs o); [|by rewrite Hout|done].
  cbn [fold_left]. rewrite (count_all _ _ Hall).
  rewrite Fterm_one; [apply Fsub_zero| |done]. rewrite Hout. simpl. lia.
Qed.

(** Outputs of two values make the running score positive. *)
Lemma outputs_entropy_pos (acc : score) (outputs : list Output) (y z : Output) :
  Fltb acc Fzero = false ->
  y ∈ outputs -> z ∈ outputs -> y <> z ->
  exact_count (length outputs) ->
  Fltb Fzero (outputs_entropy acc outputs) = true.
Proof.
  intros Hacc Hy Hz Hne Hsize. unfold outputs_entropy. cbn zeta.
  assert (Hy' : y ∈ set_iter outputs) by by apply set_iter_elem.
  apply list_elem_of_split in Hy' as (l1 & l2 & Hsplit).
  assert (Hsub : forall o, o ∈ set_iter outputs -> o ∈ outputs).
  { intros o. apply set_iter_elem. }
  rewrite Hsplit in Hsub |- *. rewrite fold_left_app. cbn [fold_left].
  apply outputs_loop_pos_keep; [done| |].
  { intros o Ho. apply Hsub, elem_of_app. right. by right. }
  apply Fsub_pos.
  - apply outputs_loop_nonneg; [done| |done].
    intros o Ho. apply Hsub, elem_of_app. by left.
  - apply Fterm_neg; [by apply count_pos| |done].
    apply (count_lt_length outputs y z); [done|by intros ->].
Qed.

(** The loop over the partitions. *)
Lemma partitions_loop_nonneg (parts : spartitions) (acc : score) :
  (forall v part, (v, part) ∈ parts -> exact_count (length part)) ->
  Fltb acc Fzero = false ->
  Fltb (fold_left
          (fun attr_entropy '(_, partition) =>
             outputs_entropy attr_entropy (partition.*2))
          parts acc) Fzero = false.
Proof.
  revert acc.
  induction parts as [|[v part] parts IH]; intros acc Hsize Hacc; [done|].
  cbn [fold_left]. apply IH; [intros v' part' Hin; apply (Hsize v'); by right|].
  apply outputs_entropy_nonneg; [|done].
  rewrite length_fmap. apply (Hsize v). left.
Qed.

Lemma partitions_loop_pos_keep (parts : spartitions) (acc : score) :
  (forall v part, (v, part) ∈ parts -> exact_count (length part)) ->
  Fltb Fzero acc = true ->
  Fltb Fzero
    (fold_left
       (fun attr_entropy '(_, partition) =>
          outputs_entropy attr_entropy (partition.*2))
       parts acc) = true.
Proof.
  revert acc.
  induction parts as [|[v part] parts IH]; intros acc Hsize Hacc; [done|].
  cbn [fold_left]. apply IH; [intros v' part' Hin; apply (Hsize v'); by right|].
  apply outputs_entropy_pos_keep; [|done].
  rewrite length_fmap. apply (Hsize v). left.
Qed.

Lemma attr_entropy_nonneg (parts : spartitions) :
  (forall v part, (v, part) ∈ parts -> exact_count (length part)) ->
  Fltb (attr_entropy_of parts) Fzero = false.
Proof. intros Hsize. apply partitions_loop_nonneg; [done|apply Fltb_zero]. Qed.

Lemma attr_entropy_pure (parts : spartitions) :
  (forall v part, (v, part) ∈ parts -> exact_count (length part)) ->
  (forall v part, (v, part) ∈ parts -> pure_outputs part) ->
  attr_entropy_of parts = Fzero.
Proof.
  unfold attr_entropy_of. generalize (Fzero : score) as acc.
  induction parts as [|[v part] parts IH]; intros acc Hsize Hpure; [done|].
  cbn [fold_left]. rewrite outputs_entropy_pure.
  - apply IH; intros v' part' Hin; [apply (Hsize v')|apply (Hpure v')];
      by right.
  - rewrite length_fmap. apply (Hsize v). left.
  - intros y z (e & -> & He)%list_elem_of_fmap (e' & -> & He')%list_elem_of_fmap.
    apply (Hpure v part); [left|done..].
Qed.

Lemma attr_entropy_pos (parts : spartitions) (v : Value)
    (part : list sexemplar) (e e' : sexemplar) :
  (forall v part, (v, part) ∈ parts -> exact_count (length part)) ->
  (v, part) ∈ parts -> e ∈ part -> e' ∈ part -> e.2 <> e'.2 ->
  Fltb Fzero (attr_entropy_of parts) = true.
Proof.
  intros Hsize Hin He He' Hne. unfold attr_entropy_of.
  apply list_elem_of_split in Hin as (l1 & l2 & ->).
  rewrite fold_left_app. cbn [fold_left].
  apply partitions_loop_pos_keep.
  { intros v' part' Hin. apply (Hsize v'), elem_of_app. right. by right. }
  apply (outputs_entropy_pos _ _ (e.2) (e'.2)); [| | |done|].
  - apply partitions_loop_nonneg; [|apply Fltb_zero].
    intros v' part' Hin. apply (Hsize v'), elem_of_app. by left.
  - apply list_elem_of_fmap. by exists e.
  - apply list_elem_of_fmap. by exists e'.
  - rewrite length_fmap. apply (Hsize v), elem_of_app. right. left.
Qed.

(** The score is zero exactly for partitions of one output each. *)
Lemma attr_entropy_zero_iff (parts : spartitions) :
  (forall v part, (v, part) ∈ parts -> exact_count (length part)) ->
  attr_entropy_of parts = Fzero <->
  forall v part, (v, part) ∈ parts -> pure_outputs part.
Proof.
  intros Hsize. split; [|by apply attr_entropy_pure].
  intros Hzero v part Hin e e' He He'.
  destruct (decide (e.2 = e'.2)) as [|Hne]; [done|].
  pose proof (attr_entropy_pos parts v part e e' Hsize Hin He He' Hne) as Hpos.
  rewrite Hzero, Fltb_zero in Hpos. done.
Qed.

(** The outputs of a partition are those of the exemplars having the value. *)
Lemma group_outputs (a : Attr) (v : Value) (exemplars : list sexemplar) :
  (group a v exemplars).*2 = (value_group a v exemplars).*2.
Proof.
  unfold value_group. induction exemplars as [|[d o] exemplars IH]; [done|].
  rewrite filter_cons. cbn [fst].
  destruct (lookup_item a d) as [w|] eqn:Hl.
  - destruct (pop_lookup _ _ _ Hl) as [d' Hpop].
    rewrite (group_cons a v d o exemplars w d' Hpop).
    destruct (decide (w = v)) as [->|Hne].
    + rewrite decide_True; [|done]. csimpl. by rewrite IH.
    + rewrite decide_False; [done|congruence].
  - rewrite decide_False; [|done]. etrans; [|exact IH]. unfold group. simpl.
    by rewrite (pop_KeyError _ _ Hl).
Qed.

Lemma observed_values_all (a : Attr) (exemplars : list sexemplar)
    (values : list Value) :
  Forall2 (fun (e : sexemplar) v => lookup_item a (e.1) = Some v) exemplars values ->
  observed_values a exemplars = values.
Proof.
  unfold observed_values. induction 1 as [|e v exemplars values Hl _ IH]; [done|].
  csimpl. rewrite Hl. csimpl. by rewrite IH.
Qed.

Lemma group_length (a : Attr) (v : Value) (exemplars : list sexemplar) :
  length (group a v exemplars) <= length exemplars.
Proof.
  unfold group. induction exemplars as [|e exemplars IH]; [done|]. csimpl.
  destruct e as [d o]. destruct (pop a d) as [[w d']| | | |]; simpl; try lia.
  destruct (decide (w = v)); simpl; lia.
Qed.

Lemma partition_sizes_bound (a : Attr) (exemplars : list sexemplar)
    (parts : spartitions) :
  partition_on a exemplars = Ok parts ->
  exact_count (length exemplars) ->
  forall v part, (v, part) ∈ parts -> exact_count (length part).
Proof.
  intros Hparts Hsize v part Hin.
  destruct (partition_on_groups _ _ _ _ _ Hparts Hin) as (-> & _).
  pose proof (group_length a v exemplars). unfold exact_count in *. lia.
Qed.

Section Sum.

Context {FS : FloatSum FL} `{!FloatSumLaws FL FS}.

(** The inner loop subtracts what the sum adds. *)
Lemma outputs_entropy_sum (acc : score) (outputs : list Output) :
  outputs_entropy acc outputs = fold_left Fadd (group_terms outputs) acc.
Proof.
  unfold outputs_entropy, group_terms. cbn zeta.
  generalize (set_iter outputs) as l. intros l. revert acc.
  induction l as [|o l IH]; intros acc; csimpl; [done|].
  by rewrite IH, Fsub_as_add.
Qed.

Lemma attr_entropy_sum (parts : spartitions) :
  attr_entropy_of parts
  = Fsum (mjoin ((fun p : Value * list sexemplar => group_terms (p.2.*2))
                   <$> parts)).
Proof.
  unfold attr_entropy_of, Fsum. generalize (Fzero : score) as acc.
  induction parts as [|[v part] parts IH]; intros acc; csimpl; [done|].
  by rewrite fold_left_app, IH, outputs_entropy_sum.
Qed.

(** C3. The entropy computed for an attribute is the sum of floats, taken
    from 0 in the order in which the value-groups and the outputs of each
    group are iterated, of [-count * log2(count / group_size)] over the
    groups of exemplars having each value of the attribute and over the
    output values occurring in each group; every term of a group with one
    output value only is 0, and the loop leaves the running entropy as it
    is over such a group; and the entropy is not negative.  This holds for
    every arithmetic that has the laws of the floats, and for a number of
    exemplars that a float holds exactly. *)
Theorem attr_entropy_spec (a : Attr) (exemplars : list sexemplar)
    (parts : spartitions) :
  partition_on a exemplars = Ok parts ->
  exact_count (length exemplars) ->
  attr_score a exemplars = Ok (spec_score a exemplars) /\
  Fltb (spec_score a exemplars) Fzero = false /\
  (forall (acc : score) (v : Value) (partition : list sexemplar) (o : Output),
     (v, partition) ∈ parts ->
     (forall e, e ∈ partition -> e.2 = o) ->
     (forall term, term ∈ group_terms (partition.*2) -> term = Fzero) /\
     outputs_entropy acc (partition.*2) = acc).
Proof.
  intros Hparts Hsize.
  pose proof (partition_sizes_bound a exemplars parts Hparts Hsize) as Hbound.
  assert (Hscore : attr_entropy_of parts = spec_score a exemplars).
  { rewrite attr_entropy_sum. unfold spec_score, spec_terms. f_equal.
    apply partition_on_Ok in Hparts as (values & Hvalues & ->).
    rewrite (observed_values_all _ _ _ Hvalues).
    rewrite <- list_fmap_compose. f_equal.
    apply list_fmap_ext. intros _ v _. simpl. by rewrite group_outputs. }
  split_and!.
  - unfold attr_score. rewrite Hparts. cbn [bind]. by rewrite Hscore.
  - rewrite <- Hscore. by apply attr_entropy_nonneg.
  - intros acc v partition o Hin Hall.
    assert (Hpure : forall y z, y ∈ partition.*2 -> z ∈ partition.*2 -> y = z).
    { intros y z (e & -> & He)%list_elem_of_fmap (e' & -> & He')%list_elem_of_fmap.
      by rewrite (Hall e He), (Hall e' He'). }
    assert (Hpart : exact_count (length (partition.*2))).
    { rewrite length_fmap. by apply (Hbound v). }
    split; [|by apply outputs_entropy_pure].
    intros term Hterm.
    pose proof (outputs_entropy_pure Fzero (partition.*2) Hpart Hpure) as Hloop.
    rewrite outputs_entropy_sum in Hloop. unfold group_terms in Hterm, Hloop.
    destruct (partition.*2) as [|o' outputs'] eqn:Hout.
    { rewrite set_iter_nil in Hterm. by apply elem_of_nil in Hterm. }
    rewrite <- Hout in *.
    rewrite (set_iter_pure (partition.*2) o') in Hterm, Hloop.
    + cbn [fmap list_fmap fold_left] in Hterm, Hloop.
      apply list_elem_of_singleton in Hterm. subst term.
      by rewrite Fadd_zero_l in Hloop.
    + by rewrite Hout.
    + intros y Hy. apply Hpure; [done|]. rewrite Hout. left.
    + by rewrite Hout.
    + intros y Hy. apply Hpure; [done|]. rewrite Hout. left.
Qed.

End Sum.

End Score.

(** * The caller's objects are not changed *)

Section StoreFrame.

Context {Attr Value Output : Type}.
Context `{EqDecision Attr, EqDecision Value, EqDecision Output}.
Context {value_sets : PySet Value} {output_sets : PySet Output}.
Context {FL : Float}.

Abbreviation sobject := (@object Attr Value Output).
Abbreviation sstore := (list sobject).
Abbreviation sSt := (@St Attr Value Output).

Lemma keeps_ret {A : Type} (n : nat) (a : A) (Q : A -> Prop) :
  Q a -> keeps (Attr:=Attr) (Value:=Value) (Output:=Output) n (ret a) Q.
Proof. intros Ha h Hn. simpl. split_and!; [done..|]. by intros ? [= <-]. Qed.

Lemma keeps_lift {A : Type} (n : nat) (r : result A) (Q : A -> Prop) :
  (forall a, r = Ok a -> Q a) ->
  keeps (Attr:=Attr) (Value:=Value) (Output:=Output) n (lift r) Q.
Proof. intros Hr h Hn. simpl. split_and!; [done..|]. auto. Qed.

Lemma keeps_weaken {A : Type} (n : nat) (m : sSt A) (Q Q' : A -> Prop) :
  keeps n m Q -> (forall a, Q a -> Q' a) -> keeps n m Q'.
Proof. intros Hm HQ h Hn. destruct (Hm h Hn) as (? & ? & ?). eauto. Qed.

Lemma keeps_bind {A B : Type} (n : nat) (m : sSt A) (k : A -> sSt B)
    (Q : A -> Prop) (Q' : B -> Prop) :
  keeps n m Q -> (forall a, Q a -> keeps n (k a) Q') ->
  keeps n (bind_st m k) Q'.
Proof.
  intros Hm Hk h Hn. unfold bind_st.
  destruct (Hm h Hn) as (Htake & Hlen & HQ).
  destruct (m h) as [[a| | | |] h1]; simpl in *; try (split_and!; done).
  destruct (Hk a (HQ a eq_refl) h1) as (Htake' & Hlen' & HQ'); [lia|].
  split_and!; [congruence|lia|done].
Qed.

Lemma keeps_for_each {A S : Type} (n : nat) (body : S -> A -> sSt S)
    (l : list A) (s : S) (I : S -> Prop) :
  I s -> (forall s x, I s -> x ∈ l -> keeps n (body s x) I) ->
  keeps n (for_each_st body l s) I.
Proof.
  revert s. induction l as [|x l IH]; intros s Hs Hbody; simpl.
  - by apply keeps_ret.
  - eapply keeps_bind; [apply Hbody; [done|left]|].
    intros s' Hs'. apply IH; [done|]. intros s'' y Hs'' Hy. apply Hbody; [done|].
    by right.
Qed.

Lemma keeps_comprehension {A B : Type} (n : nat) (f : A -> sSt B) (l : list A)
    (Q : B -> Prop) :
  (forall x, x ∈ l -> keeps n (f x) Q) ->
  keeps n (comprehension_st f l) (Forall Q).
Proof.
  induction l as [|x l IH]; intros Hf; simpl.
  - by apply keeps_ret.
  - eapply keeps_bind; [apply Hf; left|]. intros y Hy.
    eapply keeps_bind; [apply IH; intros z Hz; apply Hf; by right|].
    intros ys Hys. apply keeps_ret. by constructor.
Qed.

Lemma keeps_read_dict (n : nat) (l : loc) :
  keeps (Output:=Output) n (read_dict l) (fun _ : @dict Attr Value => True).
Proof.
  intros h Hn. unfold read_dict. cbv beta.
  destruct (h !! l) as [[d|es]|]; simpl; split_and!; done.
Qed.

Lemma keeps_read_list (n : nat) (l : loc) :
  keeps (Attr:=Attr) (Value:=Value) n (read_list l)
    (fun _ : list (loc * Output) => True).
Proof.
  intros h Hn. unfold read_list. cbv beta.
  destruct (h !! l) as [[d|es]|]; simpl; split_and!; done.
Qed.

Lemma keeps_alloc (n : nat) (o : sobject) :
  keeps n (alloc o) (fun l => n <= l).
Proof.
  intros h Hn. unfold alloc. simpl. split_and!.
  - by rewrite take_app_le.
  - rewrite length_app. lia.
  - intros l [= <-]. done.
Qed.

Lemma keeps_write (n : nat) (l : loc) (o : sobject) :
  n <= l -> keeps n (write l o) (fun _ => True).
Proof.
  intros Hl h Hn. unfold write. simpl. split_and!; [|by rewrite length_insert|done].
  by apply take_insert_ge.
Qed.

Lemma keeps_dict_copy (n : nat) (l : loc) :
  keeps (Attr:=Attr) (Value:=Value) (Output:=Output) n (dict_copy l)
    (fun l' => n <= l').
Proof.
  unfold dict_copy. eapply keeps_bind; [apply keeps_read_dict|].
  intros d _. apply keeps_alloc.
Qed.

Lemma keeps_dict_getitem (n : nat) (l : loc) (a : Attr) :
  keeps (Output:=Output) n (dict_getitem l a) (fun _ : Value => True).
Proof.
  unfold dict_getitem. eapply keeps_bind; [apply keeps_read_dict|].
  intros d _. by apply keeps_lift.
Qed.

(** [pop] on a dict that was made after the first [n] objects. *)
Lemma keeps_dict_pop (n : nat) (l : loc) (a : Attr) :
  n <= l ->
  keeps (Output:=Output) n (dict_pop l a) (fun _ : Value => True).
Proof.
  intros Hl. unfold dict_pop. eapply keeps_bind; [apply keeps_read_dict|].
  intros d _. eapply keeps_bind; [by apply keeps_lift with (Q := fun _ => True)|].
  intros [v d'] _. eapply keeps_bind; [by apply keeps_write|].
  intros _ _. by apply keeps_ret.
Qed.

(** [append] on a list that was made after the first [n] objects. *)
Lemma keeps_list_append (n : nat) (l : loc) (x : loc * Output) :
  n <= l ->
  keeps (Attr:=Attr) (Value:=Value) n (list_append l x) (fun _ => True).
Proof.
  intros Hl. unfold list_append. eapply keeps_bind; [apply keeps_read_list|].
  intros es _. by apply keeps_write.
Qed.

Lemma partitions_getitem_elem (partitions : partitions_st) (v : Value) (l : loc) :
  partitions_getitem partitions v = Ok l -> (v, l) ∈ partitions.
Proof.
  induction partitions as [|[w l'] partitions IH]; simpl; [done|].
  destruct (decide (v = w)) as [->|Hne]; [intros [= ->]; left|right; auto].
Qed.

(** The lists of a partitioning are made after the first [n] objects. *)
Lemma keeps_partition_on (n : nat) (a : Attr) (exemplars : list (loc * Output)) :
  keeps (Attr:=Attr) n (partition_on_st a exemplars)
    (Forall (fun p : Value * loc => n <= p.2)).
Proof.
  unfold partition_on_st.
  eapply keeps_bind.
  { apply keeps_comprehension with (Q := fun _ => True).
    intros [inputs output] _. apply keeps_dict_getitem. }
  intros values _. cbn zeta.
  eapply keeps_bind.
  { apply keeps_comprehension with (Q := fun p : Value * loc => n <= p.2).
    intros v _. eapply keeps_bind; [apply keeps_alloc|].
    intros l Hl. by apply keeps_ret. }
  intros partitions Hparts.
  eapply keeps_bind.
  { apply keeps_for_each with (I := fun _ => True); [done|].
    intros _ [inputs output] _ _.
    eapply keeps_bind; [apply keeps_dict_copy|]. intros inputs' Hinputs'.
    eapply keeps_bind; [by apply keeps_dict_pop|]. intros v _.
    eapply keeps_bind.
    { apply keeps_lift with (Q := fun l => n <= l).
      intros l Hl%partitions_getitem_elem.
      rewrite Forall_forall in Hparts. apply (Hparts _ Hl). }
    intros l Hl. by apply keeps_list_append. }
  intros _ _. by apply keeps_ret.
Qed.

Lemma keeps_attr_entropy (n : nat) (partitions : partitions_st) :
  keeps (Attr:=Attr) (Value:=Value) (Output:=Output) n
    (attr_entropy_st partitions) (fun _ => True).
Proof.
  unfold attr_entropy_st. apply keeps_for_each; [done|].
  intros acc [v l] _ _. eapply keeps_bind; [apply keeps_read_list|].
  intros es _. by apply keeps_ret.
Qed.

Lemma keeps_consider (n : nat) (exemplars : list (loc * Output))
    (best_attr : option best_attr_st) (a : Attr) :
  (forall b, best_attr = Some b ->
             Forall (fun p : Value * loc => n <= p.2) (partitions_of_st b)) ->
  keeps n (consider_st exemplars best_attr a)
    (fun r => forall b, r = Some b ->
                Forall (fun p : Value * loc => n <= p.2) (partitions_of_st b)).
Proof.
  intros Hbest. unfold consider_st.
  eapply keeps_bind; [apply keeps_partition_on|]. intros partitions Hparts.
  eapply keeps_bind; [apply keeps_attr_entropy|]. intros s _.
  destruct best_attr as [best|]; [destruct (Fltb _ _)|];
    apply keeps_ret; try done; by intros b [= <-].
Qed.

Lemma keeps_find_best_attr (n : nat) (exemplars : list (loc * Output)) :
  keeps n (find_best_attr_st (Attr:=Attr) exemplars)
    (fun r => forall b, r = Some b ->
                Forall (fun p : Value * loc => n <= p.2) (partitions_of_st b)).
Proof.
  unfold find_best_attr_st.
  eapply keeps_bind; [by apply keeps_lift with (Q := fun _ => True)|].
  intros e0 _. eapply keeps_bind; [apply keeps_read_dict|]. intros d0 _.
  apply keeps_for_each; [done|]. intros best a Hbest _. by apply keeps_consider.
Qed.

Lemma keeps_inputs_all_same (n : nat) (exemplars : list (loc * Output)) :
  keeps (Attr:=Attr) (Value:=Value) n (inputs_all_same_st exemplars)
    (fun _ => True).
Proof.
  unfold inputs_all_same_st. apply keeps_for_each; [done|].
  intros same [inputs0 o0] _ _. destruct same; [|by apply keeps_ret].
  apply keeps_for_each; [done|].
  intros same [inputs1 o1] _ _. destruct same; [|by apply keeps_ret].
  eapply keeps_bind; [apply keeps_read_dict|]. intros d0 _.
  eapply keeps_bind; [apply keeps_read_dict|]. intros d1 _.
  by apply keeps_ret.
Qed.

(** Whatever the budget and the sequence, a run of [id3_helper] leaves the
    objects that were in the store as they were. *)
Lemma keeps_id3_helper (fuel : nat) (n : nat) (exemplars : loc) :
  keeps n
    (id3_helper_st (Attr:=Attr) (Value:=Value) (Output:=Output) fuel exemplars)
    (fun _ => True).
Proof.
  revert exemplars. induction fuel as [|fuel IH]; intros exemplars; simpl.
  - by apply keeps_lift.
  - eapply keeps_bind; [apply keeps_read_list|]. intros es _.
    destruct (decide (length (set_iter (es.*2)) = 0)); [by apply keeps_ret|].
    destruct (decide (length (set_iter (es.*2)) = 1)).
    { eapply keeps_bind; [by apply keeps_lift with (Q := fun _ => True)|].
      intros e0 _. by apply keeps_ret. }
    eapply keeps_bind; [apply keeps_inputs_all_same|]. intros same _.
    destruct same; [by apply keeps_ret|].
    eapply keeps_bind; [apply keeps_find_best_attr|]. intros [best|] Hbest.
    + eapply keeps_bind.
      * apply keeps_for_each with (I := fun _ => True); [done|].
        intros pairs [v part] _ _. eapply keeps_bind; [apply IH|].
        intros sub _. by apply keeps_ret.
      * intros pairs _. by apply keeps_ret.
    + by apply keeps_lift.
Qed.

Lemma keeps_extends_store {A : Type} (m : sSt A) (Q : A -> Prop) (h : sstore) :
  keeps (length h) m Q -> extends_store h ((m h).2).
Proof.
  intros Hm. destruct (Hm h) as (Htake & Hlen & _); [done|].
  exists (drop (length h) ((m h).2)).
  rewrite <- (take_drop (length h) ((m h).2)) at 1.
  by rewrite Htake, firstn_all.
Qed.

(** C9. A call of [id3] changes none of the objects that were in the store
    when it was called: the store it leaves has them all, unchanged, at
    their locations, followed by the objects that the call has made.  So the
    sequence of exemplars and the inputs of every exemplar are what they
    were.  The same holds for [id3_helper] with any budget. *)
Theorem id3_st_keeps_store (exemplars : loc) (h : sstore) :
  extends_store h ((id3_st exemplars h).2) /\
  (forall l o, h !! l = Some o -> (id3_st exemplars h).2 !! l = Some o) /\
  (forall es, exemplars_at h es <> None ->
     exemplars_at ((id3_st exemplars h).2) es = exemplars_at h es) /\
  (forall fuel, extends_store h ((id3_helper_st fuel exemplars h).2)).
Proof.
  assert (Hhelper : forall fuel,
    extends_store h ((id3_helper_st fuel exemplars h).2)).
  { intros fuel. eapply keeps_extends_store, keeps_id3_helper. }
  assert (Hext : extends_store h ((id3_st exemplars h).2)).
  { unfold id3_st. apply Hhelper. }
  assert (Hlookup : forall l o, h !! l = Some o ->
                                (id3_st exemplars h).2 !! l = Some o).
  { intros l o Hl. destruct Hext as [fresh ->]. by apply lookup_app_l_Some. }
  split_and!; [done..| |done].
  induction es as [|[l output] es IH]; [done|]. cbn [exemplars_at].
  destruct (h !! l) as [[d|?]|] eqn:Hl; try done.
  rewrite (Hlookup _ _ Hl).
  destruct (exemplars_at h es) as [P|] eqn:HP; [|done].
  intros _. by rewrite IH.
Qed.

End StoreFrame.

(** * The builder over the store computes what the builder on values does *)

Section StoreRefinement.

Context {Attr Value Output : Type}.
Context `{EqDecision Attr, EqDecision Value, EqDecision Output}.
Context {value_sets : PySet Value} {output_sets : PySet Output}.
Context {FL : Float}.

Abbreviation robject := (@object Attr Value Output).
Abbreviation rstore := (list robject).
Abbreviation rSt := (@St Attr Value Output).
Abbreviation rdict := (@dict Attr Value).
Abbreviation rexemplars := (list (@exemplar Attr Value Output)).

Lemma extends_store_lookup (h h' : rstore) (l : loc) (o : robject) :
  extends_store h h' -> h !! l = Some o -> h' !! l = Some o.
Proof. intros [fresh ->] Hl. by apply lookup_app_l_Some. Qed.

Lemma extends_store_trans (h1 h2 h3 : rstore) :
  extends_store h1 h2 -> extends_store h2 h3 -> extends_store h1 h3.
Proof. intros [f1 ->] [f2 ->]. exists (f1 ++ f2). by rewrite app_assoc. Qed.

(** The exemplars of a sequence depend on the dicts of the store only. *)
Lemma exemplars_at_kept (h h' : rstore) (es : list (loc * Output))
    (exemplars : rexemplars) :
  (forall l d, h !! l = Some (ODict d) -> h' !! l = Some (ODict d)) ->
  exemplars_at h es = Some exemplars -> exemplars_at h' es = Some exemplars.
Proof.
  intros Hkept. revert exemplars.
  induction es as [|[l o] es IH]; intros exemplars; [done|]. cbn [exemplars_at].
  destruct (h !! l) as [[d|?]|] eqn:Hl; try done.
  rewrite (Hkept _ _ Hl).
  destruct (exemplars_at h es) as [P|]; [|done].
  intros [= <-]. by rewrite (IH P).
Qed.

Lemma exemplars_at_extends (h h' : rstore) (es : list (loc * Output))
    (exemplars : rexemplars) :
  extends_store h h' ->
  exemplars_at h es = Some exemplars -> exemplars_at h' es = Some exemplars.
Proof.
  intros Hext. apply exemplars_at_kept. intros l d. by apply extends_store_lookup.
Qed.

Lemma exemplars_at_snoc (h : rstore) (es : list (loc * Output))
    (exemplars : rexemplars) (l : loc) (d : rdict) (o : Output) :
  exemplars_at h es = Some exemplars -> h !! l = Some (ODict d) ->
  exemplars_at h (es ++ [(l, o)]) = Some (exemplars ++ [(d, o)]).
Proof.
  intros Hes Hl. revert exemplars Hes.
  induction es as [|[l' o'] es IH]; intros exemplars; cbn [exemplars_at app].
  - intros [= <-]. by rewrite Hl.
  - destruct (h !! l') as [[d'|?]|]; try done.
    destruct (exemplars_at h es) as [P|]; [|done].
    intros [= <-]. by rewrite (IH P).
Qed.

Lemma exemplars_at_outputs (h : rstore) (es : list (loc * Output))
    (exemplars : rexemplars) :
  exemplars_at h es = Some exemplars -> es.*2 = exemplars.*2.
Proof.
  revert exemplars. induction es as [|[l o] es IH]; intros exemplars;
    cbn [exemplars_at].
  - by intros [= <-].
  - destruct (h !! l) as [[d|?]|]; try done.
    destruct (exemplars_at h es) as [P|]; [|done].
    intros [= <-]. csimpl. by rewrite (IH P).
Qed.

Lemma exemplars_at_cons_inv (h : rstore) (l : loc) (o : Output)
    (es : list (loc * Output)) (exemplars : rexemplars) :
  exemplars_at h ((l, o) :: es) = Some exemplars ->
  exists d rest,
    h !! l = Some (ODict d) /\ exemplars_at h es = Some rest /\
    exemplars = (d, o) :: rest.
Proof.
  cbn [exemplars_at]. destruct (h !! l) as [[d|?]|]; try done.
  destruct (exemplars_at h es) as [P|]; [|done]. intros [= <-]. eauto.
Qed.

(** ** Outcomes up to a relation *)

Lemma refines_ret {A B : Type} (a : A) (b : B) (h : rstore)
    (R : rstore -> A -> B -> Prop) :
  R h a b -> refines (ret a) h (Ok b) R.
Proof. done. Qed.

Lemma refines_bind {A A' B B' : Type} (m : rSt A) (k : A -> rSt B)
    (r : result A') (k' : A' -> result B') (h : rstore)
    (R : rstore -> A -> A' -> Prop) (R' : rstore -> B -> B' -> Prop) :
  refines m h r R ->
  (forall a a', (m h).1 = Ok a -> r = Ok a' -> R ((m h).2) a a' ->
                refines (k a) ((m h).2) (k' a') R') ->
  refines (bind_st m k) h (bind r k') R'.
Proof.
  unfold refines, bind_st. intros Hm Hk.
  destruct (m h) as [[a| | | |] h1], r as [a'| | | |]; simpl in *; try done.
  by apply Hk.
Qed.

(** A step of the store computation that has no counterpart on values. *)
Lemma refines_run {A B C : Type} (m : rSt A) (k : A -> rSt B) (h h' : rstore)
    (a : A) (r : result C) (R : rstore -> B -> C -> Prop) :
  m h = (Ok a, h') -> refines (k a) h' r R -> refines (bind_st m k) h r R.
Proof. unfold refines, bind_st. by intros ->. Qed.

Lemma refines_then_ret {A B C : Type} (m : rSt A) (f : A -> B) (h : rstore)
    (r : result C) (R : rstore -> B -> C -> Prop) :
  refines m h r (fun h' a c => R h' (f a) c) ->
  refines (bind_st m (fun a => ret (f a))) h r R.
Proof.
  unfold refines, bind_st.
  by destruct (m h) as [[a| | | |] h1], r as [c| | | |].
Qed.

Lemma refines_lift {A B : Type} (r : result A) (r' : result B) (h : rstore)
    (R : rstore -> A -> B -> Prop) :
  same_outcome (R h) r r' -> refines (lift r) h r' R.
Proof. done. Qed.

Lemma refines_weaken {A B : Type} (m : rSt A) (h : rstore) (r : result B)
    (R R' : rstore -> A -> B -> Prop) :
  refines m h r R -> (forall a b, R ((m h).2) a b -> R' ((m h).2) a b) ->
  refines m h r R'.
Proof.
  unfold refines. intros Hm HR.
  destruct ((m h).1) as [a| | | |], r as [b| | | |]; simpl in *; auto.
Qed.

Lemma same_outcome_eq {A : Type} (r r' : result A) :
  same_outcome eq r r' -> r = r'.
Proof. destruct r, r'; simpl; try done. by intros ->. Qed.

(** ** Reading *)

Lemma read_dict_at (h : rstore) (l : loc) (d : rdict) :
  h !! l = Some (ODict d) -> read_dict l h = (Ok d, h).
Proof. intros Hl. unfold read_dict. by rewrite Hl. Qed.

Lemma read_list_at (h : rstore) (l : loc) (es : list (loc * Output)) :
  h !! l = Some (OList es) -> read_list l h = (Ok es, h).
Proof. intros Hl. unfold read_list. by rewrite Hl. Qed.

(** The comprehension of the values of [attr] reads and changes nothing. *)
Lemma getitems_at (attr : Attr) (h : rstore) (es : list (loc * Output))
    (exemplars : rexemplars) :
  exemplars_at h es = Some exemplars ->
  comprehension_st (fun '(inputs, _) => dict_getitem inputs attr) es h =
  (comprehension (fun '(inputs, _) => getitem inputs attr) exemplars, h).
Proof.
  revert exemplars. induction es as [|[l o] es IH]; intros exemplars.
  - by intros [= <-].
  - intros (d & rest & Hl & Hrest & ->)%exemplars_at_cons_inv.
    cbn [comprehension_st comprehension]. unfold bind_st at 1.
    unfold dict_getitem at 1. unfold bind_st at 1.
    rewrite (read_dict_at _ _ _ Hl). unfold lift.
    destruct (getitem d attr) as [v| | | |]; simpl; try done.
    unfold bind_st. rewrite (IH _ Hrest).
    match goal with
    | |- context [comprehension ?f rest] => by destruct (comprehension f rest)
    end.
Qed.

(** The computation of the flag reads and changes nothing. *)
Lemma inputs_all_same_at (h : rstore) (es : list (loc * Output))
    (exemplars : rexemplars) :
  exemplars_at h es = Some exemplars ->
  inputs_all_same_st es h = (Ok (inputs_all_same exemplars), h).
Proof.
  intros Hall. rewrite inputs_all_same_forallb. unfold inputs_all_same_st.
  assert (Hinner : forall (l0 : loc) (d0 : rdict) es1 P1 (same : bool),
    h !! l0 = Some (ODict d0) ->
    exemplars_at h es1 = Some P1 ->
    for_each_st
      (fun (same : bool) '(inputs1, _) =>
         if same then
           bind_st (read_dict l0) (fun d0 =>
             bind_st (read_dict inputs1) (fun d1 => ret (dict_eqb d0 d1)))
         else ret false)
      es1 same h =
    (Ok (same && forallb (fun '(inputs1, _) => dict_eqb d0 inputs1) P1), h)).
  { intros l0 d0 es1. induction es1 as [|[l1 o1] es1 IH]; intros P1 same Hl0.
    - intros [= <-]. simpl. by rewrite andb_true_r.
    - intros (d1 & rest & Hl1 & Hrest & ->)%exemplars_at_cons_inv.
      cbn [for_each_st forallb]. unfold bind_st at 1. destruct same.
      + unfold bind_st at 1. rewrite (read_dict_at _ _ _ Hl0).
        unfold bind_st at 1. rewrite (read_dict_at _ _ _ Hl1). unfold ret at 1.
        rewrite (IH _ _ Hl0 Hrest). done.
      + unfold ret at 1. rewrite (IH _ _ Hl0 Hrest). done. }
  assert (Houter : forall es0 P0 (same : bool),
    exemplars_at h es0 = Some P0 ->
    for_each_st
      (fun (same : bool) '(inputs0, _) =>
         if same then
           for_each_st
             (fun (same : bool) '(inputs1, _) =>
                if same then
                  bind_st (read_dict inputs0) (fun d0 =>
                    bind_st (read_dict inputs1) (fun d1 => ret (dict_eqb d0 d1)))
                else ret false)
             es true
         else ret false)
      es0 same h =
    (Ok (same && forallb (fun '(inputs0, _) =>
                   forallb (fun '(inputs1, _) => dict_eqb inputs0 inputs1)
                     exemplars) P0), h)).
  { induction es0 as [|[l0 o0] es0 IH]; intros P0 same.
    - intros [= <-]. simpl. by rewrite andb_true_r.
    - intros (d0 & rest & Hl0 & Hrest & ->)%exemplars_at_cons_inv.
      cbn [for_each_st forallb]. unfold bind_st at 1. destruct same.
      + rewrite (Hinner l0 d0 es exemplars true Hl0 Hall).
        rewrite (IH _ _ Hrest). done.
      + unfold ret at 1. rewrite (IH _ _ Hrest). done. }
  by rewrite (Houter es exemplars true Hall).
Qed.

Lemma partitions_at_extends (h h' : rstore) (sparts : list (Value * loc))
    (pparts : list (Value * rexemplars)) :
  extends_store h h' -> partitions_at h sparts pparts ->
  partitions_at h' sparts pparts.
Proof.
  intros Hext [Hnd Hall]. split; [done|].
  eapply Forall2_impl; [exact Hall|].
  intros [v l] [v' part] [Hv (es & Hl & Hes)]. split; [done|].
  exists es. split; [by eapply extends_store_lookup|by eapply exemplars_at_extends].
Qed.

(** The loop that computes [attr_entropy] reads and changes nothing. *)
Lemma attr_entropy_at (h : rstore) (sparts : list (Value * loc))
    (pparts : list (Value * rexemplars)) :
  partitions_at h sparts pparts ->
  attr_entropy_st sparts h = (Ok (attr_entropy_of pparts), h).
Proof.
  intros [_ Hall]. unfold attr_entropy_st, attr_entropy_of.
  generalize (Fzero : score) as acc.
  induction Hall as [|[v l] [v' part] sparts pparts [_ (es & Hl & Hes)] _ IH];
    intros acc; [done|].
  cbn [for_each_st fold_left]. unfold bind_st at 1. unfold bind_st at 1.
  simpl in Hl, Hes. rewrite (read_list_at _ _ _ Hl). unfold ret at 1.
  rewrite IH. by rewrite (exemplars_at_outputs _ _ _ Hes).
Qed.

(** ** Partitioning *)

(** The first loop: one new, empty list per attribute value. *)
Lemma new_lists_at (vs : list Value) (h : rstore) :
  exists sparts,
    comprehension_st
      (fun attr_value : Value =>
         bind_st (alloc (OList [])) (fun l => ret (attr_value, l))) vs h =
    (Ok sparts, h ++ replicate (length vs) (OList [])) /\
    sparts.*1 = vs /\ sparts.*2 = seq (length h) (length vs).
Proof.
  revert h. induction vs as [|v vs IH]; intros h.
  - exists []. simpl. by rewrite app_nil_r.
  - destruct (IH (h ++ [OList []])) as (sparts & Hrun & Hvs & Hlocs).
    exists ((v, length h) :: sparts).
    cbn [comprehension_st]. unfold bind_st at 1. unfold bind_st at 1.
    unfold alloc at 1. unfold ret at 1. unfold bind_st at 1. rewrite Hrun.
    rewrite length_app in Hlocs. simpl in Hlocs.
    replace (length h + 1) with (S (length h)) in Hlocs by lia.
    split_and!; csimpl; [|by rewrite Hvs|by rewrite Hlocs].
    unfold ret. by rewrite <- app_assoc.
Qed.

Lemma new_lists_partitions_at (vs : list Value) (h : rstore)
    (sparts : list (Value * loc)) :
  sparts.*1 = vs -> sparts.*2 = seq (length h) (length vs) ->
  partitions_at (h ++ replicate (length vs) (OList [])) sparts
    ((fun attr_value : Value => (attr_value, [])) <$> vs).
Proof.
  intros Hvs Hlocs. split; [rewrite Hlocs; apply NoDup_seq|].
  apply Forall2_same_length_lookup_2.
  - rewrite length_fmap, <- Hvs. by rewrite length_fmap.
  - intros i [v l] [v' part] Hi Hi'.
    apply list_lookup_fmap_Some in Hi' as (w & [= -> ->] & Hw).
    assert (Hv : sparts.*1 !! i = Some v) by by rewrite list_lookup_fmap, Hi.
    assert (Hl : sparts.*2 !! i = Some l) by by rewrite list_lookup_fmap, Hi.
    rewrite Hvs in Hv. rewrite Hlocs in Hl.
    apply lookup_seq in Hl as [-> Hlt]. split; [simpl; congruence|].
    exists []. split; [|done]. simpl.
    rewrite lookup_app_r by lia. apply lookup_replicate. split; [done|lia].
Qed.

(** [partitions[attr_value]] in the store finds the list that
    [partitions[attr_value].append(e)] on values extends. *)
Lemma partitions_getitem_append (sparts : list (Value * loc))
    (pparts : list (Value * rexemplars)) (v : Value)
    (e : @exemplar Attr Value Output) :
  Forall2 (fun (p : Value * loc) (p' : Value * rexemplars) => p.1 = p'.1)
    sparts pparts ->
  (partitions_getitem sparts v = KeyError /\ append_to v e pparts = KeyError) \/
  (exists i l part,
     sparts !! i = Some (v, l) /\ pparts !! i = Some (v, part) /\
     partitions_getitem sparts v = Ok l /\
     append_to v e pparts = Ok (<[i := (v, part ++ [e])]> pparts)).
Proof.
  induction 1 as [|[w l] [w' part] sparts pparts Hw _ IH]; [by left|].
  simpl in Hw. subst w'. cbn [partitions_getitem append_to].
  destruct (decide (v = w)) as [->|Hne].
  - right. by exists 0, l, part.
  - destruct IH as [[-> ->]|(i & l' & part' & Hi & Hi' & -> & ->)]; [by left|].
    right. by exists (S i), l', part'.
Qed.

Lemma dict_copy_at (h : rstore) (l : loc) (d : rdict) :
  h !! l = Some (ODict d) ->
  dict_copy l h = (Ok (length h), h ++ [ODict d]).
Proof.
  intros Hl. unfold dict_copy, bind_st. by rewrite (read_dict_at _ _ _ Hl).
Qed.

Lemma dict_pop_at (h : rstore) (l : loc) (d : rdict) (attr : Attr) :
  h !! l = Some (ODict d) ->
  dict_pop l attr h =
  match pop attr d with
  | Ok (v, d') => (Ok v, <[l := ODict d']> h)
  | KeyError => (KeyError, h)
  | IndexError => (IndexError, h)
  | TypeError => (TypeError, h)
  | OutOfFuel => (OutOfFuel, h)
  end.
Proof.
  intros Hl. unfold dict_pop, bind_st. rewrite (read_dict_at _ _ _ Hl).
  unfold lift. by destruct (pop attr d) as [[v d']| | | |].
Qed.

Lemma list_append_at (h : rstore) (l : loc) (es : list (loc * Output))
    (x : loc * Output) :
  h !! l = Some (OList es) ->
  list_append l x h = (Ok tt, <[l := OList (es ++ [x])]> h).
Proof.
  intros Hl. unfold list_append, bind_st. by rewrite (read_list_at _ _ _ Hl).
Qed.

(** The store after one turn of the second loop: a new dict, the copy
    without the key, and its location appended to the list of its value. *)
Lemma partition_step_store (h : rstore) (sparts : list (Value * loc))
    (pparts : list (Value * rexemplars)) (i : nat) (v : Value)
    (l : loc) (part : rexemplars) (es : list (loc * Output)) (d' : rdict)
    (o : Output) :
  partitions_at h sparts pparts ->
  sparts !! i = Some (v, l) -> pparts !! i = Some (v, part) ->
  h !! l = Some (OList es) ->
  let h' := <[l := OList (es ++ [(length h, o)])]> (h ++ [ODict d']) in
  partitions_at h' sparts (<[i := (v, part ++ [(d', o)])]> pparts) /\
  (forall l0 d0, h !! l0 = Some (ODict d0) -> h' !! l0 = Some (ODict d0)).
Proof.
  intros [Hnd Hall] Hi Hi' Hl h'.
  assert (Hlt : l < length h) by by eapply lookup_lt_Some.
  assert (Hkept : forall l0 d0, h !! l0 = Some (ODict d0) ->
                                h' !! l0 = Some (ODict d0)).
  { intros l0 d0 Hl0. unfold h'. rewrite list_lookup_insert_ne by congruence.
    by apply lookup_app_l_Some. }
  assert (Hnew : h' !! length h = Some (ODict d')).
  { unfold h'. rewrite list_lookup_insert_ne by lia.
    by rewrite lookup_app_r, Nat.sub_diag by lia. }
  split; [|done]. split; [done|].
  apply Forall2_same_length_lookup_2.
  - rewrite length_insert. by eapply Forall2_length.
  - intros j [w lw] [w' part'] Hj Hj'.
    destruct (decide (i = j)) as [<-|Hne].
    + rewrite list_lookup_insert_eq in Hj' by by eapply lookup_lt_Some.
      rewrite Hi in Hj. injection Hj as <- <-. injection Hj' as <- <-.
      split; [done|]. exists (es ++ [(length h, o)]). split.
      * unfold h'. simpl. apply list_lookup_insert_eq. rewrite length_app. lia.
      * destruct (Forall2_lookup_lr _ _ _ _ _ _ Hall Hi Hi')
          as [_ (es' & Hl' & Hes')].
        simpl in *. assert (es' = es) as -> by congruence.
        apply exemplars_at_snoc; [|done]. by eapply exemplars_at_kept.
    + rewrite list_lookup_insert_ne in Hj' by done.
      destruct (Forall2_lookup_lr _ _ _ _ _ _ Hall Hj Hj')
        as [Hw (es' & Hl' & Hes')].
      split; [done|]. exists es'. simpl in *. split.
      * unfold h'. rewrite list_lookup_insert_ne.
        -- by apply lookup_app_l_Some.
        -- intros <-. apply Hne.
           apply (NoDup_lookup (sparts.*2) i j l Hnd);
             by rewrite list_lookup_fmap, ?Hi, ?Hj.
      * by eapply exemplars_at_kept.
Qed.

(** One turn of the second loop of the partitioning in the store follows
    the turn on values, and changes no dict of the store. *)
Lemma partition_body_at (attr : Attr) (sparts : list (Value * loc))
    (pparts : list (Value * rexemplars)) (h : rstore) (l_in : loc)
    (d : rdict) (o : Output) :
  partitions_at h sparts pparts ->
  h !! l_in = Some (ODict d) ->
  refines
    (bind_st (dict_copy l_in) (fun inputs =>
     bind_st (dict_pop inputs attr) (fun attr_value =>
     bind_st (lift (partitions_getitem sparts attr_value)) (fun l =>
     list_append l (inputs, o)))))
    h
    (let* (attr_value, inputs) := pop attr d in
     append_to attr_value (inputs, o) pparts)
    (fun h' _ pparts' =>
       partitions_at h' sparts pparts' /\
       forall l0 d0, h !! l0 = Some (ODict d0) -> h' !! l0 = Some (ODict d0)).
Proof.
  intros Hparts Hl. unfold refines, bind_st.
  rewrite (dict_copy_at _ _ _ Hl).
  rewrite (dict_pop_at _ _ d) by by rewrite lookup_app_r, Nat.sub_diag by lia.
  destruct (pop attr d) as [[v d']| | | |]; cbn [bind fst snd]; try done.
  replace (<[length h := ODict d']> (h ++ [ODict d]))
    with (h ++ [ODict d']).
  2:{ replace (length h) with (length h + 0) at 1 by lia.
      by rewrite insert_app_r. }
  destruct Hparts as [Hnd Hall].
  destruct (partitions_getitem_append sparts pparts v (d', o))
    as [[Hget Happ]|(i & l & part & Hi & Hi' & Hget & Happ)].
  { eapply Forall2_impl; [exact Hall|]. by intros ? ? [? _]. }
  { unfold lift. by rewrite Hget, Happ. }
  destruct (Forall2_lookup_lr _ _ _ _ _ _ Hall Hi Hi')
    as [_ (es_l & Hes_l & _)]. cbn [fst snd] in Hes_l.
  unfold lift. rewrite Hget, Happ.
  rewrite (list_append_at _ _ es_l) by (apply lookup_app_l_Some; exact Hes_l).
  cbn [same_outcome fst snd].
  exact (partition_step_store h sparts pparts i v l part es_l d' o
           (conj Hnd Hall) Hi Hi' Hes_l).
Qed.

(** The second loop of the partitioning in the store follows the loop on
    values, and changes no dict of the store. *)
Lemma partition_loop_at (attr : Attr) (sparts : list (Value * loc))
    (es : list (loc * Output)) :
  forall (exemplars : rexemplars) (h : rstore)
         (pparts : list (Value * rexemplars)),
  exemplars_at h es = Some exemplars ->
  partitions_at h sparts pparts ->
  refines
    (for_each_st
       (fun _ '(inputs, output) =>
          bind_st (dict_copy inputs) (fun inputs =>
          bind_st (dict_pop inputs attr) (fun attr_value =>
          bind_st (lift (partitions_getitem sparts attr_value)) (fun l =>
          list_append l (inputs, output)))))
       es tt)
    h
    (for_each
       (fun partitions '(inputs, output) =>
          let* (attr_value, inputs) := pop attr inputs in
          append_to attr_value (inputs, output) partitions)
       exemplars pparts)
    (fun h' _ pparts' => partitions_at h' sparts pparts').
Proof.
  induction es as [|[l_in o] es IH]; intros exemplars h pparts Hes Hparts.
  - injection Hes as <-. done.
  - apply exemplars_at_cons_inv in Hes as (d & rest & Hl & Hrest & ->).
    cbn [for_each_st for_each].
    eapply refines_bind; [by apply partition_body_at|].
    intros [] pparts' _ _ [Hparts' Hkept]. cbv beta.
    apply IH; [|done]. by eapply exemplars_at_kept.
Qed.

Lemma keeps_consider_any (n : nat) (exemplars : list (loc * Output))
    (best_attr : option (@best_attr_st Attr Value FL)) (a : Attr) :
  keeps n (consider_st exemplars best_attr a) (fun _ => True).
Proof.
  unfold consider_st.
  eapply keeps_bind; [apply keeps_partition_on|]. intros partitions _.
  eapply keeps_bind; [apply keeps_attr_entropy|]. intros s _.
  destruct best_attr as [best|]; [destruct (Fltb _ _)|]; by apply keeps_ret.
Qed.

Lemma partition_on_at (attr : Attr) (h : rstore) (es : list (loc * Output))
    (exemplars : rexemplars) :
  exemplars_at h es = Some exemplars ->
  refines (partition_on_st attr es) h (partition_on attr exemplars)
    (fun h' sparts pparts => partitions_at h' sparts pparts).
Proof.
  intros Hes. unfold partition_on_st, partition_on.
  eapply refines_bind with (R := fun h' vs vs' => h' = h /\ vs = vs').
  { unfold refines. rewrite (getitems_at attr h es exemplars Hes).
    simpl. match goal with
           | |- context [comprehension ?f exemplars] =>
               by destruct (comprehension f exemplars)
           end. }
  intros values values' _ _ [Hh <-]. rewrite Hh. cbn zeta.
  destruct (new_lists_at (set_iter values) h) as (sparts & Hrun & Hvs & Hlocs).
  eapply refines_run; [exact Hrun|].
  apply refines_then_ret.
  eapply refines_weaken.
  - apply partition_loop_at.
    + eapply exemplars_at_extends; [|exact Hes]. by eexists.
    + by apply new_lists_partitions_at.
  - done.
Qed.

Lemma best_attr_at_extends (h h' : rstore) (sbest : option best_attr_st)
    (pbest : option (@best_attr_t Attr Value Output FL)) :
  extends_store h h' -> best_attr_at h sbest pbest -> best_attr_at h' sbest pbest.
Proof.
  intros Hext. destruct sbest as [sb|], pbest as [pb|]; simpl; try done.
  intros (? & ? & ?). split_and!; [done..|]. by eapply partitions_at_extends.
Qed.

(** One turn of the selection loop in the store follows the turn on
    values. *)
Lemma consider_at (es : list (loc * Output)) (exemplars : rexemplars)
    (h : rstore) (sbest : option best_attr_st)
    (pbest : option (@best_attr_t Attr Value Output FL)) (a : Attr) :
  exemplars_at h es = Some exemplars ->
  best_attr_at h sbest pbest ->
  refines (consider_st es sbest a) h (consider exemplars pbest a)
    (fun h' sb pb => best_attr_at h' sb pb).
Proof.
  intros Hes Hbest. unfold consider_st, consider.
  eapply refines_bind; [by apply partition_on_at|].
  intros sparts pparts Hrun _ Hparts.
  assert (Hext : extends_store h ((partition_on_st a es h).2)).
  { apply (keeps_extends_store (partition_on_st a es) _ h (keeps_partition_on _ a es)). }
  eapply refines_run; [by apply attr_entropy_at|].
  destruct sbest as [sb|], pbest as [pb|]; simpl in Hbest;
    [|done..|by apply refines_ret].
  destruct Hbest as (Hattr & Hentropy & Hold). rewrite Hentropy.
  destruct (Fltb _ _); apply refines_ret; simpl; [done|].
  split_and!; [done..|]. by eapply partitions_at_extends.
Qed.

Lemma best_loop_at (es : list (loc * Output)) (exemplars : rexemplars)
    (names : list Attr) :
  forall (h : rstore) (sbest : option best_attr_st)
         (pbest : option (@best_attr_t Attr Value Output FL)),
  exemplars_at h es = Some exemplars ->
  best_attr_at h sbest pbest ->
  refines (for_each_st (consider_st es) names sbest) h
    (for_each (consider exemplars) names pbest)
    (fun h' sb pb => best_attr_at h' sb pb).
Proof.
  induction names as [|a names IH]; intros h sbest pbest Hes Hbest.
  - by apply refines_ret.
  - cbn [for_each_st for_each].
    eapply refines_bind; [by apply consider_at|].
    intros sb pb _ _ Hsb. apply IH; [|done].
    eapply exemplars_at_extends; [|exact Hes].
    apply (keeps_extends_store (consider_st es sbest a) (fun _ => True) h).
    apply keeps_consider_any.
Qed.

Lemma first_at (h : rstore) (es : list (loc * Output)) (exemplars : rexemplars) :
  exemplars_at h es = Some exemplars ->
  same_outcome
    (fun (e : loc * Output) (e' : @exemplar Attr Value Output) =>
       h !! (e.1) = Some (ODict (e'.1)) /\ e.2 = e'.2)
    (first es) (first exemplars).
Proof.
  destruct es as [|[l o] es].
  - by intros [= <-].
  - by intros (d & rest & Hl & Hrest & ->)%exemplars_at_cons_inv.
Qed.

Lemma find_best_attr_at (es : list (loc * Output)) (exemplars : rexemplars)
    (h : rstore) :
  exemplars_at h es = Some exemplars ->
  refines (find_best_attr_st es) h (find_best_attr exemplars)
    (fun h' sb pb => best_attr_at h' sb pb).
Proof.
  intros Hes. unfold find_best_attr_st, find_best_attr.
  eapply refines_bind
    with (R := fun h' (e : loc * Output) (e' : @exemplar Attr Value Output) =>
                 h' = h /\ h !! (e.1) = Some (ODict (e'.1)) /\ e.2 = e'.2).
  { apply refines_lift. pose proof (first_at h es exemplars Hes) as Hfirst.
    destruct (first es), (first exemplars); simpl in *; try done. }
  intros [l0 o0] [d0 o0'] _ _ (Hh & Hl0 & _). cbn [fst snd] in *.
  unfold lift at 1. cbn [fst snd].
  eapply refines_run; [by apply read_dict_at|].
  by apply best_loop_at.
Qed.

(** The loop that builds [value_subnode_pairs], given that the calls on the
    partitions agree. *)
Lemma build_loop_at (fuel : nat) :
  (forall (l : loc) (h : rstore) es (exemplars : rexemplars),
     h !! l = Some (OList es) -> exemplars_at h es = Some exemplars ->
     refines (id3_helper_st fuel l) h (id3_helper fuel exemplars)
       (fun _ t t' => t = t')) ->
  forall (sparts : list (Value * loc)) (pparts : list (Value * rexemplars))
         (h : rstore) (acc : list (Value * @tree Attr Value Output)),
  Forall2 (fun (p : Value * loc) (p' : Value * rexemplars) =>
             p.1 = p'.1 /\
             exists es, h !! (p.2) = Some (OList es) /\
                        exemplars_at h es = Some (p'.2))
    sparts pparts ->
  refines
    (for_each_st
       (fun value_subnode_pairs '(attr_value, partition) =>
          bind_st (id3_helper_st fuel partition) (fun subnode =>
          ret (value_subnode_pairs ++ [(attr_value, subnode)])))
       sparts acc)
    h
    (for_each
       (fun value_subnode_pairs '(attr_value, partition) =>
          let* subnode := id3_helper fuel partition in
          Ok (value_subnode_pairs ++ [(attr_value, subnode)]))
       pparts acc)
    (fun _ pairs pairs' => pairs = pairs').
Proof.
  intros IH sparts pparts h acc Hall. revert h acc Hall.
  induction sparts as [|[v l] sparts IHs] in pparts |- *; intros h acc Hall.
  - apply Forall2_nil_inv_l in Hall as ->. by apply refines_ret.
  - apply Forall2_cons_inv_l in Hall
      as ([v' part] & pparts' & [Hv (es & Hl & Hes)] & Hall & ->).
    simpl in Hv, Hl, Hes. subst v'. cbn [for_each_st for_each].
    eapply refines_bind
      with (R := fun _ (a a' : list (Value * @tree Attr Value Output)) => a = a').
    + eapply refines_bind; [by eapply IH|].
      intros t t' _ _ <-. by apply refines_ret.
    + intros pairs pairs' _ _ <-. apply IHs.
      assert (Hext : extends_store h
        ((bind_st (id3_helper_st fuel l)
            (fun subnode => ret (acc ++ [(v, subnode)])) h).2)).
      { apply (keeps_extends_store _ (fun _ => True)).
        eapply keeps_bind; [apply keeps_id3_helper|].
        intros sub _. by apply keeps_ret. }
      eapply Forall2_impl; [exact Hall|].
      intros [w lw] [w' partw] [Hw (esw & Hlw & Hesw)]. split; [done|].
      exists esw. split; [by eapply extends_store_lookup|].
      by eapply exemplars_at_extends.
Qed.

(** [id3_helper] on a sequence in the store has the outcome of
    [id3_helper] on the exemplars that the sequence stands for. *)
Lemma id3_helper_at (fuel : nat) (l : loc) (h : rstore)
    (es : list (loc * Output)) (exemplars : rexemplars) :
  h !! l = Some (OList es) -> exemplars_at h es = Some exemplars ->
  refines (id3_helper_st fuel l) h (id3_helper fuel exemplars)
    (fun _ t t' => t = t').
Proof.
  revert l h es exemplars.
  induction fuel as [|fuel IH]; intros l h es exemplars Hl Hes; [done|].
  cbn [id3_helper_st]. rewrite id3_helper_eq. cbn zeta.
  eapply refines_run; [by apply read_list_at|].
  rewrite <- (exemplars_at_outputs _ _ _ Hes).
  destruct (decide (length (set_iter (es.*2)) = 0)); [by apply refines_ret|].
  destruct (decide (length (set_iter (es.*2)) = 1)).
  { eapply refines_bind
      with (R := fun _ (e : loc * Output) (e' : @exemplar Attr Value Output) =>
                   e.2 = e'.2).
    - apply refines_lift. pose proof (first_at h es exemplars Hes) as Hfirst.
      destruct (first es), (first exemplars); simpl in *; try done. tauto.
    - intros x x' _ _ Hx. apply refines_ret. by rewrite Hx. }
  eapply refines_run; [by apply inputs_all_same_at|].
  destruct (inputs_all_same exemplars); [by apply refines_ret|].
  eapply refines_bind; [by apply find_best_attr_at|].
  intros [sb|] [pb|] _ _ Hbest; simpl in Hbest; try done.
  destruct Hbest as (Hattr & _ & [_ Hparts]).
  eapply refines_bind; [by apply build_loop_at|].
  intros pairs pairs' _ _ <-. apply refines_ret. by rewrite Hattr.
Qed.

(** The store-passing [id3] returns the tree that [id3] returns, or raises
    what it raises. *)
Theorem id3_st_refines (l : loc) (h : rstore) (es : list (loc * Output))
    (exemplars : rexemplars) :
  h !! l = Some (OList es) -> exemplars_at h es = Some exemplars ->
  (id3_st l h).1 = id3 exemplars.
Proof.
  intros Hl Hes. unfold id3_st, id3. rewrite Hl, Hes.
  apply same_outcome_eq. by apply (id3_helper_at _ l h es exemplars).
Qed.

End StoreRefinement.

(** * The orders of the instances *)

#[export] Instance exact_float_order : FloatOrder exact_float.
Proof.
  assert (Hlt : forall x y : Q,
    Fltb (Float:=exact_float) x y = true <-> (x < y)%Q).
  { intros x y. apply Z.ltb_lt. }
  assert (Hge : forall x y : Q,
    Fltb (Float:=exact_float) x y = false <-> (y <= x)%Q).
  { intros x y. apply Z.ltb_ge. }
  split.
  - intros x y z Hxy%Hlt Hyz%Hlt. apply Hlt. by apply Qlt_trans with y.
  - intros x y z Hxy%Hlt Hzy%Hge. apply Hlt. by apply Qlt_le_trans with y.
Qed.

#[export] Instance real_float_order : FloatOrder real_float.
Proof.
  split; simpl; intros x y z.
  - destruct (Rlt_dec x y), (Rlt_dec y z), (Rlt_dec x z); try done. lra.
  - destruct (Rlt_dec x y), (Rlt_dec z y), (Rlt_dec x z); try done. lra.
Qed.

(** * The laws on the real numbers *)

Section RealLaws.

Open Scope R_scope.

Lemma Rlog2_1 : Rlog2 1 = 0.
Proof. unfold Rlog2. rewrite ln_1. unfold Rdiv. apply Rmult_0_l. Qed.

Lemma Rlog2_neg (x : R) : 0 < x -> x < 1 -> Rlog2 x < 0.
Proof.
  intros Hpos Hlt. unfold Rlog2.
  pose proof (ln_increasing _ _ Hpos Hlt) as Hinc. rewrite ln_1 in Hinc.
  pose proof ln_lt_2 as H2.
  assert (Hinv : 0 < / ln 2) by (apply Rinv_0_lt_compat; lra).
  unfold Rdiv. nra.
Qed.

Lemma Rterm_neg (c n : nat) :
  (0 < c)%nat -> (c < n)%nat -> INR c * Rlog2 (INR c / INR n) < 0.
Proof.
  intros Hc Hcn.
  assert (Hc' : 0 < INR c) by by apply lt_0_INR.
  assert (Hn' : 0 < INR n) by (apply lt_0_INR; lia).
  assert (Hcn' : INR c < INR n) by by apply lt_INR.
  assert (Hlog : Rlog2 (INR c / INR n) < 0).
  { apply Rlog2_neg.
    - by apply Rdiv_lt_0_compat.
    - apply Rmult_lt_reg_r with (INR n); [done|].
      unfold Rdiv. rewrite Rmult_assoc, Rinv_l; lra. }
  nra.
Qed.

Lemma Rterm_one (n : nat) : (0 < n)%nat -> INR n * Rlog2 (INR n / INR n) = 0.
Proof.
  intros Hn. assert (0 < INR n) by by apply lt_0_INR.
  unfold Rdiv. rewrite Rinv_r by lra. rewrite Rlog2_1. lra.
Qed.

End RealLaws.

#[export] Instance real_float_laws : FloatLaws real_float.
Proof.
  split; simpl.
  - destruct (Rlt_dec 0 0); [lra|done].
  - intros x y. destruct (Rlt_dec x y), (Rlt_dec y x); try done. intros _ _. lra.
  - intros n Hn _. by apply Rterm_one.
  - intros c n Hc Hcn _.
    destruct (Rlt_dec 0 (INR c * Rlog2 (INR c / INR n))) as [Hpos|]; [|done].
    apply Nat.lt_eq_cases in Hcn as [Hlt| ->].
    + pose proof (Rterm_neg c n Hc Hlt). lra.
    + rewrite Rterm_one in Hpos by done. lra.
  - intros c n Hc Hcn _.
    destruct (Rlt_dec (INR c * Rlog2 (INR c / INR n)) 0) as [|Hge]; [done|].
    pose proof (Rterm_neg c n Hc Hcn). lra.
  - intros x. unfold Rminus. lra.
  - intros x y. destruct (Rlt_dec x 0), (Rlt_dec 0 y), (Rlt_dec (x - y) 0);
      try done. lra.
  - intros x y. destruct (Rlt_dec x 0), (Rlt_dec y 0), (Rlt_dec 0 (x - y));
      try done. lra.
  - intros x y. destruct (Rlt_dec 0 x), (Rlt_dec 0 y), (Rlt_dec 0 (x - y));
      try done. lra.
Qed.

#[export] Instance real_float_sum_laws : FloatSumLaws real_float real_float_sum.
Proof. split; simpl; intros; lra. Qed.

(** * Further properties *)

Section Further.
Context {Attr Value Output : Type}.
Context `{EqDecision Attr, EqDecision Value, EqDecision Output}.
Context {value_sets : PySet Value} {output_sets : PySet Output}.
Context {FL : Float}.

Abbreviation dict := (@dict Attr Value).
Abbreviation exemplar := (@exemplar Attr Value Output).
Abbreviation tree := (@tree Attr Value Output).
Abbreviation best_attr_t := (@best_attr_t Attr Value Output FL).
Abbreviation partitions_t := (@partitions_t Attr Value Output).
(** ** Validation, exemplar by exemplar *)

Lemma validate_cons (t : tree) (e : exemplar) (rest : list exemplar) :
  validate t (e :: rest) =
  let* r := call t (e.1) in
  if decide (r <> Some (e.2)) then Ok false else validate t rest.
Proof. by destruct e. Qed.

Lemma validate_Ok_true (t : tree) (exemplars : list exemplar) :
  validate t exemplars = Ok true <->
  forall e, e ∈ exemplars -> call t (e.1) = Ok (Some (e.2)).
Proof.
  induction exemplars as [|e rest IH].
  - split; [by intros _ e ?%elem_of_nil|done].
  - rewrite validate_cons. split.
    + intros Hval e' He'.
      destruct (call t (e.1)) as [r| | | |] eqn:Hcall; simpl in Hval; try done.
      destruct (decide (r <> Some (e.2))) as [|Hr]; [done|].
      apply dec_stable in Hr. subst r.
      apply elem_of_cons in He' as [->|He']; [done|]. by apply IH.
    + intros Hall. rewrite (Hall e); [|left]. simpl.
      rewrite decide_False; [|by intros ?].
      apply IH. intros e' He'. apply Hall. by right.
Qed.

Lemma validate_app_failure (t : tree) (passed rest : list exemplar)
    (e : exemplar) :
  (forall e', e' ∈ passed -> call t (e'.1) = Ok (Some (e'.2))) ->
  call t (e.1) <> Ok (Some (e.2)) ->
  validate t (passed ++ e :: rest) = (let* _ := call t (e.1) in Ok false).
Proof.
  intros Hpassed Hfail.
  induction passed as [|e' passed IH].
  - simpl app. rewrite validate_cons.
    destruct (call t (e.1)) as [r| | | |]; simpl; try done.
    rewrite decide_True; [done|]. by intros ->.
  - rewrite <- app_comm_cons, validate_cons.
    rewrite (Hpassed e'); [|left]. simpl.
    rewrite decide_False; [|by intros ?].
    apply IH. intros e'' He''. apply Hpassed. by right.
Qed.

(** ** The traversal reads the inputs at the names of the nodes only *)

Lemma call_agree (t : tree) (inputs inputs' : dict) :
  (forall k, k ∈ node_names t -> lookup_item k inputs = lookup_item k inputs') ->
  call t inputs = call t inputs'.
Proof.
  induction t as [| |name pairs IH] using tree_induction; intros Hagree;
    [done..|].
  rewrite !call_node. unfold getitem.
  rewrite <- (Hagree name); [|by apply node_names_elem; left].
  destruct (lookup_item name inputs) as [v|]; [|done]. simpl.
  destruct (get_subnode_cases pairs v) as [->|Hin]; [done|].
  rewrite Forall_forall in IH. apply (IH _ Hin).
  intros k Hk. apply Hagree, node_names_elem. right. by eexists _, _.
Qed.


(** ** The shape of the trees that are built *)

Lemma visits_node_names (inputs : dict) (t : tree) (name : Attr)
    (pairs : list (Value * tree)) :
  visits inputs t (TNode name pairs) -> name ∈ node_names t.
Proof.
  assert (Hsub : forall node, visits inputs t node ->
            forall k, k ∈ node_names node -> k ∈ node_names t).
  { induction 1 as [|name' pairs' v Hvis IH Hv]; [done|].
    intros k Hk. apply IH, node_names_elem. right.
    destruct (get_subnode_cases pairs' v) as [Hnone|Hin].
    - rewrite Hnone in Hk. by apply elem_of_nil in Hk.
    - by eexists _, _. }
  intros Hvis. apply (Hsub _ Hvis), node_names_elem. by left.
Qed.

Lemma partition_on_nonempty (a : Attr) (exemplars : list exemplar)
    (parts : partitions_t) :
  partition_on a exemplars = Ok parts ->
  (exemplars <> [] -> parts <> []) /\
  forall v part, (v, part) ∈ parts -> part <> [].
Proof.
  intros Hparts. split.
  - intros Hne Hnil.
    destruct exemplars as [|e rest]; [done|].
    destruct (partition_on_values _ _ _ Hparts) as [_ Hvals].
    apply partition_on_Ok in Hparts as (values & Hall & _).
    apply Forall2_cons_inv_l in Hall as (v & values' & Hv & _ & _).
    assert (Hin : v ∈ parts.*1) by (apply Hvals; exists e; split; [left|done]).
    rewrite Hnil in Hin. by apply elem_of_nil in Hin.
  - intros v part Hin.
    destruct (partition_on_groups _ _ _ _ _ Hparts Hin) as (-> & e & He & Hl).
    destruct (pop_lookup _ _ _ Hl) as [d' Hpop].
    intros Hnil.
    assert (Hin' : (d', e.2) ∈ group a v exemplars).
    { apply elem_of_group. exists (e.1). split; [by destruct e|done]. }
    rewrite Hnil in Hin'. by apply elem_of_nil in Hin'.
Qed.

Lemma id3_helper_no_None (fuel : nat) (exemplars : list exemplar) (t : tree) :
  id3_helper fuel exemplars = Ok t -> exemplars <> [] -> no_None t.
Proof.
  revert exemplars t.
  induction fuel as [|fuel IH]; intros exemplars t Ht Hne; [done|].
  apply id3_helper_Ok in Ht
    as [-> ->|e0 rest He0 Hall ->|Hlen Hsame ->|best pairs _ _ Hbest Hpairs ->].
  - done.
  - constructor.
  - destruct (most_common_output_spec (Attr:=Attr) (Value:=Value) (exemplars.*2)) as (o & -> & _).
    { intros Hnil. by apply fmap_nil_inv in Hnil. }
    constructor.
  - apply find_best_attr_Ok in Hbest
      as (e0 & rest & He0 & [[? _]|(b & [= <-] & Ha & Hparts & _)]); [done|].
    destruct (partition_on_nonempty _ _ _ Hparts) as [Hparts_ne Hpart_ne].
    constructor.
    + intros Hnil. rewrite Hnil in Hpairs. apply Forall2_nil_inv_r in Hpairs.
      by apply Hparts_ne.
    + intros v sub Hin.
      destruct (built_pairs_elem_r _ _ _ _ _ Hpairs Hin) as (part & Hpart & Hbuilt).
      apply (IH _ _ Hbuilt). by apply (Hpart_ne v).
Qed.

Lemma call_None_visits (inputs : dict) (t : tree) :
  no_None t -> call t inputs = Ok None ->
  exists name pairs input,
    visits inputs t (TNode name pairs) /\
    lookup_item name inputs = Some input /\ input ∉ pairs.*1.
Proof.
  induction t as [| |name pairs IH] using tree_induction; intros Hno Hcall;
    [by inversion Hno|done|].
  rewrite call_node in Hcall.
  destruct (getitem inputs name) as [v| | | |] eqn:Hv; try done.
  apply getitem_Ok in Hv. simpl in Hcall.
  destruct (decide (v ∈ pairs.*1)) as [Hin|Hnotin].
  - apply get_subnode_elem in Hin.
    inversion Hno as [|? ? _ Hsubs]; subst.
    rewrite Forall_forall in IH.
    destruct (IH _ Hin (Hsubs _ _ Hin) Hcall)
      as (name' & pairs' & input & Hvis & Hinput & Hnotin).
    exists name', pairs', input. split_and!; [|done..].
    eapply visits_trans; [|exact Hvis].
    by apply (visits_next inputs _ name pairs v); [constructor|].
  - exists name, pairs, v. split_and!; [constructor|done..].
Qed.

Lemma outputs_of_node (name : Attr) (pairs : list (Value * tree)) (o : Output) :
  o ∈ outputs_of (TNode name pairs) <->
  exists v sub, (v, sub) ∈ pairs /\ o ∈ outputs_of sub.
Proof.
  simpl. rewrite list_elem_of_join. split.
  - intros (l & Ho & ([v sub] & -> & Hin)%list_elem_of_fmap). by exists v, sub.
  - intros (v & sub & Hin & Ho). exists (outputs_of sub). split; [done|].
    apply list_elem_of_fmap. by exists (v, sub).
Qed.

Lemma call_outputs_of (t : tree) (inputs : dict) (o : Output) :
  call t inputs = Ok (Some o) -> o ∈ outputs_of t.
Proof.
  induction t as [|o'|name pairs IH] using tree_induction; intros Hcall.
  - done.
  - injection Hcall as ->. by left.
  - rewrite call_node in Hcall.
    destruct (getitem inputs name) as [v| | | |]; try done. simpl in Hcall.
    destruct (get_subnode_cases pairs v) as [Hnone|Hin].
    { by rewrite Hnone in Hcall. }
    rewrite Forall_forall in IH. apply outputs_of_node.
    exists v, (get_subnode_for_input pairs v). split; [done|].
    by apply (IH _ Hin).
Qed.

Lemma group_outputs_subseteq (a : Attr) (v : Value) (exemplars : list exemplar) :
  (group a v exemplars).*2 ⊆ exemplars.*2.
Proof.
  intros o ([d' o'] & -> & (d & Hd & _)%elem_of_group)%list_elem_of_fmap.
  apply list_elem_of_fmap. by exists (d, o').
Qed.

Lemma id3_helper_outputs (fuel : nat) (exemplars : list exemplar) (t : tree) :
  id3_helper fuel exemplars = Ok t -> outputs_of t ⊆ exemplars.*2.
Proof.
  revert exemplars t.
  induction fuel as [|fuel IH]; intros exemplars t Ht; [done|].
  apply id3_helper_Ok in Ht
    as [-> ->|e0 rest He0 Hall ->|Hlen Hsame ->|best pairs _ _ Hbest Hpairs ->].
  - done.
  - intros o ->%list_elem_of_singleton. rewrite He0. by left.
  - destruct (most_common_output_spec (Attr:=Attr) (Value:=Value) (exemplars.*2)) as (o & -> & Ho & _).
    { intros Hnil. rewrite Hnil, set_iter_nil in Hlen. simpl in Hlen. lia. }
    by intros o' ->%list_elem_of_singleton.
  - apply find_best_attr_Ok in Hbest
      as (e0 & rest & He0 & [[? _]|(b & [= <-] & Ha & Hparts & _)]); [done|].
    intros o (v & sub & Hin & Ho)%outputs_of_node.
    destruct (built_pairs_elem_r _ _ _ _ _ Hpairs Hin) as (part & Hpart & Hbuilt).
    destruct (partition_on_groups _ _ _ _ _ Hparts Hpart) as (-> & _).
    by apply (group_outputs_subseteq (attr best) v), (IH _ _ Hbuilt).
Qed.



(** ** The sizes of the partitions and of the tree *)

Lemma sum_list_fmap_add {A : Type} (f g : A -> nat) (l : list A) :
  sum_list ((fun x => f x + g x) <$> l) = sum_list (f <$> l) + sum_list (g <$> l).
Proof. induction l as [|x l IH]; csimpl; [done|]. rewrite IH. lia. Qed.

Lemma sum_list_fmap_ext {A : Type} (f g : A -> nat) (l : list A) :
  (forall x, x ∈ l -> f x = g x) -> sum_list (f <$> l) = sum_list (g <$> l).
Proof.
  induction l as [|x l IH]; intros Hfg; csimpl; [done|].
  rewrite (Hfg x); [|left]. rewrite IH; [done|].
  intros y Hy. apply Hfg. by right.
Qed.

Lemma sum_list_one_of (v : Value) (vs : list Value) :
  NoDup vs -> v ∈ vs ->
  sum_list ((fun w => if decide (v = w) then 1 else 0) <$> vs) = 1.
Proof.
  induction 1 as [|w vs Hnotin Hnodup IH]; intros Hin; [by apply elem_of_nil in Hin|].
  csimpl. destruct (decide (v = w)) as [->|Hne].
  - rewrite (sum_list_fmap_ext _ (fun _ => 0)).
    + clear. induction vs; csimpl; lia.
    + intros x Hx. rewrite decide_False; [done|]. by intros <-.
  - apply elem_of_cons in Hin as [?|Hin]; [done|]. by rewrite IH.
Qed.

Lemma sum_list_fmap_le {A B : Type} (f : A -> nat) (g : B -> nat)
    (l : list A) (k : list B) :
  Forall2 (fun x y => g y <= f x) l k ->
  sum_list (g <$> k) <= sum_list (f <$> l).
Proof. induction 1; csimpl; lia. Qed.

Lemma group_sizes (a : Attr) (vs : list Value) (exemplars : list exemplar) :
  NoDup vs ->
  (forall e, e ∈ exemplars ->
     exists v, v ∈ vs /\ lookup_item a (e.1) = Some v) ->
  sum_list ((fun w => length (group a w exemplars)) <$> vs) = length exemplars.
Proof.
  intros Hnodup. induction exemplars as [|[inputs output] rest IH]; intros Hall.
  - rewrite (sum_list_fmap_ext _ (fun _ => 0)) by done.
    clear. induction vs; csimpl in *; lia.
  - destruct (Hall (inputs, output)) as (v & Hv & Hl); [left|].
    destruct (pop_lookup _ _ _ Hl) as [d' Hpop].
    rewrite (sum_list_fmap_ext _
      (fun w => (if decide (v = w) then 1 else 0) + length (group a w rest))).
    + rewrite sum_list_fmap_add, sum_list_one_of by done.
      rewrite IH; [done|]. intros e He. apply Hall. by right.
    + intros w _.
      rewrite (group_cons a w inputs output rest v d' Hpop).
      by destruct (decide (v = w)).
Qed.

Lemma partition_on_sizes (a : Attr) (exemplars : list exemplar)
    (parts : partitions_t) :
  partition_on a exemplars = Ok parts ->
  sum_list ((fun part : Value * list exemplar => length (part.2)) <$> parts)
  = length exemplars.
Proof.
  intros Hparts.
  apply partition_on_Ok in Hparts as (values & Hall & ->).
  rewrite <- list_fmap_compose.
  apply (group_sizes a (set_iter values) exemplars); [apply set_iter_NoDup|].
  intros e He.
  apply list_elem_of_lookup in He as [i Hi].
  destruct (Forall2_lookup_l _ _ _ _ _ Hall Hi) as (v & Hv & Hl).
  exists v. split; [|done].
  apply set_iter_elem. by apply list_elem_of_lookup_2 in Hv.
Qed.

Lemma id3_helper_leaves (fuel : nat) (exemplars : list exemplar) (t : tree) :
  id3_helper fuel exemplars = Ok t ->
  length (outputs_of t) <= length exemplars.
Proof.
  revert exemplars t.
  induction fuel as [|fuel IH]; intros exemplars t Ht; [done|].
  apply id3_helper_Ok in Ht
    as [-> ->|e0 rest He0 Hall ->|Hlen Hsame ->|best pairs _ _ Hbest Hpairs ->].
  - done.
  - rewrite He0. simpl. lia.
  - destruct (most_common_output_spec (Attr:=Attr) (Value:=Value) (exemplars.*2))
      as (o & -> & Ho & _).
    { intros Hnil. rewrite Hnil, set_iter_nil in Hlen. simpl in Hlen. lia. }
    destruct exemplars; [by apply elem_of_nil in Ho|]. simpl. lia.
  - apply find_best_attr_Ok in Hbest
      as (e0 & rest & He0 & [[? _]|(b & [= <-] & Ha & Hparts & _)]); [done|].
    rewrite <- (partition_on_sizes _ _ _ Hparts).
    cbn [outputs_of]. rewrite length_join, <- list_fmap_compose.
    apply sum_list_fmap_le.
    eapply Forall2_impl; [exact Hpairs|].
    intros part pair [_ Hbuilt]. simpl. by apply (IH _ _ Hbuilt).
Qed.

Lemma no_None_outputs (t : tree) : no_None t -> outputs_of t <> [].
Proof.
  induction 1 as [o|name pairs Hne Hsubs IH]; [done|].
  destruct pairs as [|[v sub] rest]; [done|]. csimpl.
  intros [Hnil _]%app_eq_nil. by apply (IH v sub); [left|].
Qed.

(** ** The exceptions of the builder *)

Lemma for_each_KeyError {A S : Type} (body : S -> A -> result S) (l : list A)
    (a : A) (s : S) :
  (forall s x, (exists s', body s x = Ok s') \/ body s x = KeyError) ->
  a ∈ l -> (forall s, body s a = KeyError) ->
  for_each body l s = KeyError.
Proof.
  intros Hcases Hin Ha. revert s.
  induction l as [|x l IH]; intros s; [by apply elem_of_nil in Hin|].
  simpl. destruct (Hcases s x) as [[s' Hs']|Hk]; [|by rewrite Hk].
  rewrite Hs'. simpl.
  apply elem_of_cons in Hin as [->|Hin]; [by rewrite Ha in Hs'|]. by apply IH.
Qed.

Lemma partition_on_KeyError (a : Attr) (exemplars : list exemplar) (e : exemplar) :
  e ∈ exemplars -> lookup_item a (e.1) = None ->
  partition_on a exemplars = KeyError.
Proof.
  intros He Hl.
  destruct (partition_on_cases a exemplars) as [[parts Hparts]|]; [|done].
  apply partition_on_Ok in Hparts as (values & Hall & _).
  apply list_elem_of_lookup in He as [i Hi].
  destruct (Forall2_lookup_l _ _ _ _ _ Hall Hi) as (v & _ & Hv). congruence.
Qed.

Lemma two_outputs (exemplars : list exemplar) (e1 e2 : exemplar) :
  e1 ∈ exemplars -> e2 ∈ exemplars -> e1.2 <> e2.2 ->
  2 <= length (set_iter (exemplars.*2)).
Proof.
  intros H1 H2 Hne. apply (set_iter_length_2 _ (e1.2) (e2.2)); [| |done].
  - apply list_elem_of_fmap. by exists e1.
  - apply list_elem_of_fmap. by exists e2.
Qed.

Lemma set_iter_one_output (exemplars : list exemplar) (output : Output) :
  exemplars <> [] -> (forall e, e ∈ exemplars -> e.2 = output) ->
  length (set_iter (exemplars.*2)) = 1.
Proof.
  intros Hne Hall.
  assert (Hout : forall o, o ∈ set_iter (exemplars.*2) -> o = output).
  { intros o Ho. apply (proj1 (set_iter_elem _ _)) in Ho.
    apply list_elem_of_fmap in Ho as (e & -> & He). by apply Hall. }
  pose proof (set_iter_NoDup (exemplars.*2)) as Hnodup.
  destruct (set_iter (exemplars.*2)) as [|x [|y l]] eqn:Hset; [|done|].
  - apply (f_equal length), set_iter_length_0 in Hset.
    by apply fmap_nil_inv in Hset.
  - rewrite (Hout x), (Hout y) in Hnodup; [|right; left|left].
    apply NoDup_cons in Hnodup as [Hnotin _]. destruct Hnotin. by left.
Qed.

Lemma id3_helper_select (fuel : nat) (exemplars : list exemplar) :
  2 <= length (set_iter (exemplars.*2)) ->
  inputs_all_same exemplars = false ->
  id3_helper (S fuel) exemplars =
  let* best_attr := find_best_attr exemplars in
  match best_attr with
  | None => TypeError
  | Some best =>
      let* value_subnode_pairs :=
        for_each
          (fun value_subnode_pairs '(attr_value, partition) =>
             let* subnode := id3_helper fuel partition in
             Ok (value_subnode_pairs ++ [(attr_value, subnode)]))
          (partitions best) [] in
      Ok (TNode (attr best) value_subnode_pairs)
  end.
Proof.
  intros Hlen Hsame. rewrite id3_helper_eq. cbn zeta.
  rewrite !decide_False by lia. by rewrite Hsame.
Qed.

Lemma dict_eqb_keys (d1 d2 : dict) (k : Attr) :
  dict_eqb d1 d2 = true -> k ∈ keys d1 -> k ∈ keys d2.
Proof.
  unfold dict_eqb. intros [_ Hall]%andb_prop Hk.
  rewrite forallb_elem in Hall.
  apply list_elem_of_fmap in Hk as ([k' v] & -> & Hin).
  specialize (Hall _ Hin). simpl in Hall. apply bool_decide_eq_true in Hall.
  apply lookup_item_is_Some. by eexists.
Qed.

Lemma inputs_differ (exemplars : list exemplar) (e1 e2 : exemplar) :
  e1 ∈ exemplars -> e2 ∈ exemplars -> dict_eqb (e1.1) (e2.1) = false ->
  inputs_all_same exemplars = false.
Proof.
  intros H1 H2 Hne.
  destruct (inputs_all_same exemplars) eqn:Hsame; [|done].
  rewrite inputs_all_same_true in Hsame. by rewrite (Hsame e1 e2) in Hne.
Qed.

(** ** The selection, for any order of the floats *)

Lemma find_best_attr_smallest `{!FloatOrder FL} (exemplars : list exemplar)
    (best : best_attr_t) :
  find_best_attr exemplars = Ok (Some best) ->
  exists exemplar0,
    first exemplars = Ok exemplar0 /\
    first_smallest exemplars (keys (exemplar0.1)) best.
Proof.
  intros Hbest. unfold find_best_attr in Hbest.
  apply bind_Ok in Hbest as (e0 & He0 & Hloop). exists e0. split; [done|].
  destruct (keys (e0.1)) as [|a names]; [done|].
  cbn [for_each] in Hloop. apply bind_Ok in Hloop as (r1 & Hc & Hrest).
  apply consider_score in Hc as (s & Hs & parts & ->).
  destruct (best_loop_first_smallest exemplars names [a] _ _ Hrest)
    as (best' & [= <-] & Hfs); [|done].
  exists [], []. split_and!; simpl; [done..| |]; by intros b ?%elem_of_nil.
Qed.

Lemma pure_outputs_leaf (fuel : nat) (partition : list exemplar) (t : tree) :
  partition <> [] -> pure_outputs partition ->
  id3_helper fuel partition = Ok t ->
  exists o, t = TLeaf o.
Proof.
  intros Hne Hpure Ht. destruct fuel as [|fuel]; [done|].
  destruct partition as [|e0 rest]; [done|].
  rewrite id3_helper_eq in Ht. cbn zeta in Ht.
  rewrite (set_iter_one_output (e0 :: rest) (e0.2)) in Ht; [|done|].
  - simpl in Ht. injection Ht as <-. by eexists.
  - intros e He. apply Hpure; [done|left].
Qed.

(** ** The vote among equal counts *)

Lemma most_common_loop_first (outputs l seen : list Output) (t : tree) (c : nat) :
  (t = TNone /\ c = 0 /\ (forall b, b ∈ seen -> count outputs b = 0)) \/
  (exists before o after,
     seen = before ++ o :: after /\ t = TLeaf o /\ c = count outputs o /\
     (forall b, b ∈ before -> count outputs b < c) /\
     (forall b, b ∈ after -> count outputs b <= c)) ->
  let r := fold_left
             (fun '(most_common, most_common_count) output =>
                let count := count outputs output in
                if decide (most_common_count < count) then (TLeaf output, count)
                else (most_common, most_common_count))
             l (t, c) in
  (r.1 = TNone /\ r.2 = 0 /\ (forall b, b ∈ seen ++ l -> count outputs b = 0)) \/
  (exists before o after,
     seen ++ l = before ++ o :: after /\ r.1 = TLeaf o /\ r.2 = count outputs o /\
     (forall b, b ∈ before -> count outputs b < r.2) /\
     (forall b, b ∈ after -> count outputs b <= r.2)).
Proof.
  cbn zeta. revert seen t c.
  induction l as [|x l IH]; intros seen t c Hinv.
  { rewrite app_nil_r. exact Hinv. }
  cbn [fold_left].
  replace (seen ++ x :: l) with ((seen ++ [x]) ++ l) by by rewrite <- app_assoc.
  destruct (decide (c < count outputs x)) as [Hlt|Hge]; apply IH.
  - right. exists seen, x, []. split_and!; [done..| |by intros b ?%elem_of_nil].
    intros b Hb.
    destruct Hinv as [(_ & -> & Hzero)|(before & o & after & -> & _ & -> & Hb1 & Hb2)].
    + by rewrite (Hzero b Hb).
    + apply elem_of_app in Hb as [Hb|[->|Hb]%elem_of_cons]; [|done|].
      * specialize (Hb1 b Hb). lia.
      * specialize (Hb2 b Hb). lia.
  - destruct Hinv as [(-> & -> & Hzero)|(before & o & after & -> & -> & -> & Hb1 & Hb2)].
    + left. split_and!; [done..|].
      intros b [Hb|Hb%list_elem_of_singleton]%elem_of_app; [by apply Hzero|].
      subst b. lia.
    + right. exists before, o, (after ++ [x]).
      split_and!; [by rewrite <- app_assoc|done..|].
      intros b [Hb|Hb%list_elem_of_singleton]%elem_of_app; [by apply Hb2|].
      subst b. lia.
Qed.

(** ** The inverse query finds every answer *)

Lemma mjoin_cons {A : Type} (l : list A) (ls : list (list A)) :
  mjoin (l :: ls) = l ++ mjoin ls.
Proof. done. Qed.

Lemma count_app (l1 l2 : list Output) (x : Output) :
  count (l1 ++ l2) x = count l1 x + count l2 x.
Proof. unfold count. by rewrite filter_app, length_app. Qed.

Lemma get_inputs_pairs_grows (name : Attr) (output : Output)
    (ps : list (Value * tree)) :
  Forall (fun p => forall input acc, exists new,
            get_inputs (p.2) output input acc = acc ++ new) ps ->
  forall input acc, exists new,
    get_inputs_pairs name output ps input acc = acc ++ new.
Proof.
  induction 1 as [|[v sub] ps Hsub _ IH]; intros input acc;
    cbn [get_inputs_pairs]; cbn zeta.
  { exists []. by rewrite app_nil_r. }
  cbn [snd] in Hsub.
  destruct sub as [|o|name' pairs'].
  - apply IH.
  - destruct (decide (o = output)); [|apply IH].
    destruct (IH (setitem name v input) (acc ++ [setitem name v input]))
      as [new ->].
    eexists. by rewrite <- app_assoc.
  - destruct (Hsub (setitem name v input) acc) as [new1 Hnew1].
    rewrite Hnew1.
    destruct (IH (setitem name v input) (acc ++ new1)) as [new ->].
    eexists. by rewrite <- app_assoc.
Qed.

Lemma get_inputs_grows (node : tree) (output : Output) (input : dict)
    (acc : list dict) :
  exists new, get_inputs node output input acc = acc ++ new.
Proof.
  revert input acc.
  induction node as [| |name pairs IH] using tree_induction; intros input acc;
    [exists []; by rewrite app_nil_r..|].
  rewrite get_inputs_node. by apply get_inputs_pairs_grows.
Qed.

Lemma get_inputs_pairs_finds (name : Attr) (output : Output) (inputs : dict)
    (v : Value) (ps : list (Value * tree)) :
  lookup_item name inputs = Some v ->
  Forall (fun p => forall name' pairs', p.2 = TNode name' pairs' ->
            forall input acc,
              extends input inputs ->
              call (p.2) inputs = Ok (Some output) ->
              exists a, a ∈ get_inputs (p.2) output input acc /\
                        extends a inputs) ps ->
  forall input acc,
    (forall k w, k <> name -> lookup_item k input = Some w ->
                 lookup_item k inputs = Some w) ->
    call (get_subnode_for_input ps v) inputs = Ok (Some output) ->
    exists a, a ∈ get_inputs_pairs name output ps input acc /\ extends a inputs.
Proof.
  intros Hv. induction 1 as [|[v' sub] ps Hsub _ IH]; intros input acc Hcompat Hcall;
    [done|].
  assert (Hcompat' : forall k w, k <> name ->
            lookup_item k (setitem name v' input) = Some w ->
            lookup_item k inputs = Some w).
  { intros k w Hk. rewrite lookup_setitem_ne by done. by apply Hcompat. }
  cbn [get_subnode_for_input] in Hcall. cbn [get_inputs_pairs]. cbn zeta.
  destruct (decide (v = v')) as [<-|Hne].
  - assert (Hext : extends (setitem name v input) inputs).
    { intros k w. destruct (decide (k = name)) as [->|Hk].
      - rewrite lookup_setitem. congruence.
      - by apply Hcompat'. }
    assert (Hkeep : forall acc' a, a ∈ acc' ->
      a ∈ get_inputs_pairs name output ps (setitem name v input) acc').
    { intros acc' a Ha.
      destruct (get_inputs_pairs_grows name output ps) with
        (input := setitem name v input) (acc := acc') as [new ->].
      - apply Forall_forall. intros p _ input' acc''. apply get_inputs_grows.
      - apply elem_of_app. by left. }
    destruct sub as [|o|name' pairs']; [done| |].
    + injection Hcall as ->. rewrite decide_True by done.
      exists (setitem name v input). split; [|done].
      apply Hkeep, elem_of_app. right. by left.
    + destruct (Hsub name' pairs' eq_refl (setitem name v input) acc Hext Hcall)
        as (a & Ha & Haext).
      exists a. split; [|done]. by apply Hkeep.
  - by apply IH.
Qed.

Lemma get_inputs_finds (node : tree) (output : Output) (inputs : dict) :
  forall name pairs, node = TNode name pairs ->
  forall input acc,
    extends input inputs ->
    call node inputs = Ok (Some output) ->
    exists a, a ∈ get_inputs node output input acc /\ extends a inputs.
Proof.
  induction node as [| |name pairs IH] using tree_induction;
    intros name0 pairs0 Heq input acc Hext Hcall; [done..|].
  rewrite get_inputs_node. rewrite call_node in Hcall.
  destruct (getitem inputs name) as [v| | | |] eqn:Hv; try done.
  apply getitem_Ok in Hv. simpl in Hcall.
  apply (get_inputs_pairs_finds name output inputs v pairs Hv); [|by auto|done].
  eapply Forall_impl; [exact IH|]. intros p Hp. exact Hp.
Qed.

Lemma get_inputs_pairs_length (name : Attr) (output : Output)
    (ps : list (Value * tree)) :
  Forall (fun p => forall name' pairs', p.2 = TNode name' pairs' ->
            forall input acc,
              length (get_inputs (p.2) output input acc)
              = length acc + count (outputs_of (p.2)) output) ps ->
  forall input acc,
    length (get_inputs_pairs name output ps input acc)
    = length acc + count (mjoin ((fun p : Value * tree => outputs_of (p.2)) <$> ps))
                     output.
Proof.
  induction 1 as [|[v sub] ps Hsub _ IH]; intros input acc.
  { unfold count. simpl. lia. }
  rewrite fmap_cons, mjoin_cons, count_app.
  cbn [get_inputs_pairs]. cbn zeta. rewrite IH. cbn [snd] in *.
  destruct sub as [|o|name' pairs'].
  - unfold count at 2. simpl. lia.
  - unfold count at 2. simpl. rewrite filter_cons.
    destruct (decide (o = output)); simpl; rewrite ?length_app; simpl; lia.
  - rewrite (Hsub name' pairs' eq_refl). lia.
Qed.

Lemma get_inputs_length (node : tree) (output : Output) :
  forall name pairs, node = TNode name pairs ->
  forall input acc,
    length (get_inputs node output input acc)
    = length acc + count (outputs_of node) output.
Proof.
  induction node as [| |name pairs IH] using tree_induction;
    intros name0 pairs0 Heq input acc; [done..|].
  rewrite get_inputs_node. cbn [outputs_of].
  by apply get_inputs_pairs_length.
Qed.

(** ** Validation, traversal, construction and the inverse query *)

(** X1. [validate] returns [True] exactly when the tree answers the inputs
    of every exemplar with the output of that exemplar.  Otherwise the first
    exemplar that is not answered with its output decides: [False] when the
    tree returns an answer for it, and the exception of the traversal when
    it raises; the exemplars after it are not looked at. *)
Theorem validate_outcome (t : tree) (exemplars : list exemplar) :
  (validate t exemplars = Ok true <->
   forall e, e ∈ exemplars -> call t (e.1) = Ok (Some (e.2))) /\
  (forall passed e rest,
     exemplars = passed ++ e :: rest ->
     (forall e', e' ∈ passed -> call t (e'.1) = Ok (Some (e'.2))) ->
     call t (e.1) <> Ok (Some (e.2)) ->
     validate t exemplars = (let* _ := call t (e.1) in Ok false)).
Proof.
  split; [apply validate_Ok_true|].
  intros passed e rest -> Hpassed Hfail. by apply validate_app_failure.
Qed.

(** X2. The note in the docstring of [validate]: when two of the exemplars
    have equal [inputs] and different outputs, no tree is valid for them,
    whether it was built from them or not. *)
Theorem validate_inconsistent (t : tree) (exemplars : list exemplar)
    (e1 e2 : exemplar) :
  e1 ∈ exemplars -> e2 ∈ exemplars ->
  dict_wf (e1.1) -> dict_wf (e2.1) ->
  dict_eqb (e1.1) (e2.1) = true -> e1.2 <> e2.2 ->
  validate t exemplars <> Ok true.
Proof.
  intros H1 H2 Hwf1 Hwf2 Heq Hne Hval.
  rewrite validate_Ok_true in Hval.
  pose proof (Hval _ H1) as Hc1. pose proof (Hval _ H2) as Hc2.
  rewrite (call_agree t (e1.1) (e2.1)) in Hc1; [congruence|].
  intros k _. by apply (dict_eqb_true (e1.1) (e2.1)).
Qed.

(** X4. An answer does not change when the inputs get more items: if the
    tree returns [r] for [inputs], it returns [r] for every dict that has
    the items of [inputs]. *)
Theorem call_extends (t : tree) (inputs inputs' : dict) (r : option Output) :
  call t inputs = Ok r -> extends inputs inputs' -> call t inputs' = Ok r.
Proof.
  intros Hcall Hext. rewrite <- Hcall.
  induction t as [| |name pairs IH] using tree_induction; [done..|].
  rewrite call_node in Hcall. rewrite !call_node.
  destruct (getitem inputs name) as [v| | | |] eqn:Hv; try done.
  apply getitem_Ok in Hv. pose proof (Hext _ _ Hv) as Hv'.
  apply getitem_Ok in Hv'. rewrite Hv'. simpl in *.
  destruct (get_subnode_cases pairs v) as [->|Hin]; [done|].
  rewrite Forall_forall in IH. by apply (IH _ Hin).
Qed.

(** X5. The tree built from exemplars does not raise on inputs that have
    every key that occurs in the [inputs] of an exemplar. *)
Theorem call_built_returns (exemplars : list exemplar) (t : tree)
    (inputs : dict) :
  (forall e, e ∈ exemplars -> dict_wf (e.1)) ->
  id3 exemplars = Ok t ->
  (forall e k, e ∈ exemplars -> k ∈ keys (e.1) ->
               is_Some (lookup_item k inputs)) ->
  exists r, call t inputs = Ok r.
Proof.
  intros Hwf Ht Hkeys.
  destruct (call_cases t inputs) as [|Herr]; [done|].
  apply call_KeyError_visits in Herr as (name & pairs & Hvis & Hnone).
  apply visits_node_names in Hvis.
  destruct (id3_helper_wf _ _ _ Hwf Ht) as [_ Hnames].
  destruct (Hnames _ Hvis) as (e & He & Hk).
  destruct (Hkeys e name He Hk) as [v Hv]. congruence.
Qed.



(** X3. For exemplars whose [inputs] all have the same keys, the tree that
    [id3] builds is valid for them exactly when no two of them have equal
    [inputs] and different outputs; [validate] returns [False] in the other
    case, and does not raise. *)
Theorem id3_valid_iff_consistent (names : list Attr) (exemplars : list exemplar) :
  uniform names exemplars ->
  exists t,
    id3 exemplars = Ok t /\
    (validate t exemplars = Ok true <-> consistent exemplars) /\
    (validate t exemplars = Ok false <-> ~ consistent exemplars).
Proof.
  intros Huni.
  destruct (id3_uniform_Ok names exemplars Huni) as (t & Ht & _).
  exists t. split; [done|].
  assert (Hwf : forall e, e ∈ exemplars -> dict_wf (e.1)).
  { intros e He. by apply Huni. }
  assert (Htrue : validate t exemplars = Ok true <-> consistent exemplars).
  { split.
    - intros Hval e1 e2 H1 H2 Heq.
      destruct (decide (e1.2 = e2.2)) as [|Hne]; [done|].
      rewrite validate_Ok_true in Hval.
      pose proof (Hval _ H1) as Hc1. pose proof (Hval _ H2) as Hc2.
      rewrite (call_agree t (e1.1) (e2.1)) in Hc1; [congruence|].
      intros k _. by apply (dict_eqb_true (e1.1) (e2.1)); [apply Hwf..|].
    - intros Hcons. apply validate_Ok_true. intros e He.
      by apply (id3_helper_correct _ names exemplars t Huni Hcons Ht e). }
  split; [done|].
  assert (Hbool : exists b, validate t exemplars = Ok b).
  { assert (Hall : forall l, l ⊆ exemplars -> exists b, validate t l = Ok b);
      [|by apply Hall].
    induction l as [|e l IH]; intros Hsub; [by exists true|].
    rewrite validate_cons.
    destruct (call_cases t (e.1)) as [[r ->]|Herr]; cycle 1.
    { apply call_KeyError_visits in Herr as (name & pairs & Hvis & Hnone).
      apply visits_node_names in Hvis.
      destruct (id3_helper_wf _ _ _ Hwf Ht) as [_ Hnames].
      destruct (Hnames _ Hvis) as (e' & He' & Hk).
      destruct (Huni e') as [_ Hperm]; [done|].
      destruct (Huni e) as [_ Hperm']; [apply Hsub; left|].
      rewrite Hperm, <- Hperm' in Hk.
      apply lookup_item_is_Some in Hk as [v Hv]. congruence. }
    simpl. destruct (decide (r <> Some (e.2))); [by exists false|].
    apply IH. intros x Hx. apply Hsub. by right. }
  destruct Hbool as [[|] Hb]; rewrite Hb.
  - split; [done|]. intros Hnot. destruct Hnot. by apply Htrue.
  - split; [|done]. intros _ Hcons. apply Htrue in Hcons. congruence.
Qed.

(** X6. A tree built from exemplars, their outputs being values other than
    [None], answers [None] only for a value that it has no branch for: the traversal returns [None] exactly when it visits
    a node at which the value of the inputs is the value of none of the
    pairs of the node. *)
Theorem call_None_iff_unseen (exemplars : list exemplar) (t : tree)
    (inputs : dict) :
  exemplars <> [] ->
  id3 exemplars = Ok t ->
  (call t inputs = Ok None <->
   exists name pairs input,
     visits inputs t (TNode name pairs) /\
     lookup_item name inputs = Some input /\ input ∉ pairs.*1).
Proof.
  intros Hne Ht. split.
  - apply call_None_visits. by apply (id3_helper_no_None _ _ _ Ht).
  - intros (name & pairs & input & Hvis & Hinput & Hnotin).
    rewrite (call_visits _ _ _ Hvis), call_node.
    apply getitem_Ok in Hinput. rewrite Hinput. simpl.
    by rewrite get_subnode_missing.
Qed.

(** X7. An output that a built tree returns is the output of one of the
    exemplars it was built from. *)
Theorem call_built_output (exemplars : list exemplar) (t : tree)
    (inputs : dict) (output : Output) :
  id3 exemplars = Ok t ->
  call t inputs = Ok (Some output) ->
  output ∈ exemplars.*2.
Proof.
  intros Ht Hcall. apply (id3_helper_outputs _ _ _ Ht).
  by apply (call_outputs_of t inputs).
Qed.

(** X8. A built tree has at most as many leaves as there are exemplars, and
    at least one when there is an exemplar. *)
Theorem id3_leaves_bound (exemplars : list exemplar) (t : tree) :
  id3 exemplars = Ok t ->
  length (outputs_of t) <= length exemplars /\
  (exemplars <> [] -> 1 <= length (outputs_of t)).
Proof.
  intros Ht. split; [by apply (id3_helper_leaves _ _ _ Ht)|].
  intros Hne. pose proof (id3_helper_no_None _ _ _ Ht Hne) as Hno.
  apply no_None_outputs in Hno. destruct (outputs_of t); [done|simpl; lia].
Qed.

(** X9. For exemplars whose outputs are values other than [None], [id3]
    returns the tree whose root is [None] for no exemplars, and only
    then. *)
Theorem id3_None_iff_no_exemplars (exemplars : list exemplar) :
  id3 exemplars = Ok TNone <-> exemplars = [].
Proof.
  split.
  - intros Ht. destruct exemplars as [|e rest]; [done|].
    pose proof (id3_helper_no_None _ _ _ Ht) as Hno.
    assert (Hne : e :: rest <> []) by done. specialize (Hno Hne).
    inversion Hno.
  - intros ->. apply id3_helper_nil.
Qed.

(** X10. When all exemplars have the same output, [id3] returns that output
    as the whole tree, whatever the [inputs] are.  The tree then answers
    every call with that output, and [get_inputs_for_output] returns the
    empty list for it. *)
Theorem id3_one_output (exemplars : list exemplar) (output : Output) :
  exemplars <> [] ->
  (forall e, e ∈ exemplars -> e.2 = output) ->
  exists t,
    id3 exemplars = Ok t /\
    (forall inputs, call t inputs = Ok (Some output)) /\
    get_inputs_for_output t output = [].
Proof.
  intros Hne Hall. exists (TLeaf output). split; [|done].
  unfold id3. rewrite id3_helper_eq. cbn zeta.
  rewrite (set_iter_one_output exemplars output Hne Hall). simpl.
  destruct exemplars as [|e rest]; [done|]. simpl.
  by rewrite (Hall e); [|left].
Qed.

(** X11. [id3] raises [TypeError] when the [inputs] of the first exemplar
    are the empty dict while some exemplar has other [inputs] and some
    exemplar has another output: the loop over the keys has no turn, and
    [best_attr], still [None], is subscripted. *)
Theorem id3_no_keys_TypeError (output : Output) (rest : list exemplar)
    (e1 e2 : exemplar) :
  e1 ∈ rest -> e1.2 <> output ->
  e2 ∈ rest -> e2.1 <> [] ->
  id3 (([], output) :: rest) = TypeError.
Proof.
  intros H1 Hout H2 Hin. unfold id3. rewrite id3_helper_select; [done| |].
  - apply (two_outputs _ ([], output) e1); [left|by right|by intros ?].
  - apply (inputs_differ _ ([], output) e2); [left|by right|].
    unfold dict_eqb. destruct (e2.1); [done|]. by rewrite bool_decide_eq_false_2.
Qed.

(** X12. [id3] raises [KeyError] when the exemplars have two different
    outputs and the [inputs] of some exemplar lack a key of the [inputs] of
    the first exemplar. *)
Theorem id3_missing_key_KeyError (exemplar0 : exemplar) (rest : list exemplar)
    (e1 e2 e : exemplar) (a : Attr) :
  e1 ∈ exemplar0 :: rest -> e2 ∈ exemplar0 :: rest -> e1.2 <> e2.2 ->
  a ∈ keys (exemplar0.1) ->
  e ∈ exemplar0 :: rest -> a ∉ keys (e.1) ->
  id3 (exemplar0 :: rest) = KeyError.
Proof.
  intros H1 H2 Hout Ha He Hnotin. unfold id3.
  rewrite id3_helper_select; [|by apply (two_outputs _ e1 e2)|].
  - unfold find_best_attr. simpl.
    rewrite (for_each_KeyError _ _ a); [done| |done|].
    + intros s x. destruct (consider_cases (exemplar0 :: rest) s x) as [[b Hb]|Hk];
        [left; by eexists|by right].
    + intros s. unfold consider.
      rewrite (partition_on_KeyError a _ e He); [done|].
      by apply lookup_item_None.
  - apply (inputs_differ _ exemplar0 e); [left|done|].
    destruct (dict_eqb (exemplar0.1) (e.1)) eqn:Heq; [|done].
    destruct Hnotin. by apply (dict_eqb_keys (exemplar0.1)).
Qed.

(** X13. The recursion of [id3_helper] is no deeper than one more than the
    largest number of keys in the [inputs] of an exemplar, whatever the
    exemplars are: with any larger budget it has the outcome of [id3], which
    is a tree, a [KeyError] or a [TypeError], and never an [IndexError]. *)
Theorem id3_helper_budget (fuel : nat) (exemplars : list exemplar) :
  max_keys exemplars < fuel ->
  id3_helper fuel exemplars = id3 exemplars /\
  key_or_type_error (id3 exemplars).
Proof.
  intros Hfuel.
  assert (Hid3 : key_or_type_error (id3 exemplars)).
  { unfold id3. apply id3_helper_enough_fuel. lia. }
  split; [|done]. unfold id3 in *. apply id3_helper_more_fuel; [lia|].
  intros Hout. by rewrite Hout in Hid3.
Qed.

(** X14. The shape of a tree built from exemplars whose outputs are values
    other than [None]: the pairs of a node have distinct values, no name is
    the name of two nodes on a path, every node has a pair, no subnode is
    [None], and every name is a key of the [inputs] of an exemplar. *)
Theorem id3_tree_shape (exemplars : list exemplar) (t : tree) :
  (forall e, e ∈ exemplars -> dict_wf (e.1)) ->
  exemplars <> [] ->
  id3 exemplars = Ok t ->
  tree_wf t /\ no_None t /\
  forall k, k ∈ node_names t -> exists e, e ∈ exemplars /\ k ∈ keys (e.1).
Proof.
  intros Hwf Hne Ht.
  destruct (id3_helper_wf _ _ _ Hwf Ht) as [Htree Hnames].
  split_and!; [done| |done]. by apply (id3_helper_no_None _ _ _ Ht).
Qed.

(** X15. The partitioning on an attribute succeeds exactly when the
    [inputs] of every exemplar have the attribute as a key.  It then has
    one partition for each value, none of them empty, the partition of a
    value holds the exemplars with that value, in their order and without
    the attribute, and every exemplar is in one partition: the sizes of the
    partitions add up to the number of exemplars. *)
Theorem partition_on_exact (a : Attr) (exemplars : list exemplar) :
  ((exists parts, partition_on a exemplars = Ok parts) <->
   forall e, e ∈ exemplars -> a ∈ keys (e.1)) /\
  (forall parts,
     partition_on a exemplars = Ok parts ->
     NoDup (parts.*1) /\
     (forall v part, (v, part) ∈ parts ->
        part <> [] /\ part = group a v exemplars) /\
     sum_list ((fun part : Value * list exemplar => length (part.2)) <$> parts)
     = length exemplars).
Proof.
  split.
  - split.
    + intros [parts Hparts] e He.
      apply partition_on_Ok in Hparts as (values & Hall & _).
      apply list_elem_of_lookup in He as [i Hi].
      destruct (Forall2_lookup_l _ _ _ _ _ Hall Hi) as (v & _ & Hv).
      apply lookup_item_is_Some. by exists v.
    + intros Hall.
      destruct (partition_on_cases a exemplars) as [|Herr]; [done|].
      assert (Hok : forall l : list exemplar,
        (forall e, e ∈ l -> a ∈ keys (e.1)) ->
        exists values, Forall2 (fun e v => lookup_item a (e.1) = Some v) l values).
      { induction l as [|e l IH]; intros Hl; [by exists []|].
        destruct IH as [values Hvalues]; [intros e' He'; apply Hl; by right|].
        destruct (proj2 (lookup_item_is_Some a (e.1))) as [v Hv]; [apply Hl; left|].
        exists (v :: values). by constructor. }
      destruct (Hok exemplars Hall) as [values Hvalues].
      eexists. apply partition_on_Ok. by exists values.
  - intros parts Hparts. split_and!.
    + by apply (partition_on_values _ _ _ Hparts).
    + intros v part Hin. split.
      * by apply (partition_on_nonempty _ _ _ Hparts) in Hin.
      * by apply (partition_on_groups _ _ _ _ _ Hparts Hin).
    + by apply (partition_on_sizes a).
Qed.

(** X16. The vote among the outputs of a list that is not empty goes to
    the first output, in the order in which the set hands them out, whose
    count is the largest: the outputs before it have a smaller count, the
    outputs after it do not have a larger one. *)
Theorem most_common_output_first (outputs : list Output) :
  outputs <> [] ->
  exists before o after,
    set_iter outputs = before ++ o :: after /\
    most_common_output outputs = (TLeaf o : tree) /\
    (forall b, b ∈ before -> count outputs b < count outputs o) /\
    (forall b, b ∈ after -> count outputs b <= count outputs o).
Proof.
  intros Hne. unfold most_common_output.
  pose proof (most_common_loop_first outputs (set_iter outputs) [] TNone 0) as Hloop.
  cbn zeta in Hloop.
  destruct Hloop as [(_ & _ & Hzero)|(before & o & after & Hset & Ht & Hc & Hb1 & Hb2)].
  - left. split_and!; [done..|]. by intros b ?%elem_of_nil.
  - destruct outputs as [|x outputs]; [done|].
    assert (Hx : x ∈ set_iter (x :: outputs)) by (apply set_iter_elem; left).
    specialize (Hzero x Hx).
    assert (0 < count (x :: outputs) x) by (apply count_pos; left). lia.
  - exists before, o, after. rewrite Hc in Hb1, Hb2. by split_and!.
Qed.

(** X17. The inverse query misses no answer: when a tree whose root is a
    node returns an output for some inputs, [get_inputs_for_output] for
    that output returns a dict whose items are all items of those inputs. *)
Theorem get_inputs_for_output_complete (name : Attr)
    (pairs : list (Value * tree)) (inputs : dict) (output : Output) :
  call (TNode name pairs) inputs = Ok (Some output) ->
  exists a,
    a ∈ get_inputs_for_output (TNode name pairs) output /\ extends a inputs.
Proof.
  intros Hcall. unfold get_inputs_for_output.
  by apply (get_inputs_finds _ output inputs name pairs).
Qed.

(** X18. For a tree whose root is a node, [get_inputs_for_output] returns
    one dict for each leaf that holds the output. *)
Theorem get_inputs_for_output_length (name : Attr)
    (pairs : list (Value * tree)) (output : Output) :
  length (get_inputs_for_output (TNode name pairs) output)
  = count (outputs_of (TNode name pairs)) output.
Proof.
  unfold get_inputs_for_output.
  by rewrite (get_inputs_length _ output name pairs).
Qed.

(** ** The keys of the dicts of the inverse query *)

Lemma keys_setitem (k k' : Attr) (v : Value) (d : dict) :
  k' ∈ keys (setitem k v d) <-> k' = k \/ k' ∈ keys d.
Proof.
  rewrite <- !lookup_item_is_Some.
  destruct (decide (k' = k)) as [->|Hne].
  - rewrite lookup_setitem. split; [by left|by eexists].
  - rewrite lookup_setitem_ne by done. split; [by right|by intros [?|?]].
Qed.

Lemma setitem_wf (k : Attr) (v : Value) (d : dict) :
  dict_wf d -> dict_wf (setitem k v d).
Proof.
  unfold dict_wf, keys. induction d as [|[k' v'] d IH]; intros Hwf; simpl.
  { apply NoDup_singleton. }
  csimpl in Hwf. apply NoDup_cons in Hwf as [Hnotin Hwf].
  destruct (decide (k = k')) as [->|Hne]; csimpl.
  - by apply NoDup_cons.
  - apply NoDup_cons. split; [|by apply IH].
    intros [?|?]%(keys_setitem k k' v d); [congruence|done].
Qed.

Lemma get_inputs_pairs_keys (name : Attr) (output : Output)
    (allowed : Attr -> Prop) (ps : list (Value * tree)) :
  allowed name ->
  Forall (fun p => forall name' pairs', p.2 = TNode name' pairs' ->
            forall input acc a,
              dict_wf input -> (forall k, k ∈ keys input -> allowed k) ->
              (forall k, k ∈ node_names (p.2) -> allowed k) ->
              a ∈ get_inputs (p.2) output input acc ->
              a ∈ acc \/ (dict_wf a /\ forall k, k ∈ keys a -> allowed k)) ps ->
  (forall p k, p ∈ ps -> k ∈ node_names (p.2) -> allowed k) ->
  forall input acc a,
    dict_wf input -> (forall k, k ∈ keys input -> allowed k) ->
    a ∈ get_inputs_pairs name output ps input acc ->
    a ∈ acc \/ (dict_wf a /\ forall k, k ∈ keys a -> allowed k).
Proof.
  intros Hname. induction 1 as [|[v sub] ps Hsub _ IH];
    intros Hnames input acc a Hwf Hkeys Ha; [by left|].
  cbn [get_inputs_pairs] in Ha. cbn zeta in Ha. cbn [snd] in Hsub.
  assert (Hwf1 : dict_wf (setitem name v input)) by by apply setitem_wf.
  assert (Hkeys1 : forall k, k ∈ keys (setitem name v input) -> allowed k).
  { intros k [->|Hk]%keys_setitem; [done|by apply Hkeys]. }
  apply IH in Ha; [|intros p k Hp; apply Hnames; by right|done..].
  destruct Ha as [Ha|Ha]; [|by right].
  destruct sub as [|o|name' pairs']; [by left| |].
  - destruct (decide (o = output)); [|by left].
    apply elem_of_app in Ha as [Ha|Ha%list_elem_of_singleton]; [by left|].
    subst a. by right.
  - apply (Hsub name' pairs' eq_refl _ _ _ Hwf1 Hkeys1); [|done].
    intros k Hk. apply (Hnames (v, TNode name' pairs')); [left|done].
Qed.

Lemma get_inputs_keys (node : tree) (output : Output) (allowed : Attr -> Prop) :
  forall name pairs, node = TNode name pairs ->
  forall input acc a,
    dict_wf input -> (forall k, k ∈ keys input -> allowed k) ->
    (forall k, k ∈ node_names node -> allowed k) ->
    a ∈ get_inputs node output input acc ->
    a ∈ acc \/ (dict_wf a /\ forall k, k ∈ keys a -> allowed k).
Proof.
  induction node as [| |name pairs IH] using tree_induction;
    intros name0 pairs0 Heq input acc a Hwf Hkeys Hnames Ha; [done..|].
  rewrite get_inputs_node in Ha.
  apply (get_inputs_pairs_keys name output allowed pairs) with (input := input)
    (acc := acc); [|done| |done..].
  - apply Hnames, node_names_elem. by left.
  - intros [v sub] k Hp Hk. apply Hnames, node_names_elem. right.
    by exists v, sub.
Qed.

(** X25. Every dict that [get_inputs_for_output] returns holds each of its
    keys once, and its keys are names of nodes of the tree. *)
Theorem get_inputs_for_output_keys (root_node : tree) (output : Output)
    (a : dict) :
  a ∈ get_inputs_for_output root_node output ->
  dict_wf a /\ forall k, k ∈ keys a -> k ∈ node_names root_node.
Proof.
  unfold get_inputs_for_output. intros Ha.
  destruct root_node as [|o|name pairs]; [by apply elem_of_nil in Ha..|].
  destruct (get_inputs_keys (TNode name pairs) output
              (fun k => k ∈ node_names (TNode name pairs)) name pairs eq_refl
              [] [] a) as [Hin|Hok]; [| |done|done| |done].
  - apply NoDup_nil_2.
  - by intros k ?%elem_of_nil.
  - by apply elem_of_nil in Hin.
Qed.

End Further.

(** * The text of a tree *)

Section PrintingProperties.

Context {Attr Value Output : Type}.
Context {attr_str : PyStr Attr} {value_str : PyStr Value}
        {output_str : PyStr Output}.

Abbreviation ptree := (@tree Attr Value Output).

Lemma string_app_cons (c : Ascii.ascii) (s t : string) :
  String c s +:+ t = String c (s +:+ t).
Proof. reflexivity. Qed.

Lemma string_app_assoc (s1 s2 s3 : string) :
  s1 +:+ (s2 +:+ s3) = (s1 +:+ s2) +:+ s3.
Proof.
  induction s1 as [|c s1 IH]; [done|]. by rewrite !string_app_cons, IH.
Qed.

Lemma string_app_nil_r (s : string) : s +:+ "" = s.
Proof. induction s as [|c s IH]; [done|]. by rewrite string_app_cons, IH. Qed.

Lemma string_length_app (s t : string) :
  String.length (s +:+ t) = String.length s + String.length t.
Proof.
  induction s as [|c s IH]; [done|]. rewrite string_app_cons. simpl.
  by rewrite IH.
Qed.

Lemma substring_app (s t : string) :
  String.substring 0 (String.length s) (s +:+ t) = s.
Proof.
  induction s as [|c s IH]; [by destruct t|]. rewrite string_app_cons. simpl.
  by rewrite IH.
Qed.

Lemma but_last_newline (s : string) : but_last (s +:+ newline) = s.
Proof.
  unfold but_last. rewrite string_length_app.
  replace (String.length s + String.length newline - 1) with (String.length s)
    by (simpl; lia).
  apply substring_app.
Qed.

Lemma unlines_app (l1 l2 : list string) :
  unlines (l1 ++ l2) = unlines l1 +:+ unlines l2.
Proof.
  induction l1 as [|l l1 IH]; simpl; [done|].
  by rewrite IH, <- !string_app_assoc.
Qed.

Lemma unlines_concat (l : string) (ls : list string) :
  unlines (l :: ls) = String.concat newline (l :: ls) +:+ newline.
Proof.
  revert l. induction ls as [|l' ls IH]; intros l.
  - simpl. by rewrite string_app_nil_r.
  - change (unlines (l :: l' :: ls)) with (l +:+ newline +:+ unlines (l' :: ls)).
    change (String.concat newline (l :: l' :: ls))
      with (l +:+ newline +:+ String.concat newline (l' :: ls)).
    by rewrite IH, <- !string_app_assoc.
Qed.

Lemma tree_str_pairs (prefix : string) (ps : list (Value * ptree)) :
  Forall (fun p => forall prefix,
            tree_str (p.2) prefix = unlines (tree_lines (p.2) prefix)) ps ->
  forall s,
    fold_left
      (fun s '(value, subnode) =>
         let s := s +:+ (prefix +:+ py_str value) in
         let s := match subnode with
                  | TNode _ _ => s +:+ newline
                  | _ => s +:+ " "
                  end in
         s +:+ tree_str subnode (prefix +:+ "  "))
      ps s
    = s +:+ unlines
              (mjoin ((fun p : Value * ptree =>
                         match p.2 with
                         | TNode _ _ =>
                             (prefix +:+ py_str (p.1))
                               :: tree_lines (p.2) (prefix +:+ "  ")
                         | TLeaf o =>
                             [prefix +:+ py_str (p.1) +:+ " -> " +:+ py_str o]
                         | TNone => [prefix +:+ py_str (p.1) +:+ " -> None"]
                         end) <$> ps)).
Proof.
  induction 1 as [|[value sub] ps Hsub _ IH]; intros s.
  { simpl. by rewrite string_app_nil_r. }
  cbn [fold_left]. rewrite IH. rewrite fmap_cons.
  change (mjoin (?l :: ?ls)) with (l ++ mjoin ls).
  rewrite unlines_app. cbn [fst snd] in *. cbn zeta.
  destruct sub as [|o|name pairs].
  - cbn [tree_str unlines fold_right]. rewrite <- !string_app_assoc. reflexivity.
  - cbn [tree_str unlines fold_right]. rewrite <- !string_app_assoc. reflexivity.
  - rewrite Hsub. cbn [unlines fold_right]. rewrite <- !string_app_assoc.
    reflexivity.
Qed.

Lemma tree_str_lines (node : ptree) (prefix : string) :
  tree_str node prefix = unlines (tree_lines node prefix).
Proof.
  revert prefix.
  induction node as [|o|name pairs IH] using tree_induction; intros prefix.
  - reflexivity.
  - cbn [tree_str tree_lines unlines fold_right].
    rewrite <- !string_app_assoc. reflexivity.
  - cbn [tree_str tree_lines]. cbn zeta. rewrite (tree_str_pairs prefix pairs IH).
    cbn [unlines fold_right]. by rewrite <- !string_app_assoc.
Qed.

Lemma tree_lines_cons (node : ptree) (prefix : string) :
  exists l ls, tree_lines node prefix = l :: ls.
Proof. destruct node; by eexists _, _. Qed.

(** X19. The text of a tree is the text of the object, a colon, and the
    lines of the tree, one below the other, with no newline after the last
    line: the slice [[:-1]] takes off the newline that ends the text of the
    root, and nothing else. *)
Theorem ID3DecisionTree_str_lines (object_str : string) (root_node : ptree) :
  ID3DecisionTree_str object_str root_node
  = object_str +:+ ":" +:+ newline
      +:+ String.concat newline (tree_lines root_node "").
Proof.
  unfold ID3DecisionTree_str. do 3 f_equal.
  rewrite tree_str_lines.
  destruct (tree_lines_cons root_node "") as (l & ls & ->).
  by rewrite unlines_concat, but_last_newline.
Qed.

(** X20. The text of a node printed with a prefix is its text printed
    without one, with the prefix put before every line. *)
Theorem tree_str_prefix (name : Attr) (pairs : list (Value * ptree))
    (prefix : string) :
  tree_str (TNode name pairs) prefix
  = unlines (String.append prefix <$> tree_lines (TNode name pairs) "").
Proof.
  rewrite tree_str_lines. f_equal.
  assert (Hgen : forall node : ptree,
    match node with
    | TNode _ _ =>
        forall prefix,
          tree_lines node prefix = String.append prefix <$> tree_lines node ""
    | _ => True
    end); [|exact (Hgen (TNode name pairs) prefix)].
  clear. induction node as [| |name pairs IH] using tree_induction; [done..|].
  intros prefix. cbn [tree_lines]. rewrite fmap_cons. f_equal.
  induction IH as [|[value sub] ps Hsub _ IHps]; [done|].
  rewrite !fmap_cons.
  change (mjoin (?l :: ?ls)) with (l ++ mjoin ls).
  rewrite fmap_app, IHps. f_equal.
  cbn [fst snd] in *.
  destruct sub as [|o|name' pairs']; [done..|].
  rewrite fmap_cons. f_equal.
  rewrite (Hsub (prefix +:+ "  ")), (Hsub ("" +:+ "  ")).
  rewrite <- list_fmap_compose. apply list_fmap_ext. intros _ l _. simpl.
  by rewrite <- string_app_assoc.
Qed.

End PrintingProperties.

(** * Scores of zero *)

Section ZeroScore.

Context {Attr Value Output : Type}.
Context `{EqDecision Attr, EqDecision Value, EqDecision Output}.
Context {value_sets : PySet Value} {output_sets : PySet Output}.
Context {FL : Float} `{!FloatOrder FL} `{!FloatLaws FL}.

Abbreviation zexemplar := (@exemplar Attr Value Output).
Abbreviation zpartitions := (@partitions_t Attr Value Output).
Abbreviation ztree := (@tree Attr Value Output).

(** X23. The score of an attribute is zero exactly when the attribute
    splits the exemplars into partitions that each have a single output,
    for every arithmetic that has the laws of the floats and for a number
    of exemplars that a float holds exactly. *)
Theorem attr_score_zero_iff_pure (a : Attr) (exemplars : list zexemplar)
    (parts : zpartitions) :
  partition_on a exemplars = Ok parts ->
  exact_count (length exemplars) ->
  (attr_score a exemplars = Ok Fzero <->
   forall v part, (v, part) ∈ parts -> pure_outputs part).
Proof.
  intros Hparts Hsize. unfold attr_score. rewrite Hparts. cbn [bind].
  rewrite <- (attr_entropy_zero_iff parts);
    [|by apply (partition_sizes_bound a exemplars)].
  split; [by intros [= ->]|by intros ->].
Qed.

(** X24. When [id3] returns a tree for exemplars with two different
    outputs, and one of the keys of the [inputs] of the first exemplar
    splits the exemplars into partitions that each have a single output,
    the tree is one node whose subnodes are all outputs; for every
    arithmetic that has the order and the laws of the floats and for a
    number of exemplars that a float holds exactly. *)
Theorem id3_perfect_split (exemplars : list zexemplar) (t : ztree)
    (e1 e2 exemplar0 : zexemplar) (a : Attr) (parts : zpartitions) :
  id3 exemplars = Ok t ->
  e1 ∈ exemplars -> e2 ∈ exemplars -> e1.2 <> e2.2 ->
  first exemplars = Ok exemplar0 -> a ∈ keys (exemplar0.1) ->
  partition_on a exemplars = Ok parts ->
  (forall v part, (v, part) ∈ parts -> pure_outputs part) ->
  exact_count (length exemplars) ->
  exists name pairs,
    t = TNode name pairs /\
    forall v sub, (v, sub) ∈ pairs -> exists o, sub = TLeaf o.
Proof.
  intros Ht H1 H2 Hout He0 Ha Hparts Hpure Hsize.
  assert (Hscore : attr_score a exemplars = Ok Fzero).
  { unfold attr_score. rewrite Hparts. cbn [bind]. f_equal.
    apply attr_entropy_pure; [|done].
    by apply (partition_sizes_bound a exemplars). }
  unfold id3 in Ht. apply id3_helper_Ok in Ht
    as [-> _|e0 rest -> Hall _|_ Hsame _|best pairs _ _ Hbest Hpairs ->].
  - by apply elem_of_nil in H1.
  - destruct Hout. by rewrite (Hall e1 H1), (Hall e2 H2).
  - exfalso. rewrite inputs_all_same_true in Hsame.
    assert (Hvalue : forall e, e ∈ exemplars ->
      exists v, lookup_item a (e.1) = Some v /\ (v, group a v exemplars) ∈ parts).
    { intros e He.
      apply partition_on_Ok in Hparts as (values & Hall & ->).
      apply list_elem_of_lookup in He as [i Hi].
      destruct (Forall2_lookup_l _ _ _ _ _ Hall Hi) as (v & Hv & Hl).
      exists v. split; [done|].
      apply list_elem_of_fmap. exists v. split; [done|].
      apply set_iter_elem. by apply list_elem_of_lookup_2 in Hv. }
    destruct (Hvalue e1 H1) as (v1 & Hl1 & Hin).
    destruct (pop_lookup _ _ _ Hl1) as [d1 Hpop1].
    pose proof (Hsame e1 e2 H1 H2) as Heq.
    assert (Hl2 : lookup_item a (e2.1) = Some v1).
    { unfold dict_eqb in Heq. apply andb_prop in Heq as [_ Hitems].
      rewrite forallb_elem in Hitems.
      specialize (Hitems _ (lookup_item_Some_elem _ _ _ Hl1)). simpl in Hitems.
      by apply bool_decide_eq_true in Hitems. }
    destruct (pop_lookup _ _ _ Hl2) as [d2 Hpop2].
    apply Hout.
    apply (Hpure _ _ Hin (d1, e1.2) (d2, e2.2)); apply elem_of_group.
    + exists (e1.1). split; [by destruct e1|done].
    + exists (e2.1). split; [by destruct e2|done].
  - exists (attr best), pairs. split; [done|].
    destruct (find_best_attr_smallest exemplars best Hbest)
      as (e0 & He0' & before & after & Hnames & Hbest_score & Hbefore & Hafter).
    assert (e0 = exemplar0) by congruence. subst e0.
    apply find_best_attr_Ok in Hbest
      as (e0 & rest & He0'' & [[? _]|(b & [= <-] & _ & Hbparts & Hentropy)]); [done|].
    assert (Hnonneg : Fltb (entropy best) Fzero = false).
    { rewrite Hentropy. apply attr_entropy_nonneg.
      by apply (partition_sizes_bound (attr best) exemplars). }
    assert (Hzero : entropy best = Fzero).
    { rewrite Hnames in Ha.
      apply elem_of_app in Ha as [Ha|[->|Ha]%elem_of_cons].
      - destruct (Hbefore _ Ha) as (s & Hs & Hlt).
        rewrite Hscore in Hs. injection Hs as <-. congruence.
      - rewrite Hscore in Hbest_score. by injection Hbest_score as <-.
      - destruct (Hafter _ Ha) as (s & Hs & Hge).
        rewrite Hscore in Hs. injection Hs as <-.
        by apply Fltb_antisym. }
    rewrite Hentropy in Hzero.
    pose proof (partition_sizes_bound (attr best) exemplars _ Hbparts Hsize)
      as Hbound.
    pose proof (proj1 (attr_entropy_zero_iff _ Hbound) Hzero) as Hpure_best.
    intros v sub Hin.
    destruct (built_pairs_elem_r _ _ _ _ _ Hpairs Hin) as (part & Hpart & Hbuilt).
    apply (pure_outputs_leaf (max_keys exemplars) part sub);
      [|by apply (Hpure_best v)|done].
    by apply (partition_on_nonempty _ _ _ Hbparts) in Hpart.
Qed.

End ZeroScore.

(** * The inverse query over the store *)

Section StoreInverse.

Context {Attr Value Output : Type}.
Context `{EqDecision Attr, EqDecision Value, EqDecision Output}.

Abbreviation iobject := (@object Attr Value Output).
Abbreviation istore := (list iobject).
Abbreviation idict := (@dict Attr Value).
Abbreviation itree := (@tree Attr Value Output).

Lemma bind_st_ext {A B : Type} (m : St (Attr:=Attr) (Value:=Value) (Output:=Output) A)
    (k k' : A -> St B) (h : istore) :
  (forall a h', k a h' = k' a h') -> bind_st m k h = bind_st m k' h.
Proof.
  intros Hk. unfold bind_st. destruct (m h) as [[a| | | |] h']; auto.
Qed.

Lemma get_inputs_st_node (name : Attr) (pairs : list (Value * itree))
    (output : Output) (input : loc) (inputs : list loc) (h : istore) :
  get_inputs_st (TNode name pairs) output input inputs h =
  get_inputs_pairs_st name output input pairs inputs h.
Proof.
  cbn [get_inputs_st]. revert inputs h.
  induction pairs as [|[v sub] pairs IH]; intros inputs h; [done|].
  cbn [get_inputs_pairs_st].
  apply bind_st_ext. intros _ h1. apply bind_st_ext. intros inputs1 h2.
  apply IH.
Qed.

Lemma dict_setitem_at (h : istore) (input : loc) (d : idict) (k : Attr)
    (v : Value) :
  h !! input = Some (ODict d) ->
  dict_setitem input k v h = (Ok tt, <[input := ODict (setitem k v d)]> h).
Proof.
  intros Hl. unfold dict_setitem, bind_st. by rewrite (read_dict_at _ _ _ Hl).
Qed.

Lemma dicts_at_kept (h h' : istore) (locs : list loc) (dicts : list idict) :
  dicts_at h locs dicts -> (forall l, l ∈ locs -> h' !! l = h !! l) ->
  dicts_at h' locs dicts.
Proof.
  unfold dicts_at. induction 1 as [|l d locs dicts Hl _ IH]; intros Hkept;
    [constructor|].
  constructor; [rewrite Hkept; [done|left]|].
  apply IH. intros l' Hl'. apply Hkept. by right.
Qed.

Lemma dicts_at_lt (h : istore) (locs : list loc) (dicts : list idict) (l : loc) :
  dicts_at h locs dicts -> l ∈ locs -> l < length h.
Proof.
  intros Hat Hl. apply list_elem_of_lookup in Hl as [i Hi].
  destruct (Forall2_lookup_l _ _ _ _ _ Hat Hi) as (d & _ & Hd).
  by apply lookup_lt_Some in Hd.
Qed.

Lemma dicts_at_snoc (h : istore) (locs : list loc) (dicts : list idict)
    (l : loc) (d : idict) :
  dicts_at h locs dicts -> h !! l = Some (ODict d) ->
  dicts_at h (locs ++ [l]) (dicts ++ [d]).
Proof. intros Hat Hl. apply Forall2_app; [done|]. by constructor. Qed.

Lemma appends_copies_ret (h : istore) (scratch : loc) (locs : list loc)
    (dicts : list idict) :
  dicts_at h locs dicts -> appends_copies (ret locs) h scratch locs dicts.
Proof.
  intros Hat. exists [], h. rewrite app_nil_r.
  split_and!; [done..|constructor|by intros l ?%elem_of_nil].
Qed.

(** A first computation, then one that goes on from the list it returns. *)
Lemma appends_copies_bind (m : St (list loc)) (k : list loc -> St (list loc))
    (h : istore) (scratch_m scratch : loc) (locs : list loc)
    (dicts dicts' : list idict) :
  scratch_m = scratch \/ length h <= scratch_m ->
  appends_copies m h scratch_m locs dicts ->
  (forall new h1,
     dicts_at h1 (locs ++ new) dicts ->
     length h <= length h1 ->
     (forall l, l < length h -> l <> scratch_m -> h1 !! l = h !! l) ->
     (forall l, l ∈ new -> length h <= l) ->
     appends_copies (k (locs ++ new)) h1 scratch (locs ++ new) dicts') ->
  appends_copies (bind_st m k) h scratch locs dicts'.
Proof.
  intros Hscratch (new1 & h1 & Hm & Hat1 & Hlen1 & Hframe1 & Hnd1 & Hnew1) Hk.
  destruct (Hk new1 h1 Hat1 Hlen1 Hframe1 Hnew1)
    as (new2 & h2 & Hk2 & Hat2 & Hlen2 & Hframe2 & Hnd2 & Hnew2).
  exists (new1 ++ new2), h2. rewrite app_assoc.
  split_and!; [|done|lia| | |].
  - unfold bind_st. by rewrite Hm.
  - intros l Hl Hne. rewrite Hframe2 by (done || lia).
    apply Hframe1; [done|]. destruct Hscratch as [->|?]; [done|lia].
  - apply NoDup_app. split_and!; [done| |done].
    intros l Hl1 Hl2. specialize (Hnew2 _ Hl2).
    assert (l < length h1); [|lia].
    apply (dicts_at_lt h1 (locs ++ new1) dicts); [done|].
    apply elem_of_app. by right.
  - intros l [Hl|Hl]%elem_of_app; [by apply Hnew1|].
    specialize (Hnew2 _ Hl). lia.
Qed.

(** The write [input[k] = v], then a computation. *)
Lemma appends_copies_setitem (k : St (list loc)) (h : istore) (input : loc)
    (d : idict) (name : Attr) (v : Value) (locs : list loc)
    (dicts : list idict) :
  h !! input = Some (ODict d) ->
  appends_copies k (<[input := ODict (setitem name v d)]> h) input locs dicts ->
  appends_copies (bind_st (dict_setitem input name v) (fun _ => k)) h input
    locs dicts.
Proof.
  intros Hinput (new & h' & Hk & Hat & Hlen & Hframe & Hnd & Hnew).
  rewrite length_insert in Hlen, Hframe, Hnew.
  exists new, h'. split_and!; [|done..| |done|done].
  - unfold bind_st. by rewrite (dict_setitem_at _ _ _ _ _ Hinput).
  - intros l Hl Hne. rewrite Hframe by done. by apply list_lookup_insert_ne.
Qed.

(** What one turn of the loop does with the subnode of the pair. *)
Lemma appends_copies_subnode (sub : itree) (output : Output) (input : loc)
    (h : istore) (d : idict) (locs : list loc) (acc : list idict) :
  (forall name' pairs', sub = TNode name' pairs' ->
     forall h input d locs acc,
       h !! input = Some (ODict d) -> dicts_at h locs acc -> input ∉ locs ->
       appends_copies (get_inputs_st sub output input locs) h input locs
         (get_inputs sub output d acc)) ->
  h !! input = Some (ODict d) -> dicts_at h locs acc ->
  appends_copies
    match sub with
    | TNode _ _ =>
        bind_st (dict_copy input)
          (fun copy => get_inputs_st sub output copy locs)
    | TLeaf o =>
        if decide (o = output) then
          bind_st (dict_copy input) (fun copy => ret (locs ++ [copy]))
        else ret locs
    | TNone => ret locs
    end
    h (length h) locs
    match sub with
    | TNode _ _ => get_inputs sub output d acc
    | TLeaf o => if decide (o = output) then acc ++ [d] else acc
    | TNone => acc
    end.
Proof.
  intros Hsub Hinput Hat.
  assert (Hat' : dicts_at (h ++ [ODict d]) locs acc).
  { apply (dicts_at_kept h); [done|]. intros l Hl.
    apply lookup_app_l. by apply (dicts_at_lt h locs acc). }
  assert (Hcopy : (h ++ [ODict d]) !! length h = Some (ODict d))
    by by apply list_lookup_middle.
  destruct sub as [|o|name' pairs'].
  - by apply appends_copies_ret.
  - destruct (decide (o = output)); [|by apply appends_copies_ret].
    exists [length h], (h ++ [ODict d]). split_and!.
    + unfold bind_st. by rewrite (dict_copy_at _ _ _ Hinput).
    + by apply dicts_at_snoc.
    + rewrite length_app. lia.
    + intros l Hl _. by apply lookup_app_l.
    + apply NoDup_singleton.
    + by intros l ->%list_elem_of_singleton.
  - destruct (Hsub name' pairs' eq_refl (h ++ [ODict d]) (length h) d locs acc)
      as (new & h' & Hrun & Hat2 & Hlen & Hframe & Hnd & Hnew); [done..| |].
    { intros Hin. apply (dicts_at_lt h locs acc) in Hin; [lia|done]. }
    rewrite length_app in Hlen, Hframe, Hnew. simpl in Hlen, Hframe, Hnew.
    exists new, h'. split_and!; [|done|lia| |done|].
    + unfold bind_st. by rewrite (dict_copy_at _ _ _ Hinput).
    + intros l Hl _. rewrite Hframe by lia. by apply lookup_app_l.
    + intros l Hl. specialize (Hnew l Hl). lia.
Qed.

Lemma get_inputs_pairs_at (name : Attr) (output : Output) (input : loc)
    (ps : list (Value * itree)) :
  Forall (fun p => forall name' pairs', p.2 = TNode name' pairs' ->
            forall h input d locs acc,
              h !! input = Some (ODict d) -> dicts_at h locs acc ->
              input ∉ locs ->
              appends_copies (get_inputs_st (p.2) output input locs) h input
                locs (get_inputs (p.2) output d acc)) ps ->
  forall h d locs acc,
    h !! input = Some (ODict d) -> dicts_at h locs acc -> input ∉ locs ->
    appends_copies (get_inputs_pairs_st name output input ps locs) h input locs
      (get_inputs_pairs name output ps d acc).
Proof.
  induction 1 as [|[v sub] ps Hsub _ IH]; intros h d locs acc Hinput Hat Hnotin.
  { by apply appends_copies_ret. }
  cbn [get_inputs_pairs_st get_inputs_pairs]. cbn zeta. cbn [snd] in Hsub.
  assert (Hlt : input < length h) by by apply lookup_lt_Some in Hinput.
  apply (appends_copies_setitem _ h input d); [done|].
  set (d1 := setitem name v d). set (h1 := <[input := ODict d1]> h).
  assert (Hinput1 : h1 !! input = Some (ODict d1))
    by by apply list_lookup_insert_eq.
  assert (Hat1 : dicts_at h1 locs acc).
  { apply (dicts_at_kept h); [done|]. intros l Hl.
    apply list_lookup_insert_ne. by intros ->. }
  assert (Hlen1 : length h1 = length h) by apply length_insert.
  eapply (appends_copies_bind _ _ h1 (length h1) input);
    [right; lia|by apply (appends_copies_subnode sub output input h1 d1)|].
  intros new h2 Hat2 Hlen2 Hframe2 Hnew2.
  apply IH; [|done|].
  - rewrite Hframe2 by lia. done.
  - intros [Hin|Hin]%elem_of_app; [done|]. specialize (Hnew2 _ Hin). lia.
Qed.

Lemma get_inputs_at (node : itree) (output : Output) :
  forall name pairs, node = TNode name pairs ->
  forall h input d locs acc,
    h !! input = Some (ODict d) -> dicts_at h locs acc -> input ∉ locs ->
    appends_copies (get_inputs_st node output input locs) h input locs
      (get_inputs node output d acc).
Proof.
  induction node as [| |name pairs IH] using tree_induction;
    intros name0 pairs0 Heq h input d locs acc Hinput Hat Hnotin; [done..|].
  unfold appends_copies. rewrite get_inputs_st_node, get_inputs_node.
  by apply get_inputs_pairs_at.
Qed.

Lemma frame_extends_store (h h' : istore) :
  length h <= length h' -> (forall l, l < length h -> h' !! l = h !! l) ->
  extends_store h h'.
Proof.
  intros Hlen Hframe. exists (drop (length h) h').
  rewrite <- (take_drop (length h) h') at 1. f_equal.
  apply list_eq. intros i. destruct (decide (i < length h)) as [Hi|Hi].
  - rewrite lookup_take_lt by done. by apply Hframe.
  - rewrite lookup_take_ge by lia. symmetry. apply lookup_ge_None. lia.
Qed.

(** X22. [get_inputs] writes [node.name] into one dict at every turn of its
    loop and appends copies of that dict to the list it returns.  Run over
    a store, [get_inputs_for_output] returns the locations of dicts that
    were not in the store before, each at a location of its own, none of
    them the dict that the loops write into; they hold the dicts that the
    function on values returns; and the objects that were in the store are
    as they were. *)
Theorem get_inputs_for_output_st_copies (root_node : itree) (output : Output)
    (h : istore) :
  exists locs,
    (get_inputs_for_output_st root_node output h).1 = Ok locs /\
    extends_store h ((get_inputs_for_output_st root_node output h).2) /\
    dicts_at ((get_inputs_for_output_st root_node output h).2) locs
      (get_inputs_for_output root_node output) /\
    NoDup locs /\
    (forall l, l ∈ locs -> length h < l).
Proof.
  assert (Hleaf : exists locs,
    (ret (Attr:=Attr) (Value:=Value) (Output:=Output) [] h).1 = Ok locs /\
    extends_store h ((ret (Attr:=Attr) (Value:=Value) (Output:=Output)
                        (A:=list loc) [] h).2) /\
    dicts_at h locs [] /\ NoDup locs /\ (forall l, l ∈ locs -> length h < l)).
  { exists []. split_and!; [done|exists []; by rewrite app_nil_r|constructor
                            |constructor|by intros l ?%elem_of_nil]. }
  destruct root_node as [|o|name pairs]; [exact Hleaf..|]. clear Hleaf.
  unfold get_inputs_for_output_st, get_inputs_for_output, bind_st, alloc.
  destruct (get_inputs_at (TNode name pairs) output name pairs eq_refl
              (h ++ [ODict []]) (length h) [] [] [])
    as (new & h' & Hrun & Hat & Hlen & Hframe & Hnd & Hnew).
  { by apply list_lookup_middle. }
  { constructor. }
  { by intros ?%elem_of_nil. }
  rewrite length_app in Hlen, Hframe, Hnew. simpl in *.
  rewrite Hrun. simpl. exists new. split_and!; [done| |done..|].
  - apply frame_extends_store; [lia|].
    intros l Hl. rewrite Hframe by lia. by apply lookup_app_l.
  - intros l Hl. specialize (Hnew l Hl). lia.
Qed.

End StoreInverse.

(** * Runs of the builder, one after the other *)

Section StoreAgain.

Context {Attr Value Output : Type}.
Context `{EqDecision Attr, EqDecision Value, EqDecision Output}.
Context {value_sets : PySet Value} {output_sets : PySet Output}.
Context {FL : Float}.

(** X21. A run of [id3] on a sequence of exemplars held in the store has
    the outcome of [id3] on the exemplars as values, and so has a second
    run on the store that the first run has left: a call leaves nothing
    behind that changes a later call. *)
Theorem id3_st_again (l : loc) (h : list (@object Attr Value Output))
    (es : list (loc * Output)) (exemplars : list (@exemplar Attr Value Output)) :
  h !! l = Some (OList es) -> exemplars_at h es = Some exemplars ->
  (id3_st l h).1 = id3 exemplars /\
  (id3_st l ((id3_st l h).2)).1 = id3 exemplars.
Proof.
  intros Hl Hes. split; [by apply (id3_st_refines l h es)|].
  assert (Hext : extends_store h ((id3_st l h).2)).
  { unfold id3_st. eapply keeps_extends_store, keeps_id3_helper. }
  apply (id3_st_refines l _ es).
  - by apply (extends_store_lookup h).
  - by apply (exemplars_at_extends h).
Qed.

End StoreAgain.

(** * The properties on the exemplars of the docstring *)

Section OnExamples.

Import Example.
#[local] Existing Instance exact_float.

Lemma or_exemplars_uniform : uniform ["x1"; "x2"] or_exemplars.
Proof.
  intros e He. unfold or_exemplars in He.
  repeat (apply elem_of_cons in He as [->|He]);
    try (by apply elem_of_nil in He);
    (split; [apply (bool_decide_unpack _); by vm_compute|done]).
Qed.

Lemma or_exemplars_wf : forall e, e ∈ or_exemplars -> dict_wf (e.1).
Proof. intros e He. by apply or_exemplars_uniform. Qed.

Lemma or_exemplars_consistent : consistent or_exemplars.
Proof.
  intros e1 e2 H1 H2. unfold or_exemplars in H1, H2.
  repeat (apply elem_of_cons in H1 as [->|H1]);
    try (by apply elem_of_nil in H1);
    repeat (apply elem_of_cons in H2 as [->|H2]);
    try (by apply elem_of_nil in H2);
    vm_compute; congruence.
Qed.

Lemma or_tree_built : id3 or_exemplars = Ok or_tree.
Proof. vm_compute. reflexivity. Qed.

(** The calls of the docstring. *)
Example or_tree_validate : validate or_tree or_exemplars = Ok true.
Proof. reflexivity. Qed.

Example or_tree_call_0_0 : call or_tree [("x1", 0); ("x2", 0)] = Ok (Some 0).
Proof. reflexivity. Qed.

Example or_tree_call_0_1 : call or_tree [("x1", 0); ("x2", 1)] = Ok (Some 1).
Proof. reflexivity. Qed.

Example or_tree_call_0_2 : call or_tree [("x1", 0); ("x2", 2)] = Ok None.
Proof. reflexivity. Qed.

(** A call without a key that the traversal needs. *)
Example or_tree_call_no_x2 : call or_tree [("x1", 0)] = KeyError.
Proof. reflexivity. Qed.

(** Exemplars whose [inputs] have different keys. *)
Example id3_different_keys :
  id3 [ ([("a", 1); ("b", 1)], 5); ([("b", 2)], 6) ] = KeyError.
Proof. vm_compute. reflexivity. Qed.

(** The note in the docstring of [validate]: the tree built from
    inconsistent exemplars is not valid. *)
Example vote_tree_invalid :
  id3 vote_exemplars = Ok (TLeaf 0) /\
  validate (TLeaf 0) vote_exemplars = Ok false.
Proof. split; vm_compute; reflexivity. Qed.

(** The run over the store: the same tree, and the five objects of the
    caller as they were. *)
Example or_store_run :
  (id3_st 4 or_store).1 = Ok or_tree /\
  take 5 ((id3_st 4 or_store).2) = or_store.
Proof. split; vm_compute; reflexivity. Qed.

Lemma id3_validates_witness :
  uniform ["x1"; "x2"] or_exemplars /\ consistent or_exemplars /\
  exists t, id3 or_exemplars = Ok t /\ validate t or_exemplars = Ok true.
Proof.
  split; [exact or_exemplars_uniform|]. split; [exact or_exemplars_consistent|].
  exact (id3_validates ["x1"; "x2"] or_exemplars
           or_exemplars_uniform or_exemplars_consistent).
Defined.

Lemma find_best_attr_first_smallest_witness :
  exists best exemplar0,
    find_best_attr or_exemplars = Ok (Some best) /\
    attr best = "x1" /\
    first or_exemplars = Ok exemplar0 /\
    first_smallest or_exemplars (keys (exemplar0.1)) best.
Proof.
  destruct (find_best_attr_first_smallest or_exemplars) as [Hbest _].
  destruct (find_best_attr or_exemplars) as [[best|]| | | |] eqn:Hfind;
    try (vm_compute in Hfind; discriminate).
  destruct (Hbest best eq_refl) as (exemplar0 & Hfirst & Hsmallest).
  exists best, exemplar0. split_and!; [done| |done..].
  vm_compute in Hfind. by injection Hfind as <-.
Defined.

Lemma attr_entropy_spec_witness :
  partition_on "x1" or_exemplars =
    Ok [ (0, [([("x2", 0)], 0); ([("x2", 1)], 1)]);
         (1, [([("x2", 0)], 1); ([("x2", 1)], 1)]) ] /\
  exact_count (length or_exemplars) /\
  attr_score (FL:=real_float) "x1" or_exemplars
    = Ok (spec_score (FL:=real_float) (FS:=real_float_sum) "x1" or_exemplars) /\
  Fltb (Float:=real_float)
    (spec_score (FL:=real_float) (FS:=real_float_sum) "x1" or_exemplars)
    Fzero = false.
Proof.
  assert (Hparts : partition_on "x1" or_exemplars =
    Ok [ (0, [([("x2", 0)], 0); ([("x2", 1)], 1)]);
         (1, [([("x2", 0)], 1); ([("x2", 1)], 1)]) ]) by reflexivity.
  assert (Hsize : exact_count (length or_exemplars)) by done.
  split_and!; [exact Hparts|exact Hsize|..];
    destruct (attr_entropy_spec (FL:=real_float) (FS:=real_float_sum)
                "x1" or_exemplars _ Hparts Hsize) as (Hscore & Hpos & _); done.
Defined.

Lemma id3_helper_majority_vote_witness :
  vote_exemplars <> [] /\
  (forall e1 e2, e1 ∈ vote_exemplars -> e2 ∈ vote_exemplars ->
                 dict_eqb (e1.1) (e2.1) = true) /\
  (exists e1 e2, e1 ∈ vote_exemplars /\ e2 ∈ vote_exemplars /\ e1.2 <> e2.2) /\
  exists o,
    id3_helper 1 vote_exemplars = Ok (TLeaf o) /\
    o ∈ vote_exemplars.*2 /\
    forall o', count (vote_exemplars.*2) o' <= count (vote_exemplars.*2) o.
Proof.
  assert (Hne : vote_exemplars <> []) by done.
  assert (Hsame : forall e1 e2, e1 ∈ vote_exemplars -> e2 ∈ vote_exemplars ->
                                dict_eqb (e1.1) (e2.1) = true).
  { intros e1 e2 H1 H2. unfold vote_exemplars in H1, H2.
    repeat (apply elem_of_cons in H1 as [->|H1]);
      try (by apply elem_of_nil in H1);
      repeat (apply elem_of_cons in H2 as [->|H2]);
      try (by apply elem_of_nil in H2);
      reflexivity. }
  assert (Hdiff : exists e1 e2, e1 ∈ vote_exemplars /\ e2 ∈ vote_exemplars /\
                                e1.2 <> e2.2).
  { exists ([("a", 1)], 1), ([("a", 1)], 0). split_and!; [left|right; left|done]. }
  split_and!; [done..|].
  exact (id3_helper_majority_vote 0 vote_exemplars Hne Hsame Hdiff).
Defined.

Lemma id3_terminates_witness :
  uniform ["x1"; "x2"] or_exemplars /\
  exists t,
    id3 or_exemplars = Ok t /\ depth t <= 2 /\
    forall fuel, 2 < fuel -> id3_helper fuel or_exemplars = Ok t.
Proof.
  split; [exact or_exemplars_uniform|].
  exact (proj1 (id3_terminates ["x1"; "x2"] or_exemplars or_exemplars_uniform)).
Defined.

Lemma get_inputs_for_output_call_witness :
  (forall e, e ∈ or_exemplars -> dict_wf (e.1)) /\
  id3 or_exemplars = Ok or_tree /\
  [("x1", 1)] ∈ get_inputs_for_output or_tree 1 /\
  extends [("x1", 1)] [("x1", 1); ("x2", 5)] /\
  call or_tree [("x1", 1); ("x2", 5)] = Ok (Some 1).
Proof.
  assert (Hin : [("x1", 1)] ∈ get_inputs_for_output or_tree 1).
  { vm_compute. right. left. }
  assert (Hext : extends [("x1", 1)] [("x1", 1); ("x2", 5)]).
  { intros k v. simpl. by destruct (decide (k = "x1")). }
  split_and!; [exact or_exemplars_wf|exact or_tree_built|done..|].
  exact (get_inputs_for_output_call or_exemplars or_tree 1 _ _
           or_exemplars_wf or_tree_built Hin Hext).
Defined.

Lemma call_unseen_value_witness :
  id3 or_exemplars = Ok or_tree /\
  visits_built [("x1", 0); ("x2", 2)] or_exemplars or_tree
    (group "x1" 0 or_exemplars) (TNode "x2" [(0, TLeaf 0); (1, TLeaf 1)]) /\
  lookup_item "x2" [("x1", 0); ("x2", 2)] = Some 2 /\
  (forall e, e ∈ group "x1" 0 or_exemplars -> lookup_item "x2" (e.1) <> Some 2) /\
  call or_tree [("x1", 0); ("x2", 2)] = Ok None.
Proof.
  assert (Hvis : visits_built [("x1", 0); ("x2", 2)] or_exemplars or_tree
    (group "x1" 0 or_exemplars) (TNode "x2" [(0, TLeaf 0); (1, TLeaf 1)])).
  { change (TNode "x2" [(0, TLeaf 0); (1, TLeaf 1)])
      with (get_subnode_for_input
              [(0, TNode (Attr:=string) (Output:=nat) "x2"
                     [(0, TLeaf 0); (1, TLeaf 1)]);
               (1, TLeaf 1)] 0).
    apply visits_built_next; [constructor|reflexivity]. }
  assert (Hunseen : forall e, e ∈ group "x1" 0 or_exemplars ->
                              lookup_item "x2" (e.1) <> Some 2).
  { intros e He. vm_compute in He.
    repeat (apply elem_of_cons in He as [->|He]);
      try (by apply elem_of_nil in He); by vm_compute. }
  split_and!; [exact or_tree_built|done..|].
  exact (proj1 (call_unseen_value or_exemplars _ or_tree _ "x2" _ 2
                  or_tree_built Hvis eq_refl Hunseen)).
Defined.

(** ** The further properties on examples *)

Lemma validate_inconsistent_witness :
  ([("a", 1)], 1) ∈ vote_exemplars /\ ([("a", 1)], 0) ∈ vote_exemplars /\
  dict_eqb [("a", 1)] [("a", 1)] = true /\
  validate (TLeaf 0) vote_exemplars <> Ok true.
Proof.
  assert (H1 : ([("a", 1)], 1) ∈ vote_exemplars) by left.
  assert (H2 : ([("a", 1)], 0) ∈ vote_exemplars) by (right; left).
  assert (Hwf : dict_wf [("a", 1)]) by (apply (bool_decide_unpack _); by vm_compute).
  split_and!; [done..|].
  exact (validate_inconsistent (TLeaf 0) vote_exemplars _ _ H1 H2 Hwf Hwf eq_refl
           ltac:(done)).
Defined.

Lemma id3_valid_iff_consistent_witness :
  uniform ["x1"; "x2"] or_exemplars /\
  exists t,
    id3 or_exemplars = Ok t /\
    (validate t or_exemplars = Ok true <-> consistent or_exemplars) /\
    (validate t or_exemplars = Ok false <-> ~ consistent or_exemplars).
Proof.
  split; [exact or_exemplars_uniform|].
  exact (id3_valid_iff_consistent ["x1"; "x2"] or_exemplars or_exemplars_uniform).
Defined.

Lemma call_extends_witness :
  call or_tree [("x1", 1)] = Ok (Some 1) /\
  extends [("x1", 1)] [("x1", 1); ("x2", 5)] /\
  call or_tree [("x1", 1); ("x2", 5)] = Ok (Some 1).
Proof.
  assert (Hext : extends [("x1", 1)] [("x1", 1); ("x2", 5)]).
  { intros k v. simpl. by destruct (decide (k = "x1")). }
  split_and!; [done..|].
  exact (call_extends or_tree [("x1", 1)] _ _ eq_refl Hext).
Defined.

Lemma call_built_returns_witness :
  (forall e, e ∈ or_exemplars -> dict_wf (e.1)) /\
  id3 or_exemplars = Ok or_tree /\
  (forall e k, e ∈ or_exemplars -> k ∈ keys (e.1) ->
               is_Some (lookup_item k [("x2", 7); ("x1", 0)])) /\
  exists r, call or_tree [("x2", 7); ("x1", 0)] = Ok r.
Proof.
  assert (Hkeys : forall e k, e ∈ or_exemplars -> k ∈ keys (e.1) ->
                              is_Some (lookup_item k [("x2", 7); ("x1", 0)])).
  { intros e k He Hk. destruct (or_exemplars_uniform e He) as [_ Hperm].
    rewrite Hperm in Hk.
    repeat (apply elem_of_cons in Hk as [->|Hk]);
      [by eexists..|by apply elem_of_nil in Hk]. }
  split_and!; [exact or_exemplars_wf|exact or_tree_built|exact Hkeys|].
  exact (call_built_returns or_exemplars or_tree _ or_exemplars_wf or_tree_built
           Hkeys).
Defined.

Lemma call_None_iff_unseen_witness :
  or_exemplars <> [] /\
  id3 or_exemplars = Ok or_tree /\
  (call or_tree [("x1", 0); ("x2", 2)] = Ok None <->
   exists name pairs input,
     visits [("x1", 0); ("x2", 2)] or_tree (TNode name pairs) /\
     lookup_item name [("x1", 0); ("x2", 2)] = Some input /\ input ∉ pairs.*1).
Proof.
  assert (Hne : or_exemplars <> []) by done.
  split_and!; [done|exact or_tree_built|].
  exact (call_None_iff_unseen or_exemplars or_tree _ Hne or_tree_built).
Defined.

Lemma call_built_output_witness :
  id3 or_exemplars = Ok or_tree /\
  call or_tree [("x1", 0); ("x2", 1)] = Ok (Some 1) /\
  1 ∈ or_exemplars.*2.
Proof.
  split_and!; [exact or_tree_built|done|].
  exact (call_built_output or_exemplars or_tree [("x1", 0); ("x2", 1)] 1
           or_tree_built eq_refl).
Defined.

Lemma id3_leaves_bound_witness :
  id3 or_exemplars = Ok or_tree /\
  length (outputs_of or_tree) <= length or_exemplars /\
  (or_exemplars <> [] -> 1 <= length (outputs_of or_tree)).
Proof.
  split; [exact or_tree_built|].
  exact (id3_leaves_bound or_exemplars or_tree or_tree_built).
Defined.

Lemma id3_one_output_witness :
  one_output_exemplars <> [] /\
  (forall e, e ∈ one_output_exemplars -> e.2 = 7) /\
  exists t,
    id3 one_output_exemplars = Ok t /\
    (forall inputs, call t inputs = Ok (Some 7)) /\
    get_inputs_for_output t 7 = [].
Proof.
  assert (Hne : one_output_exemplars <> []) by done.
  assert (Hall : forall e, e ∈ one_output_exemplars -> e.2 = 7).
  { intros e He. unfold one_output_exemplars in He.
    repeat (apply elem_of_cons in He as [->|He]);
      [done..|by apply elem_of_nil in He]. }
  split_and!; [done..|].
  exact (id3_one_output one_output_exemplars 7 Hne Hall).
Defined.

Lemma id3_no_keys_TypeError_witness :
  ([("a", 1)], 1) ∈ [([("a", 1)], 1)] /\
  id3 keyless_exemplars = TypeError.
Proof.
  assert (Hin : ([("a", 1)], 1) ∈ [([("a", 1)], 1)]) by left.
  split; [done|].
  exact (id3_no_keys_TypeError 0 [([("a", 1)], 1)] _ _ Hin ltac:(done) Hin
           ltac:(done)).
Defined.

Lemma id3_missing_key_KeyError_witness :
  "a" ∈ keys [("a", 1); ("b", 1)] /\ ("a" ∉ keys [("b", 2)]) /\
  id3 different_keys_exemplars = KeyError.
Proof.
  assert (Ha : "a" ∈ keys [("a", 1); ("b", 1)]) by left.
  assert (Hnotin : "a" ∉ keys [("b", 2)]).
  { intros Hin. apply elem_of_cons in Hin as [?|Hin]; [done|].
    by apply elem_of_nil in Hin. }
  assert (H1 : ([("a", 1); ("b", 1)], 5) ∈ different_keys_exemplars) by left.
  assert (H2 : ([("b", 2)], 6) ∈ different_keys_exemplars) by (right; left).
  split_and!; [done..|].
  exact (id3_missing_key_KeyError ([("a", 1); ("b", 1)], 5) [([("b", 2)], 6)]
           _ _ _ "a" H1 H2 ltac:(done) Ha H2 Hnotin).
Defined.

Lemma id3_helper_budget_witness :
  max_keys or_exemplars < 5 /\
  id3_helper 5 or_exemplars = id3 or_exemplars /\
  key_or_type_error (id3 or_exemplars).
Proof.
  assert (Hfuel : max_keys or_exemplars < 5) by (unfold max_keys; simpl; lia).
  split; [done|].
  exact (id3_helper_budget 5 or_exemplars Hfuel).
Defined.

Lemma id3_tree_shape_witness :
  (forall e, e ∈ or_exemplars -> dict_wf (e.1)) /\
  or_exemplars <> [] /\
  id3 or_exemplars = Ok or_tree /\
  tree_wf or_tree /\ no_None or_tree.
Proof.
  assert (Hne : or_exemplars <> []) by done.
  destruct (id3_tree_shape or_exemplars or_tree or_exemplars_wf Hne or_tree_built)
    as (Hwf & Hno & _).
  split_and!; [exact or_exemplars_wf|done|exact or_tree_built|done..].
Defined.

Lemma most_common_output_first_witness :
  [1; 0; 0] <> [] /\
  exists before o after,
    set_iter [1; 0; 0] = before ++ o :: after /\
    most_common_output [1; 0; 0]
      = (TLeaf o : tree (Attr:=string) (Value:=nat)) /\
    (forall b, b ∈ before -> count [1; 0; 0] b < count [1; 0; 0] o) /\
    (forall b, b ∈ after -> count [1; 0; 0] b <= count [1; 0; 0] o).
Proof.
  assert (Hne : [1; 0; 0] <> []) by done.
  split; [done|].
  exact (most_common_output_first (Attr:=string) (Value:=nat) [1; 0; 0] Hne).
Defined.

Lemma get_inputs_for_output_complete_witness :
  call (TNode "x1" [(0, TNode "x2" [(0, TLeaf 0); (1, TLeaf 1)]); (1, TLeaf 1)])
    [("x1", 0); ("x2", 1); ("x3", 9)] = Ok (Some 1) /\
  exists a,
    a ∈ get_inputs_for_output
          (TNode "x1" [(0, TNode "x2" [(0, TLeaf 0); (1, TLeaf 1)]); (1, TLeaf 1)])
          1 /\
    extends a [("x1", 0); ("x2", 1); ("x3", 9)].
Proof.
  split; [done|].
  exact (get_inputs_for_output_complete "x1"
           [(0, TNode "x2" [(0, TLeaf 0); (1, TLeaf 1)]); (1, TLeaf 1)]
           [("x1", 0); ("x2", 1); ("x3", 9)] 1 eq_refl).
Defined.

Lemma id3_st_again_witness :
  or_store !! 4 = Some (OList [(0, 0); (1, 1); (2, 1); (3, 1)]) /\
  exemplars_at or_store [(0, 0); (1, 1); (2, 1); (3, 1)] = Some or_exemplars /\
  (id3_st 4 or_store).1 = id3 or_exemplars /\
  (id3_st 4 ((id3_st 4 or_store).2)).1 = id3 or_exemplars.
Proof.
  split_and!; [done..| |];
    by apply (id3_st_again 4 or_store [(0, 0); (1, 1); (2, 1); (3, 1)] or_exemplars).
Defined.

Lemma attr_score_zero_iff_pure_witness :
  partition_on "a" split_exemplars = Ok split_partitions /\
  exact_count (length split_exemplars) /\
  (attr_score (FL:=real_float) "a" split_exemplars = Ok Fzero <->
   forall v part, (v, part) ∈ split_partitions -> pure_outputs part).
Proof.
  assert (Hsize : exact_count (length split_exemplars)) by done.
  split_and!; [done..|].
  exact (attr_score_zero_iff_pure (FL:=real_float) "a" split_exemplars
           split_partitions eq_refl Hsize).
Defined.

Lemma id3_perfect_split_witness :
  id3 (FL:=real_float) split_exemplars
    = Ok (TNode "a" [(0, TLeaf 0); (1, TLeaf 1)]) /\
  partition_on "a" split_exemplars = Ok split_partitions /\
  (forall v part, (v, part) ∈ split_partitions -> pure_outputs part) /\
  exact_count (length split_exemplars) /\
  exists name pairs,
    TNode "a" [(0, TLeaf 0); (1, TLeaf 1)] = TNode name pairs /\
    forall v sub, (v, sub) ∈ pairs -> exists o, sub = TLeaf o.
Proof.
  assert (Hbuilt : id3 (FL:=real_float) split_exemplars
                   = Ok (TNode "a" [(0, TLeaf 0); (1, TLeaf 1)])).
  { vm_compute. reflexivity. }
  assert (Hpure : forall v part,
    (v, part) ∈ split_partitions -> pure_outputs part).
  { intros v part Hin e e' He He'. unfold split_partitions in Hin.
    repeat (apply elem_of_cons in Hin as [[= -> ->]|Hin]);
      [| |by apply elem_of_nil in Hin];
      repeat (apply elem_of_cons in He as [->|He]);
      try (by apply elem_of_nil in He);
      repeat (apply elem_of_cons in He' as [->|He']);
      try (by apply elem_of_nil in He'); done. }
  assert (H1 : ([("a", 0)], 0) ∈ split_exemplars) by left.
  assert (H2 : ([("a", 1)], 1) ∈ split_exemplars) by (right; left).
  assert (Ha : "a" ∈ keys [("a", 0)]) by left.
  assert (Hsize : exact_count (length split_exemplars)) by done.
  split_and!; [done..|].
  exact (id3_perfect_split (FL:=real_float) split_exemplars _ _ _
           ([("a", 0)], 0) "a" _
           Hbuilt H1 H2 ltac:(done) eq_refl Ha eq_refl Hpure Hsize).
Defined.

Lemma get_inputs_for_output_keys_witness :
  [("x1", 1)] ∈ get_inputs_for_output or_tree 1 /\
  dict_wf [("x1", 1)] /\
  forall k, k ∈ keys [("x1", 1)] -> k ∈ node_names or_tree.
Proof.
  assert (Hin : [("x1", 1)] ∈ get_inputs_for_output or_tree 1).
  { vm_compute. right. left. }
  split; [done|].
  exact (get_inputs_for_output_keys or_tree 1 [("x1", 1)] Hin).
Defined.

End OnExamples.
